(** * The veth network plugin of rocket: [cmdAdd], [cmdDel] and [main]

    A shallow embedding of the plugin's Go source (package [main]:
    [init], [cmdAdd], [cmdDel], [main]) and the properties of its
    attach (ADD) and detach (DEL) operations.

    The plugin is sequential code that calls collaborators (the UUID
    parser, the configuration loader, the IP allocator, netlink) and
    stops at the first failure.  It is embedded in a state-and-error
    monad over a [World]: the collaborators' state, the log of every
    collaborator call with its result, the two output streams and the
    thread lock.  The collaborators themselves are parameters. *)

From Stdlib Require Import List String Ascii ZArith Bool Lia DecimalString
  Permutation.
Import ListNotations.
Open Scope string_scope.
Open Scope list_scope.

Set Implicit Arguments.

(** ** Data *)

(** [net.IP] and [net.IPMask] are byte slices. *)
Definition IP := list Z.
Definition IPMask := list Z.

Record IPNet := mkIPNet { IPNet_IP : IP; IPNet_Mask : IPMask }.

(** [netlink.Link]: what [Attrs()] exposes and the plugin reads. *)
Record Link := mkLink { Index : Z; Name : string }.

(** [netlink.Addr{IPNet, Label}]. *)
Record Addr := mkAddr { Addr_IPNet : IPNet; Label : string }.

(** [util.Net]: the loaded network configuration. *)
Record Net := mkNet { Routes : list string }.

(** [types.UUID] is a 16-byte array. *)
Definition UUID := list Z.

(** [*os.File]: a namespace handle. *)
Record File := mkFile { Fd : Z; FileName : string }.

(** Go [error] values, as far as [os.IsExist] and [Error()] tell them
    apart. *)
Inductive error :=
| Errno (n : Z)                                  (* syscall.Errno *)
| ErrExist                                       (* os.ErrExist *)
| errorString (s : string)                       (* errors.New, fmt.Errorf *)
| PathError (Op Path : string) (Err : error)     (* *os.PathError *)
| LinkError (Op Old New : string) (Err : error). (* *os.LinkError *)

Definition EEXIST : Z := 17.

(** [os.IsExist]: looks through one [PathError] or [LinkError], then
    compares with [EEXIST] and [ErrExist]. *)
Definition IsExist (err : error) : bool :=
  let under := match err with
               | PathError _ _ e => e
               | LinkError _ _ _ e => e
               | e => e
               end in
  match under with
  | Errno n => Z.eqb n EEXIST
  | ErrExist => true
  | _ => false
  end.

(** [net.CIDRMask(ones, bits)]; the empty list is the nil mask. *)
Fixpoint CIDRMask_bytes (l : nat) (n : Z) : IPMask :=
  match l with
  | O => []
  | S l' =>
      if Z.leb 8 n then 255%Z :: CIDRMask_bytes l' (n - 8)
      else Z.lxor 255 (Z.shiftr 255 n) :: CIDRMask_bytes l' 0
  end.

Definition CIDRMask (ones bits : Z) : IPMask :=
  if negb (Z.eqb bits 32 || Z.eqb bits 128) then []
  else if Z.ltb ones 0 || Z.ltb bits ones then []
  else CIDRMask_bytes (Z.to_nat (bits / 8)) ones.

(** The result of a collaborator that returns [(T, error)] or [error]. *)
Inductive res (A : Type) :=
| Ok (a : A)
| Failed (e : error).
Arguments Ok {A} a.
Arguments Failed {A} e.

(** Every collaborator call the plugin makes, with what it returned. *)
Inductive event :=
| EvLockOSThread
| EvNewUUID (contID : string) (r : res UUID)
| EvLoadNet (netConf : string) (r : res Net)
| EvAllocPtP (cid : UUID) (netConf ifName args : string) (r : res (list IP))
| EvEnterNS (nspath : string) (r : res File)
| EvRestoreNS (hostNS : File) (r : res unit)
| EvSetupVeth (entropy ifName : string) (ipn : IPNet) (hostNS : File)
              (r : res (Link * Link))
| EvParseCIDR (s : string) (r : res IPNet)
| EvAddRoute (dst : IPNet) (gw : IP) (dev : Link) (r : res unit)
| EvLinkByName (name : string) (r : res Link)
| EvAddrAdd (link : Link) (addr : Addr) (r : res unit)
| EvAddHostRoute (dst : IPNet) (gw : IP) (dev : Link) (r : res unit)
| EvDelLinkByName (ifName : string) (r : res unit).

(** Operating-system threads. *)
Definition thread := nat.

(** How a computation ends: a value, a returned Go [error], a run-time
    panic, or [os.Exit]. *)
Inductive outcome (A : Type) :=
| Val (a : A)
| Throw (e : error)
| Panic (msg : string)
| Exit (code : Z).
Arguments Val {A} a.
Arguments Throw {A} e.
Arguments Panic {A} msg.
Arguments Exit {A} code.

(** The status the process ends with: 0 when [main] returns, the
    argument of [os.Exit], 2 after a panic. *)
Definition exit_status (o : outcome unit) : Z :=
  match o with
  | Val _ => 0
  | Exit c => c
  | Panic _ => 2
  | Throw _ => 2
  end.

(** ** The world and the monad *)

Section World.

(** The collaborators' state (kernel, allocator store, files). *)
Variable K : Type.

Record World := mkWorld {
  kern : K;
  trace : list (thread * event);  (* calls made so far, oldest first *)
  locked : option thread;         (* set by runtime.LockOSThread *)
  stdout : list string;
  stderr : list string            (* log lines, without the time header *)
}.

Definition M (A : Type) := World -> World * outcome A.

Definition ret {A} (a : A) : M A := fun w => (w, Val a).

Definition bind {A B} (m : M A) (f : A -> M B) : M B :=
  fun w =>
    match m w with
    | (w1, Val a) => f a w1
    | (w1, Throw e) => (w1, Throw e)
    | (w1, Panic p) => (w1, Panic p)
    | (w1, Exit c) => (w1, Exit c)
    end.

Definition throw {A} (e : error) : M A := fun w => (w, Throw e).
Definition panic {A} (msg : string) : M A := fun w => (w, Panic msg).

(** [os.Exit(code)]. *)
Definition os_Exit {A} (code : Z) : M A := fun w => (w, Exit code).

(** [if err != nil { return wrap(err) }] around a failing step. *)
Definition rethrow {A} (m : M A) (wrap : error -> error) : M A :=
  fun w =>
    match m w with
    | (w1, Throw e) => (w1, Throw (wrap e))
    | r => r
    end.

(** [err := f(...)] kept as a value instead of returned. *)
Definition try (m : M unit) : M (option error) :=
  fun w =>
    match m w with
    | (w1, Val _) => (w1, Val None)
    | (w1, Throw e) => (w1, Val (Some e))
    | (w1, Panic p) => (w1, Panic p)
    | (w1, Exit c) => (w1, Exit c)
    end.

(** [l[i]] on a slice: a run-time panic when out of range. *)
Definition index {A} (l : list A) (i : nat) : M A :=
  match nth_error l i with
  | Some a => ret a
  | None => panic "runtime error: index out of range"
  end.

(** [fmt.Print(s)]. *)
Definition fmt_Print (s : string) : M unit :=
  fun w => (mkWorld (kern w) (trace w) (locked w) (stdout w ++ [s]) (stderr w),
            Val tt).

(** [log.Print] and [log.Printf], after formatting. *)
Definition log_Print (s : string) : M unit :=
  fun w => (mkWorld (kern w) (trace w) (locked w) (stdout w) (stderr w ++ [s]),
            Val tt).

(** The scheduler: the thread a goroutine that is not locked runs its
    next call on, given what has happened so far. *)
Variable sched : list (thread * event) -> thread.

Definition thread_now (w : World) : thread :=
  match locked w with
  | Some t => t
  | None => sched (trace w)
  end.

Definition lift {A} (r : res A) : outcome A :=
  match r with
  | Ok a => Val a
  | Failed e => Throw e
  end.

(** A collaborator call: run it on the collaborators' state and log
    it, with its result, on the current thread. *)
Definition call {A} (ev : res A -> event) (f : K -> K * res A) : M A :=
  fun w =>
    let (k', r) := f (kern w) in
    (mkWorld k' (trace w ++ [(thread_now w, ev r)]) (locked w)
             (stdout w) (stderr w),
     lift r).

(** [runtime.LockOSThread()]: wire the goroutine to the thread it is
    running on. *)
Definition LockOSThread : M unit :=
  fun w =>
    let t := thread_now w in
    (mkWorld (kern w) (trace w ++ [(t, EvLockOSThread)]) (Some t)
             (stdout w) (stderr w),
     Val tt).

End World.

Arguments ret {K A} a.
Arguments throw {K A} e.
Arguments panic {K A} msg.
Arguments os_Exit {K A} code.
Arguments fmt_Print {K} s.
Arguments log_Print {K} s.
Arguments index {K A} l i.

Declare Scope go_scope.
Delimit Scope go_scope with go.
Notation "x <- m ;; k" := (bind m (fun x => k))
  (at level 61, m at next level, right associativity) : go_scope.
Notation "' pat <- m ;; k" := (bind m (fun x => match x with pat => k end))
  (at level 61, pat pattern, m at next level, right associativity) : go_scope.
Notation "m ;; k" := (bind m (fun _ => k))
  (at level 61, right associativity) : go_scope.
Open Scope go_scope.

(** ** The process environment *)

(** [os.Getenv]: the value of the first entry for [key], or the empty
    string. *)
Fixpoint Getenv (environ : list (string * string)) (key : string) : string :=
  match environ with
  | [] => EmptyString
  | (k, v) :: rest => if String.eqb k key then v else Getenv rest key
  end.

(** [os.Environ]: the entries as ["key=value"]. *)
Definition Environ (environ : list (string * string)) : list string :=
  map (fun kv => (fst kv ++ "=" ++ snd kv)%string) environ.

(** How [fmt] prints a [[]string] under [%v]: [[a b c]]. *)
Definition Sprint_strings (l : list string) : string :=
  ("[" ++ String.concat " " l ++ "]")%string.

(** The text of an error, given the text of the [syscall.Errno]
    values. *)
Fixpoint Error_text (errno : Z -> string) (err : error) : string :=
  match err with
  | Errno n => errno n
  | ErrExist => "file already exists"
  | errorString s => s
  | PathError op path e =>
      (op ++ " " ++ path ++ ": " ++ Error_text errno e)%string
  | LinkError op old new e =>
      (op ++ " " ++ old ++ " " ++ new ++ ": " ++ Error_text errno e)%string
  end.

(** ** The plugin's dependencies *)

(** What the plugin calls and does not define: the Go library and the
    collaborators of packages [types], [util], [ipam] and [netlink],
    as functions on the collaborators' state [K]. *)
Record Deps (K : Type) := mkDeps {
  (** the scheduler: the thread a goroutine that is not locked runs
      its next call on, given the calls so far *)
  sched : list (thread * event) -> thread;
  (** [strconv.Quote], which [%q] applies to a string *)
  Quote : string -> string;
  (** the [String] method of [net.IPNet] *)
  IPNet_String : IPNet -> string;
  (** [syscall.Errno.Error] *)
  Errno_Error : Z -> string;
  NewUUID : string -> res UUID;
  LoadNet : string -> K -> K * res Net;
  AllocPtP : UUID -> string -> string -> string -> K -> K * res (list IP);
  SetupVeth : string -> string -> IPNet -> File -> K -> K * res (Link * Link);
  ParseCIDR : string -> res IPNet;
  AddRoute : IPNet -> IP -> Link -> K -> K * res unit;
  LinkByName : string -> K -> K * res Link;
  AddrAdd : Link -> Addr -> K -> K * res unit;
  AddHostRoute : IPNet -> IP -> Link -> K -> K * res unit;
  DelLinkByName : string -> K -> K * res unit;
  (** the two kernel steps of the namespace executor: capture the
      current namespace, open the target and switch to it (the captured
      handle is returned); and switch back to a captured handle *)
  enterNS : string -> K -> K * res File;
  restoreNS : File -> K -> K * res unit
}.

(** ** The plugin *)

Section Plugin.

Local Open Scope string_scope.

Variable K : Type.
Variable D : Deps K.

Local Abbreviation M := (M K).
Local Abbreviation call := (call (sched D)).

(** The [Error()] method. *)
Definition Error (err : error) : string := Error_text (Errno_Error D) err.

(** Modelled from the spec: [util.WithNetNSPath] of package
    [networking/util], which is not among the sources.  Section 4.4:
    capture the host namespace and switch to the one at [nspath]
    (failing if the path cannot be opened or the switch is rejected),
    invoke the callback with the captured handle, and restore on
    every exit path; the callback's error is returned if restoration
    succeeded, the restoration error takes priority otherwise. *)
Definition WithNetNSPath {A} (nspath : string) (f : File -> M A) : M A :=
  fun w =>
    match call (EvEnterNS nspath) (enterNS D nspath) w with
    | (w1, Val hostNS) =>
        match f hostNS w1 with
        | (w2, Exit c) => (w2, Exit c)
        | (w2, o) =>
            match call (EvRestoreNS hostNS) (restoreNS D hostNS) w2 with
            | (w3, Throw e) =>
                (w3, match o with Panic p => Panic p | _ => Throw e end)
            | (w3, _) => (w3, o)
            end
        end
    | (w1, Throw e) => (w1, Throw e)
    | (w1, Panic p) => (w1, Panic p)
    | (w1, Exit c) => (w1, Exit c)
    end.

(** *** [init] *)

Definition init : M unit := LockOSThread (sched D).

(** *** [cmdAdd] *)

(** The [for _, r := range conf.Routes] loop of the callback. *)
Fixpoint cmdAdd_routes (hostIP : IP) (contVeth : Link) (routes : list string)
  : M unit :=
  match routes with
  | [] => ret tt
  | r :: rest =>
      dst <- rethrow (call (EvParseCIDR r) (fun k => (k, ParseCIDR D r)))
               (fun err => errorString
                  ("failed to parse route " ++ Quote D r ++ ": "
                   ++ Error err)) ;;
      rethrow (call (EvAddRoute dst hostIP contVeth)
                    (AddRoute D dst hostIP contVeth))
        (fun err => errorString
           ("failed to add route " ++ Quote D (IPNet_String D dst) ++ ": "
            ++ Error err)) ;;
      cmdAdd_routes hostIP contVeth rest
  end.

(** The callback run inside the namespace.  It assigns the captured
    variables [hostVethName] and [contIPNet]; here it returns them. *)
Definition cmdAdd_callback (contID ifName : string) (conf : Net)
    (hostIP contIP : IP) (hostNS : File) : M (string * string) :=
  let entropy := contID ++ ifName in
  let ipn := mkIPNet contIP (CIDRMask 31 32) in
  '(hostVeth, contVeth) <-
      call (EvSetupVeth entropy ifName ipn hostNS)
           (SetupVeth D entropy ifName ipn hostNS) ;;
  cmdAdd_routes hostIP contVeth (Routes conf) ;;
  ret (Name hostVeth, IPNet_String D ipn).

Definition cmdAdd (contID netns netConf ifName args : string) : M unit :=
  cid <- rethrow (call (EvNewUUID contID) (fun k => (k, NewUUID D contID)))
           (fun err => errorString
              ("error parsing ContainerID: " ++ Error err)) ;;
  conf <- rethrow (call (EvLoadNet netConf) (LoadNet D netConf))
            (fun err => errorString
               ("failed to load " ++ Quote D netConf ++ ": " ++ Error err)) ;;
  ips <- call (EvAllocPtP cid netConf ifName args)
              (AllocPtP D cid netConf ifName args) ;;
  hostIP <- index ips 0 ;;
  contIP <- index ips 1 ;;
  '(hostVethName, contIPNet) <-
      WithNetNSPath netns (cmdAdd_callback contID ifName conf hostIP contIP) ;;
  (* hostVeth moved namespaces and may have a new ifindex *)
  hostVeth <- rethrow (call (EvLinkByName hostVethName)
                            (LinkByName D hostVethName))
                (fun err => errorString
                   ("failed to lookup " ++ Quote D hostVethName ++ ": "
                    ++ Error err)) ;;
  let ipn := mkIPNet hostIP (CIDRMask 31 32) in
  let addr := mkAddr ipn EmptyString in
  rethrow (call (EvAddrAdd hostVeth addr) (AddrAdd D hostVeth addr))
    (fun err => errorString
       ("failed to add IP addr to veth: " ++ Error err)) ;;
  (* dst happens to be the same as IP/net of host veth *)
  err <- try (call (EvAddHostRoute ipn [] hostVeth)
                   (AddHostRoute D ipn [] hostVeth)) ;;
  match err with
  | Some e =>
      if negb (IsExist e)
      then throw (errorString ("failed to add route on host: " ++ Error e))
      else ret tt
  | None => ret tt
  end ;;
  fmt_Print contIPNet.

(** *** [cmdDel] *)

Definition cmdDel (contID netns netConf ifName args : string) : M unit :=
  WithNetNSPath netns (fun hostNS =>
    call (EvDelLinkByName ifName) (DelLinkByName D ifName)).

(** *** [main] *)

(** The [switch cmd] of [main]: the error of the operation run. *)
Definition main_dispatch (cmd contID netns netConf ifName args : string)
  : M (option error) :=
  if String.eqb cmd "ADD"
  then try (cmdAdd contID netns netConf ifName args)
  else if String.eqb cmd "DEL"
  then try (cmdDel contID netns netConf ifName args)
  else
    log_Print ("Unknown RKT_NETPLUGIN_COMMAND: " ++ cmd) ;;
    os_Exit 1.

(** [environ] is the process environment and [Args] is [os.Args]. *)
Definition main (environ : list (string * string)) (Args : list string)
  : M unit :=
  let cmd := Getenv environ "RKT_NETPLUGIN_COMMAND" in
  let contID := Getenv environ "RKT_NETPLUGIN_CONTID" in
  let netns := Getenv environ "RKT_NETPLUGIN_NETNS" in
  let args := Getenv environ "RKT_NETPLUGIN_ARGS" in
  let ifName := Getenv environ "RKT_NETPLUGIN_IFNAME" in
  let netConf := Getenv environ "RKT_NETPLUGIN_NETCONF" in
  (if String.eqb cmd EmptyString || String.eqb contID EmptyString
      || String.eqb netns EmptyString
      || String.eqb ifName EmptyString || String.eqb netConf EmptyString
   then
     log_Print "Required env variable missing" ;;
     log_Print ("Env: " ++ Sprint_strings (Environ environ)) ;;
     os_Exit 1
   else ret tt) ;;
  err <- main_dispatch cmd contID netns netConf ifName args ;;
  match err with
  | Some e =>
      arg1 <- index Args 1 ;;
      log_Print (arg1 ++ ": " ++ Error e) ;;
      os_Exit 1
  | None => ret tt
  end.

(** The whole process: package initialisation, then [main]. *)
Definition process (environ : list (string * string)) (Args : list string)
  : M unit :=
  init ;; main environ Args.

End Plugin.

(** ** Reading the call log *)

(** The calls made between two worlds of one run, with their threads. *)
Definition emitted {K} (w w' : World K) : list (thread * event) :=
  skipn (List.length (trace w)) (trace w').

(** The same, without the threads. *)
Definition calls {K} (w w' : World K) : list event :=
  map snd (emitted w w').

(** A route is installed by a call of [AddRoute] that succeeded. *)
Definition installs (ev : event) : bool :=
  match ev with
  | EvAddRoute _ _ _ (Ok _) => true
  | _ => false
  end.

(** The destinations handed to [AddRoute], in order. *)
Fixpoint route_attempts (evs : list event) : list IPNet :=
  match evs with
  | [] => []
  | EvAddRoute dst _ _ _ :: rest => dst :: route_attempts rest
  | _ :: rest => route_attempts rest
  end.

(** A route entry is malformed when [ParseCIDR] rejects it. *)
Definition malformed {K} (D : Deps K) (r : string) : bool :=
  match ParseCIDR D r with
  | Ok _ => false
  | Failed _ => true
  end.

(** The entries before the first malformed one. *)
Fixpoint well_formed_prefix {K} (D : Deps K) (routes : list string)
  : list string :=
  match routes with
  | [] => []
  | r :: rest =>
      if malformed D r then [] else r :: well_formed_prefix D rest
  end.

(** The destinations of a list of well-formed entries. *)
Fixpoint destinations {K} (D : Deps K) (routes : list string) : list IPNet :=
  match routes with
  | [] => []
  | r :: rest =>
      match ParseCIDR D r with
      | Ok dst => dst :: destinations D rest
      | Failed _ => destinations D rest
      end
  end.

(** Calls that act in a network namespace of the thread that makes
    them. *)
Definition namespace_sensitive (ev : event) : bool :=
  match ev with
  | EvEnterNS _ _ | EvRestoreNS _ _ | EvSetupVeth _ _ _ _ _
  | EvAddRoute _ _ _ _ | EvLinkByName _ _ | EvAddrAdd _ _ _
  | EvAddHostRoute _ _ _ _ | EvDelLinkByName _ _ => true
  | _ => false
  end.

(** Calls [cmdAdd] makes on the host side, after the callback. *)
Definition host_side (ev : event) : bool :=
  match ev with
  | EvLinkByName _ _ | EvAddrAdd _ _ _ | EvAddHostRoute _ _ _ _ => true
  | _ => false
  end.

Definition is_lock (ev : event) : bool :=
  match ev with
  | EvLockOSThread => true
  | _ => false
  end.

(** Calls [cmdAdd] makes before it enters the namespace. *)
Definition prelude (ev : event) : bool :=
  match ev with
  | EvNewUUID _ _ | EvLoadNet _ _ | EvAllocPtP _ _ _ _ _ => true
  | _ => false
  end.

(** Calls the callback of [cmdAdd] makes inside the namespace. *)
Definition inside_ns (ev : event) : bool :=
  match ev with
  | EvSetupVeth _ _ _ _ _ | EvParseCIDR _ _ | EvAddRoute _ _ _ _ => true
  | _ => false
  end.

(** A call of [AddRoute] that the kernel rejected. *)
Definition route_rejected (ev : event) : bool :=
  match ev with
  | EvAddRoute _ _ _ (Failed _) => true
  | _ => false
  end.

(** A call that returned an error. *)
Definition failed_call (ev : event) : bool :=
  match ev with
  | EvNewUUID _ (Failed _) | EvLoadNet _ (Failed _)
  | EvAllocPtP _ _ _ _ (Failed _) | EvEnterNS _ (Failed _)
  | EvRestoreNS _ (Failed _) | EvSetupVeth _ _ _ _ (Failed _)
  | EvParseCIDR _ (Failed _) | EvAddRoute _ _ _ (Failed _)
  | EvLinkByName _ (Failed _) | EvAddrAdd _ _ (Failed _)
  | EvAddHostRoute _ _ _ (Failed _) | EvDelLinkByName _ (Failed _) => true
  | _ => false
  end.

(** Whether the calls stop at the first that failed, but for the
    restoration of the namespace after a failure inside it. *)
Fixpoint fail_stop (evs : list event) : bool :=
  match evs with
  | [] => true
  | ev :: rest =>
      if failed_call ev
      then match rest with
           | [] => true
           | [EvRestoreNS _ _] => inside_ns ev
           | _ => false
           end
      else fail_stop rest
  end.

(** Substring test, for reading diagnostics. *)
Fixpoint contains (needle hay : string) : bool :=
  if String.prefix needle hay then true
  else match hay with
       | EmptyString => false
       | String _ rest => contains needle rest
       end.

(** ** A simulated host

    The collaborators are not among the sources.  [Sim] gives one
    executable set of them over a small kernel state (namespaces with
    their interfaces, addresses and routes), so that the plugin can be
    run on concrete inputs. *)

Module Sim.

Local Open Scope string_scope.
Local Open Scope Z_scope.

Record Kernel := mkKernel {
  active : string;                            (* namespace of the thread *)
  spaces : list string;                       (* namespaces that exist, by path *)
  links : list (string * Link);               (* namespace, interface *)
  addrs : list (string * string * IPNet);     (* namespace, interface, address *)
  routes : list (string * IPNet * IP * string); (* namespace, dst, gw, interface *)
  confs : list (string * Net);                (* configuration resources *)
  pool : res (list IP);                       (* what the allocator answers *)
  reject : list (string * error)              (* calls the kernel rejects *)
}.

Fixpoint assoc {A} (key : string) (l : list (string * A)) : option A :=
  match l with
  | [] => None
  | (k, v) :: rest => if String.eqb k key then Some v else assoc key rest
  end.

Definition rejected (k : Kernel) (op : string) : option error :=
  assoc op (reject k).

(** *** Text *)

Definition dec (z : Z) : string :=
  DecimalString.NilEmpty.string_of_uint (N.to_uint (Z.to_N z)).

Definition hexdigit (z : Z) : string :=
  String.substring (Z.to_nat z) 1 "0123456789abcdef".

Definition hex (m : list Z) : string :=
  String.concat EmptyString (map (fun b => hexdigit (b / 16) ++ hexdigit (b mod 16)) m).

(** [strconv.Quote] on text whose only characters to escape are the
    double quote and the backslash. *)
Fixpoint quote_body (s : string) : string :=
  match s with
  | EmptyString => EmptyString
  | String c rest =>
      if Ascii.eqb c (ascii_of_nat 34) || Ascii.eqb c (ascii_of_nat 92)
      then String (ascii_of_nat 92) (String c (quote_body rest))
      else String c (quote_body rest)
  end.

Definition quote (s : string) : string :=
  String (ascii_of_nat 34) (quote_body s ++ String (ascii_of_nat 34) EmptyString).

Definition errno_text (n : Z) : string :=
  if n =? 1 then "operation not permitted"
  else if n =? 2 then "no such file or directory"
  else if n =? 17 then "file exists"
  else if n =? 19 then "no such device"
  else if n =? 22 then "invalid argument"
  else "errno " ++ dec n.

(** [To4]: the 4-byte form of an IPv4 address. *)
Definition To4 (ip : IP) : option IP :=
  match ip with
  | [_; _; _; _] => Some ip
  | [0; 0; 0; 0; 0; 0; 0; 0; 0; 0; 255; 255; a; b; c; d] => Some [a; b; c; d]
  | _ => None
  end.

Definition dotted (ip : IP) : string :=
  String.concat "." (map dec ip).

(** The inner loop of [simpleMaskLength]: count the leading one bits
    of a byte. *)
Fixpoint leading_ones (fuel : nat) (v n : Z) : Z * Z :=
  match fuel with
  | O => (v, n)
  | S fuel' =>
      if Z.land v 128 =? 0 then (v, n)
      else leading_ones fuel' (Z.land (Z.shiftl v 1) 255) (n + 1)
  end.

Fixpoint simpleMaskLength (mask : IPMask) (n : Z) : Z :=
  match mask with
  | [] => n
  | v :: rest =>
      if v =? 255 then simpleMaskLength rest (n + 8)
      else
        let (v', n') := leading_ones 8 v n in
        if negb (v' =? 0) then -1
        else if forallb (Z.eqb 0) rest then n' else -1
  end.

(** [IPNet.String] for 4-byte masks, the only ones the plugin and
    [parseCIDR] below build: an address that is not IPv4 gives
    ["<nil>"]. *)
Definition ipnet_string (n : IPNet) : string :=
  match To4 (IPNet_IP n), IPNet_Mask n with
  | Some ip, ([_; _; _; _] as m) =>
      let l := simpleMaskLength m 0 in
      if l =? -1 then dotted ip ++ "/" ++ hex m
      else dotted ip ++ "/" ++ dec l
  | _, _ => "<nil>"
  end.

(** *** Parsers *)

Fixpoint split (sep : ascii) (s : string) : list string :=
  match s with
  | EmptyString => [EmptyString]
  | String c rest =>
      match split sep rest with
      | [] => [String c EmptyString]
      | f :: fs =>
          if Ascii.eqb c sep then EmptyString :: f :: fs
          else String c f :: fs
      end
  end.

Fixpoint dtoi_from (s : string) (acc : Z) : option Z :=
  match s with
  | EmptyString => Some acc
  | String c rest =>
      let d := Z.of_nat (nat_of_ascii c) - 48 in
      if (0 <=? d) && (d <=? 9)
      then (let acc' := acc * 10 + d in
            if 16777215 <? acc' then None else dtoi_from rest acc')
      else None
  end.

Definition dtoi (s : string) : option Z :=
  match s with
  | EmptyString => None
  | _ => dtoi_from s 0
  end.

Definition byte_ok (z : Z) : bool := z <=? 255.

(** Modelled from the spec: [util.ParseCIDR] (section 4.6: strict
    CIDR parsing, an error on malformed text), for IPv4. *)
Definition parseCIDR (s : string) : res IPNet :=
  let bad := Failed (errorString ("invalid CIDR address: " ++ s)) in
  match split "/" s with
  | [addr; len] =>
      match map dtoi (split "." addr), dtoi len with
      | [Some a; Some b; Some c; Some d], Some n =>
          if byte_ok a && byte_ok b && byte_ok c && byte_ok d && (n <=? 32)
          then Ok (mkIPNet [a; b; c; d] (CIDRMask n 32))
          else bad
      | _, _ => bad
      end
  | _ => bad
  end.

Definition hexval (c : ascii) : option Z :=
  let n := Z.of_nat (nat_of_ascii c) in
  if (48 <=? n) && (n <=? 57) then Some (n - 48)
  else if (97 <=? n) && (n <=? 102) then Some (n - 87)
  else if (65 <=? n) && (n <=? 70) then Some (n - 55)
  else None.

Fixpoint unhex (s : string) : option (list Z) :=
  match s with
  | EmptyString => Some []
  | String hi (String lo rest) =>
      match hexval hi, hexval lo, unhex rest with
      | Some h, Some l, Some bs => Some (h * 16 + l :: bs)
      | _, _, _ => None
      end
  | _ => None
  end.

(** [types.NewUUID]: 32 hexadecimal digits, dashes ignored. *)
Definition newUUID (s : string) : res UUID :=
  let s' := String.concat EmptyString (split "-" s) in
  if negb (Nat.eqb (String.length s') 32)
  then Failed (errorString "bad UUID length != 32")
  else match unhex s' with
       | Some bs => Ok bs
       | None => Failed (errorString "encoding/hex: invalid byte")
       end.

(** *** The kernel and the stores *)

Definition list_eqb (a b : list Z) : bool :=
  if list_eq_dec Z.eq_dec a b then true else false.

Definition IPNet_eqb (a b : IPNet) : bool :=
  list_eqb (IPNet_IP a) (IPNet_IP b) && list_eqb (IPNet_Mask a) (IPNet_Mask b).

Definition find_link (k : Kernel) (ns name : string) : option Link :=
  option_map snd
    (find (fun nl => String.eqb (fst nl) ns && String.eqb (Name (snd nl)) name)
          (links k)).

Definition links_in (k : Kernel) (ns : string) : list Link :=
  map snd (filter (fun nl => String.eqb (fst nl) ns) (links k)).

(** The index a new interface gets in a namespace. *)
Definition fresh_index (k : Kernel) (ns : string) : Z :=
  Z.of_nat (List.length (links_in k ns)) + 1.

(** The host-side name derived from the seed. *)
Definition veth_name (entropy : string) : string :=
  "veth" ++ String.substring 0 8 entropy.

(** Modelled from the spec: [util.LoadNet] (section 6: load the named
    configuration resource, an error when it is missing). *)
Definition loadNet (netConf : string) (k : Kernel) : Kernel * res Net :=
  match assoc netConf (confs k) with
  | Some conf => (k, Ok conf)
  | None => (k, Failed (PathError "open" netConf (Errno 2)))
  end.

(** Modelled from the spec: [ipam.AllocPtP] (section 6), as a stub
    that answers what the host was set up with. *)
Definition allocPtP (cid : UUID) (netConf ifName args : string) (k : Kernel)
  : Kernel * res (list IP) :=
  (k, pool k).

(** Modelled from the spec: the first half of [util.WithNetNSPath]
    (section 4.4): open the namespace at [nspath], an error if it
    cannot be opened; switch to it, an error if the kernel rejects the
    switch; the handle of the namespace left is returned. *)
Definition enter (nspath : string) (k : Kernel) : Kernel * res File :=
  if negb (existsb (String.eqb nspath) (spaces k))
  then (k, Failed (PathError "open" nspath (Errno 2)))
  else match rejected k "setns" with
       | Some e => (k, Failed e)
       | None =>
           (mkKernel nspath (spaces k) (links k) (addrs k) (routes k)
                     (confs k) (pool k) (reject k),
            Ok (mkFile 3 (active k)))
       end.

(** Modelled from the spec: the second half of [util.WithNetNSPath]
    (section 4.4): switch back to the captured namespace. *)
Definition restore (hostNS : File) (k : Kernel) : Kernel * res unit :=
  match rejected k "restore" with
  | Some e => (k, Failed e)
  | None =>
      (mkKernel (FileName hostNS) (spaces k) (links k) (addrs k) (routes k)
                (confs k) (pool k) (reject k),
       Ok tt)
  end.

(** Modelled from the spec: [util.SetupVeth] (section 4.5).  The pair
    is created in the active namespace; the host end is moved to the
    namespace of [hostNS], where it gets an index of that namespace;
    the other end is named [ifName] and receives [ipn]. *)
Definition setupVeth (entropy ifName : string) (ipn : IPNet) (hostNS : File)
    (k : Kernel) : Kernel * res (Link * Link) :=
  match rejected k "SetupVeth" with
  | Some e => (k, Failed e)
  | None =>
      match find_link k (active k) ifName with
      | Some _ => (k, Failed (Errno EEXIST))
      | None =>
          let i := fresh_index k (active k) in
          let hostVeth := mkLink i (veth_name entropy) in
          let contVeth := mkLink (i + 1) ifName in
          let moved := mkLink (fresh_index k (FileName hostNS))
                              (veth_name entropy) in
          (mkKernel (active k) (spaces k)
                    (links k ++ [(FileName hostNS, moved);
                                 (active k, contVeth)])%list
                    (addrs k ++ [(active k, ifName, ipn)])%list
                    (routes k) (confs k) (pool k) (reject k),
           Ok (hostVeth, contVeth))
      end
  end.

(** Modelled from the spec: [util.AddRoute] (section 4.6). *)
Definition addRoute (dst : IPNet) (gw : IP) (dev : Link) (k : Kernel)
  : Kernel * res unit :=
  match rejected k "AddRoute" with
  | Some e => (k, Failed e)
  | None =>
      (mkKernel (active k) (spaces k) (links k) (addrs k)
                (routes k ++ [(active k, dst, gw, Name dev)])%list
                (confs k) (pool k) (reject k),
       Ok tt)
  end.

(** [netlink.LinkByName]: the interface of that name in the active
    namespace. *)
Definition linkByName (name : string) (k : Kernel) : Kernel * res Link :=
  match rejected k "LinkByName" with
  | Some e => (k, Failed e)
  | None =>
      match find_link k (active k) name with
      | Some l => (k, Ok l)
      | None => (k, Failed (errorString "Link not found"))
      end
  end.

(** [netlink.AddrAdd]. *)
Definition addrAdd (link : Link) (addr : Addr) (k : Kernel)
  : Kernel * res unit :=
  match rejected k "AddrAdd" with
  | Some e => (k, Failed e)
  | None =>
      (mkKernel (active k) (spaces k) (links k)
                (addrs k ++ [(active k, Name link, Addr_IPNet addr)])%list
                (routes k) (confs k) (pool k) (reject k),
       Ok tt)
  end.

Definition has_route (k : Kernel) (ns : string) (dst : IPNet) : bool :=
  existsb (fun r => match r with
                    | (ns', dst', _, _) =>
                        String.eqb ns' ns && IPNet_eqb dst' dst
                    end) (routes k).

(** Modelled from the spec: [util.AddHostRoute] (section 4.6); the
    kernel answers [EEXIST] for a destination that has a route. *)
Definition addHostRoute (dst : IPNet) (gw : IP) (dev : Link) (k : Kernel)
  : Kernel * res unit :=
  match rejected k "AddHostRoute" with
  | Some e => (k, Failed e)
  | None =>
      if has_route k (active k) dst then (k, Failed (Errno EEXIST))
      else
        (mkKernel (active k) (spaces k) (links k) (addrs k)
                  (routes k ++ [(active k, dst, gw, Name dev)])%list
                  (confs k) (pool k) (reject k),
         Ok tt)
  end.

Definition keep_link (ns name : string) (nl : string * Link) : bool :=
  negb (String.eqb (fst nl) ns && String.eqb (Name (snd nl)) name).

(** Modelled from the spec: [util.DelLinkByName] of package
    [networking/util], which is not among the sources.  Section 4.3:
    delete the interface of that name in the active namespace; an
    interface that does not exist is a success; any other kernel
    failure is reported as an error. *)
Definition delLinkByName (ifName : string) (k : Kernel) : Kernel * res unit :=
  match find_link k (active k) ifName with
  | None => (k, Ok tt)
  | Some _ =>
      match rejected k "LinkDel" with
      | Some e =>
          (k, Failed (errorString ("failed to delete " ++ quote ifName
                                   ++ ": " ++ Error_text errno_text e)))
      | None =>
          (mkKernel (active k) (spaces k)
                    (filter (keep_link (active k) ifName) (links k))
                    (addrs k) (routes k) (confs k) (pool k) (reject k),
           Ok tt)
      end
  end.

(** The namespace at [nspath] can be entered and left. *)
Definition enterable (k : Kernel) (nspath : string) : Prop :=
  existsb (String.eqb nspath) (spaces k) = true /\
  rejected k "setns" = None /\ rejected k "restore" = None.

Definition sched (tr : list (thread * event)) : thread := List.length tr.

(** The simulated host as the plugin's dependencies. *)
Definition deps : Deps Kernel :=
  mkDeps sched quote ipnet_string errno_text newUUID loadNet allocPtP
         setupVeth parseCIDR addRoute linkByName addrAdd addHostRoute
         delLinkByName enter restore.

(** A process that has made no call yet. *)
Definition boot (k : Kernel) : World Kernel := mkWorld k [] None [] [].

(** A host with the namespace of a container and one configuration. *)
Definition host (conf : Net) (ips : res (list IP))
    (faults : list (string * error)) : Kernel :=
  mkKernel "/proc/self/ns/net" ["/proc/self/ns/net"; "/var/run/netns/c1"]
           [("/proc/self/ns/net", mkLink 1 "lo");
            ("/proc/self/ns/net", mkLink 2 "eth0");
            ("/var/run/netns/c1", mkLink 1 "lo")]
           [] [] [("veth.conf", conf)] ips faults.

Definition contID : string := "6733c088-a507-4694-aabf-f0e0c54b1bab".

Definition netns : string := "/var/run/netns/c1".

(** The environment of an invocation; no arguments are passed. *)
Definition environ (cmd netConf : string) : list (string * string) :=
  [("PATH", "/usr/bin");
   ("RKT_NETPLUGIN_COMMAND", cmd);
   ("RKT_NETPLUGIN_CONTID", contID);
   ("RKT_NETPLUGIN_NETNS", netns);
   ("RKT_NETPLUGIN_IFNAME", "eth0");
   ("RKT_NETPLUGIN_NETCONF", netConf)].

(** The pair the allocator hands out. *)
Definition two_ips : res (list IP) := Ok [[10; 0; 0; 0]; [10; 0; 0; 1]].

Definition world (routes : list string) (ips : res (list IP))
    (faults : list (string * error)) : World Kernel :=
  boot (host (mkNet routes) ips faults).

(** ADD and DEL of the interface [eth0] of the container. *)
Abbreviation add w :=
  (cmdAdd deps contID netns "veth.conf" "eth0" EmptyString w).

Abbreviation del w :=
  (cmdDel deps contID netns "veth.conf" "eth0" EmptyString w).

End Sim.

(** ** The runs of [cmdAdd], call by call *)

Section Runs.

Variable K : Type.
Variable D : Deps K.

(** The errors [cmdAdd] builds with [fmt.Errorf]. *)
Definition uuid_error (e : error) : error :=
  errorString ("error parsing ContainerID: " ++ Error D e)%string.
Definition load_error (netConf : string) (e : error) : error :=
  errorString ("failed to load " ++ Quote D netConf ++ ": " ++ Error D e)%string.
Definition parse_error (r : string) (e : error) : error :=
  errorString ("failed to parse route " ++ Quote D r ++ ": " ++ Error D e)%string.
Definition route_error (dst : IPNet) (e : error) : error :=
  errorString ("failed to add route " ++ Quote D (IPNet_String D dst) ++ ": "
               ++ Error D e)%string.
Definition lookup_error (name : string) (e : error) : error :=
  errorString ("failed to lookup " ++ Quote D name ++ ": " ++ Error D e)%string.
Definition addr_error (e : error) : error :=
  errorString ("failed to add IP addr to veth: " ++ Error D e)%string.
Definition host_route_error (e : error) : error :=
  errorString ("failed to add route on host: " ++ Error D e)%string.

(** The calls and the outcome of the route loop over [routes]. *)
Inductive RouteLoop (gw : IP) (dev : Link)
  : list string -> list event -> outcome unit -> Prop :=
| RL_done :
    RouteLoop gw dev [] [] (Val tt)
| RL_parse_fails r rest e :
    ParseCIDR D r = Failed e ->
    RouteLoop gw dev (r :: rest)
              [EvParseCIDR r (Failed e)] (Throw (parse_error r e))
| RL_add_fails r rest dst e :
    ParseCIDR D r = Ok dst ->
    RouteLoop gw dev (r :: rest)
              [EvParseCIDR r (Ok dst); EvAddRoute dst gw dev (Failed e)]
              (Throw (route_error dst e))
| RL_next r rest dst evs o :
    ParseCIDR D r = Ok dst ->
    RouteLoop gw dev rest evs o ->
    RouteLoop gw dev (r :: rest)
              (EvParseCIDR r (Ok dst) :: EvAddRoute dst gw dev (Ok tt) :: evs)
              o.

(** What the namespace executor returns when the callback ended with
    [o] and the restoration with [r]. *)
Definition after_restore {A} (o : outcome A) (r : res unit) : outcome A :=
  match r, o with
  | Failed e, Panic p => Panic p
  | Failed e, _ => Throw e
  | Ok _, _ => o
  end.

(** The calls and the outcome of the callback of [cmdAdd]. *)
Inductive CallbackRun (contID ifName : string) (conf : Net)
    (hostIP contIP : IP) (hostNS : File)
  : list event -> outcome (string * string) -> Prop :=
| CB_setup_fails e :
    CallbackRun contID ifName conf hostIP contIP hostNS
      [EvSetupVeth (contID ++ ifName)%string ifName
                   (mkIPNet contIP (CIDRMask 31 32)) hostNS (Failed e)]
      (Throw e)
| CB_routes_fail hostVeth contVeth evs e :
    RouteLoop hostIP contVeth (Routes conf) evs (Throw e) ->
    CallbackRun contID ifName conf hostIP contIP hostNS
      (EvSetupVeth (contID ++ ifName)%string ifName
                   (mkIPNet contIP (CIDRMask 31 32)) hostNS
                   (Ok (hostVeth, contVeth)) :: evs)
      (Throw e)
| CB_done hostVeth contVeth evs :
    RouteLoop hostIP contVeth (Routes conf) evs (Val tt) ->
    CallbackRun contID ifName conf hostIP contIP hostNS
      (EvSetupVeth (contID ++ ifName)%string ifName
                   (mkIPNet contIP (CIDRMask 31 32)) hostNS
                   (Ok (hostVeth, contVeth)) :: evs)
      (Val (Name hostVeth,
            IPNet_String D (mkIPNet contIP (CIDRMask 31 32)))).

(** The calls and the outcome of [cmdAdd] after the namespace
    executor has returned the recorded names. *)
Inductive HostRun (hostIP : IP) (hostVethName : string)
  : list event -> outcome unit -> Prop :=
| HR_lookup_fails e :
    HostRun hostIP hostVethName
      [EvLinkByName hostVethName (Failed e)]
      (Throw (lookup_error hostVethName e))
| HR_addr_fails hostVeth e :
    HostRun hostIP hostVethName
      [EvLinkByName hostVethName (Ok hostVeth);
       EvAddrAdd hostVeth
         (mkAddr (mkIPNet hostIP (CIDRMask 31 32)) EmptyString) (Failed e)]
      (Throw (addr_error e))
| HR_route_fails hostVeth e :
    IsExist e = false ->
    HostRun hostIP hostVethName
      [EvLinkByName hostVethName (Ok hostVeth);
       EvAddrAdd hostVeth
         (mkAddr (mkIPNet hostIP (CIDRMask 31 32)) EmptyString) (Ok tt);
       EvAddHostRoute (mkIPNet hostIP (CIDRMask 31 32)) [] hostVeth
         (Failed e)]
      (Throw (host_route_error e))
| HR_done hostVeth r :
    (forall e, r = Failed e -> IsExist e = true) ->
    HostRun hostIP hostVethName
      [EvLinkByName hostVethName (Ok hostVeth);
       EvAddrAdd hostVeth
         (mkAddr (mkIPNet hostIP (CIDRMask 31 32)) EmptyString) (Ok tt);
       EvAddHostRoute (mkIPNet hostIP (CIDRMask 31 32)) [] hostVeth r]
      (Val tt).

(** The calls, the outcome and the standard output of [cmdAdd]. *)
Inductive AddRun (contID netns netConf ifName args : string)
  : list event -> outcome unit -> list string -> Prop :=
| AR_uuid_fails e :
    AddRun contID netns netConf ifName args
      [EvNewUUID contID (Failed e)] (Throw (uuid_error e)) []
| AR_load_fails cid e :
    AddRun contID netns netConf ifName args
      [EvNewUUID contID (Ok cid); EvLoadNet netConf (Failed e)]
      (Throw (load_error netConf e)) []
| AR_alloc_fails cid conf e :
    AddRun contID netns netConf ifName args
      [EvNewUUID contID (Ok cid); EvLoadNet netConf (Ok conf);
       EvAllocPtP cid netConf ifName args (Failed e)]
      (Throw e) []
| AR_alloc_short cid conf ips :
    (List.length ips < 2)%nat ->
    AddRun contID netns netConf ifName args
      [EvNewUUID contID (Ok cid); EvLoadNet netConf (Ok conf);
       EvAllocPtP cid netConf ifName args (Ok ips)]
      (Panic "runtime error: index out of range") []
| AR_enter_fails cid conf hostIP contIP more e :
    AddRun contID netns netConf ifName args
      [EvNewUUID contID (Ok cid); EvLoadNet netConf (Ok conf);
       EvAllocPtP cid netConf ifName args (Ok (hostIP :: contIP :: more));
       EvEnterNS netns (Failed e)]
      (Throw e) []
| AR_inside_fails cid conf hostIP contIP more hostNS evs e r :
    CallbackRun contID ifName conf hostIP contIP hostNS evs (Throw e) ->
    AddRun contID netns netConf ifName args
      ([EvNewUUID contID (Ok cid); EvLoadNet netConf (Ok conf);
        EvAllocPtP cid netConf ifName args (Ok (hostIP :: contIP :: more));
        EvEnterNS netns (Ok hostNS)]
       ++ evs ++ [EvRestoreNS hostNS r])
      (after_restore (Throw e) r) []
| AR_restore_fails cid conf hostIP contIP more hostNS evs names e :
    CallbackRun contID ifName conf hostIP contIP hostNS evs (Val names) ->
    AddRun contID netns netConf ifName args
      ([EvNewUUID contID (Ok cid); EvLoadNet netConf (Ok conf);
        EvAllocPtP cid netConf ifName args (Ok (hostIP :: contIP :: more));
        EvEnterNS netns (Ok hostNS)]
       ++ evs ++ [EvRestoreNS hostNS (Failed e)])
      (Throw e) []
| AR_host_fails cid conf hostIP contIP more hostNS evs names hevs e :
    CallbackRun contID ifName conf hostIP contIP hostNS evs (Val names) ->
    HostRun hostIP (fst names) hevs (Throw e) ->
    AddRun contID netns netConf ifName args
      ([EvNewUUID contID (Ok cid); EvLoadNet netConf (Ok conf);
        EvAllocPtP cid netConf ifName args (Ok (hostIP :: contIP :: more));
        EvEnterNS netns (Ok hostNS)]
       ++ evs ++ [EvRestoreNS hostNS (Ok tt)] ++ hevs)
      (Throw e) []
| AR_done cid conf hostIP contIP more hostNS evs names hevs :
    CallbackRun contID ifName conf hostIP contIP hostNS evs (Val names) ->
    HostRun hostIP (fst names) hevs (Val tt) ->
    AddRun contID netns netConf ifName args
      ([EvNewUUID contID (Ok cid); EvLoadNet netConf (Ok conf);
        EvAllocPtP cid netConf ifName args (Ok (hostIP :: contIP :: more));
        EvEnterNS netns (Ok hostNS)]
       ++ evs ++ [EvRestoreNS hostNS (Ok tt)] ++ hevs)
      (Val tt) [snd names].

(** A run from [w] to [w'] that made the calls [tevs] and touched
    neither the lock nor the output streams. *)
Definition stepped (w w' : World K) (tevs : list (thread * event)) : Prop :=
  trace w' = trace w ++ tevs /\ locked w' = locked w /\
  stdout w' = stdout w /\ stderr w' = stderr w.

(** A run that also wrote [out] to the standard output. *)
Definition printed (w w' : World K) (tevs : list (thread * event))
    (out : list string) : Prop :=
  trace w' = trace w ++ tevs /\ locked w' = locked w /\
  stdout w' = stdout w ++ out /\ stderr w' = stderr w.

(** A run that left the lock as it was and, when the goroutine was
    locked to a thread, made all its calls on that thread, none of
    them [LockOSThread]. *)
Definition pinned_run (w w' : World K) : Prop :=
  locked w' = locked w /\
  exists tevs,
    trace w' = trace w ++ tevs /\
    forall t, locked w = Some t ->
              Forall (fun te => fst te = t /\ is_lock (snd te) = false) tevs.

Definition pins {A} (m : M K A) : Prop :=
  forall w w' o, m w = (w', o) -> pinned_run w w'.

End Runs.

(** ** The [run] command of rkt: [volumeMap], [findImages], [runRun] *)

(** [strings.Split(s, sep)] for a separator of one character. *)
Fixpoint strings_Split (sep : ascii) (s : string) : list string :=
  match s with
  | EmptyString => [EmptyString]
  | String c rest =>
      match strings_Split sep rest with
      | [] => [String c EmptyString]
      | f :: fs =>
          if Ascii.eqb c sep then EmptyString :: f :: fs
          else String c f :: fs
      end
  end.

(** Whether the character occurs in the string. *)
Fixpoint string_mem (c : ascii) (s : string) : bool :=
  match s with
  | EmptyString => false
  | String c' rest => Ascii.eqb c' c || string_mem c rest
  end.

(** How often the character occurs in the string. *)
Fixpoint string_count (c : ascii) (s : string) : nat :=
  match s with
  | EmptyString => 0
  | String c' rest =>
      (if Ascii.eqb c' c then 1 else 0) + string_count c rest
  end.

(** *** [volumeMap] *)

(** [map[string]string]: the entries, with no key twice.  The order of
    the list is the order of insertion; Go gives no order.  [init]
    makes [flagVolumes] an empty map, so [Set] never meets a nil
    map. *)
Definition volumeMap := list (string * string).

(** The lookup of [key] in the map, with its [ok]. *)
Fixpoint vm_get (vm : volumeMap) (key : string) : option string :=
  match vm with
  | [] => None
  | (k, v) :: rest => if String.eqb k key then Some v else vm_get rest key
  end.

(** The method [Set] of [volumeMap]; [Quote] is [strconv.Quote], for
    [%q]. *)
Definition volumeMap_Set (Quote : string -> string) (vm : volumeMap)
    (s : string) : volumeMap * res unit :=
  let elems := strings_Split ":" s in
  if negb (Nat.eqb (List.length elems) 2)
  then (vm, Failed (errorString "volume must be of form key:path"))
  else
    let key := nth 0 elems EmptyString in
    match vm_get vm key with
    | Some _ =>
        (vm, Failed (errorString
                       ("got multiple flags for volume " ++ Quote key)%string))
    | None => (vm ++ [(key, nth 1 elems EmptyString)], Ok tt)
    end.

(** The text [String] builds when the [range] visits the entries in
    the order [entries]. *)
Definition volumeMap_render (entries : list (string * string)) : string :=
  String.concat ","
    (map (fun kv => (fst kv ++ ":" ++ snd kv)%string) entries).

(** The method [String] of [volumeMap]: Go visits a map in an unspecified
    order, so the method may return the rendering of any order of the
    entries. *)
Definition volumeMap_String (vm : volumeMap) (s : string) : Prop :=
  exists order, Permutation order vm /\ s = volumeMap_render order.

(** The flags of [--volume], applied in turn as package [flag] does,
    stopping at the first error. *)
Fixpoint volumeMap_Set_all (Quote : string -> string) (vm : volumeMap)
    (flags : list string) : volumeMap * res unit :=
  match flags with
  | [] => (vm, Ok tt)
  | s :: rest =>
      match volumeMap_Set Quote vm s with
      | (vm', Ok _) => volumeMap_Set_all Quote vm' rest
      | (vm', Failed e) => (vm', Failed e)
      end
  end.

(** *** The state and the collaborators of [run] *)

Section Rkt.

(** The state of the collaborators (file system, image store,
    network), the hashes of package [types], the handles of the image
    store and of the keystore. *)
Variables (S H DS KS : Type).

(** The flags [runRun] reads: [globalFlags.Dir], [globalFlags.Debug]
    and the flags of the command. *)
Record Globals := mkGlobals {
  globalFlags_Dir : string;
  globalFlags_Debug : bool;
  flagStage1Init : string;
  flagStage1Rootfs : string;
  flagVolumes : volumeMap;
  flagPrivateNet : bool
}.

(** [stage0.Config], as [runRun] fills it. *)
Record Config := mkConfig {
  Store : DS;
  ContainersDir : string;
  Debug : bool;
  Stage1Init : string;
  Stage1Rootfs : string;
  Images : list H;
  Volumes : volumeMap;
  PrivateNet : bool
}.

(** The calls [findImages] and [runRun] make, with what they
    returned. *)
Inductive rkt_event :=
| RkResolveKey (img : string) (r : res string)
| RkOpen (path : string) (r : res File)
| RkWriteACI (file : File) (r : res string)
| RkClose (file : File)
| RkFetchImage (img : string) (r : res string)
| RkTempDir (dir prefix : string) (r : res string)
| RkNewStore (dir : string)
| RkSetup (cfg : Config) (r : res string)
| RkRun (cfg : Config) (cdir : string).

Record RktState := mkRkt {
  ext : S;
  rlog : list rkt_event;   (* calls made so far, oldest first *)
  globals : Globals
}.

Record RktDeps := mkRktDeps {
  (** [syscall.Errno.Error] *)
  rkt_Errno_Error : Z -> string;
  (** [types.NewHash] *)
  NewHash : string -> res H;
  (** the methods [ResolveKey] and [WriteACI] of [cas.Store] *)
  ResolveKey : DS -> string -> S -> S * res string;
  WriteACI : DS -> File -> S -> S * res string;
  (** [os.Open] and the method [Close] of [os.File] *)
  os_Open : string -> S -> S * res File;
  file_Close : File -> S -> S * res unit;
  (** [fetchImage], of package [main] *)
  fetchImage : string -> DS -> KS -> S -> S * res string;
  (** [ioutil.TempDir] *)
  TempDir : string -> string -> S -> S * res string;
  (** [cas.NewStore] *)
  NewStore : string -> S -> S * DS;
  (** [getKeystore] and [containersDir], of package [main], which read
      the flags *)
  getKeystore : Globals -> KS;
  containersDir : Globals -> string;
  (** [stage0.Setup] *)
  stage0_Setup : Config -> S -> S * res string;
  (** [stage0.Run], which replaces the process: [Some c] when it did
      and the process ended with status [c], [None] if it returns *)
  stage0_Run : Config -> string -> S -> S * option Z
}.

Variable R : RktDeps.

Local Abbreviation M := (M RktState).

Definition rkt_Error (err : error) : string :=
  Error_text (rkt_Errno_Error R) err.

(** A collaborator call that returns [(T, error)]: run it on the
    collaborators' state and log it with its result. *)
Definition rcall {A} (ev : res A -> rkt_event) (f : S -> S * res A) : M A :=
  fun w =>
    let (s', r) := f (ext (kern w)) in
    (mkWorld (mkRkt s' (rlog (kern w) ++ [ev r]) (globals (kern w)))
             (trace w) (locked w) (stdout w) (stderr w),
     lift r).

(** A collaborator call that returns a plain value. *)
Definition rcall_val {A} (ev : A -> rkt_event) (f : S -> S * A) : M A :=
  fun w =>
    let (s', a) := f (ext (kern w)) in
    (mkWorld (mkRkt s' (rlog (kern w) ++ [ev a]) (globals (kern w)))
             (trace w) (locked w) (stdout w) (stderr w),
     Val a).

(** [x, err := f(...)] with the error kept as a value. *)
Definition attempt {A} (m : M A) : M (res A) :=
  fun w =>
    match m w with
    | (w1, Val a) => (w1, Val (Ok a))
    | (w1, Throw e) => (w1, Val (Failed e))
    | (w1, Panic p) => (w1, Panic p)
    | (w1, Exit c) => (w1, Exit c)
    end.

(** [fmt.Fprintf(os.Stderr, ...)], after formatting. *)
Definition fmt_Fprint_Stderr (s : string) : M unit :=
  fun w => (mkWorld (kern w) (trace w) (locked w) (stdout w) (stderr w ++ [s]),
            Val tt).

Definition get_globals : M Globals :=
  fun w => (w, Val (globals (kern w))).

(** [globalFlags.Dir = dir]. *)
Definition set_Dir (dir : string) : M unit :=
  fun w =>
    let g := globals (kern w) in
    (mkWorld (mkRkt (ext (kern w)) (rlog (kern w))
                    (mkGlobals dir (globalFlags_Debug g) (flagStage1Init g)
                               (flagStage1Rootfs g) (flagVolumes g)
                               (flagPrivateNet g)))
             (trace w) (locked w) (stdout w) (stderr w),
     Val tt).

(** *** [findImages] *)

(** [h, err := types.NewHash(key); if err != nil { panic(err) }]. *)
Definition hash_or_panic (key : string) : M H :=
  match NewHash R key with
  | Ok h => ret h
  | Failed err => panic (rkt_Error err)
  end.

(** The body of the loop of [findImages], for the image [img]: the
    value is what the loop stores in [out[i]]. *)
Definition findImages_one (ds : DS) (ks : KS) (img : string) : M H :=
  match NewHash R img with
  | Ok _ =>
      (* a valid hash: let it pass through *)
      fullKey <- rethrow (rcall (RkResolveKey img) (ResolveKey R ds img))
                   (fun err => errorString
                      ("could not resolve key: " ++ rkt_Error err)%string) ;;
      hash_or_panic fullKey
  | Failed _ =>
      (* import the local file if it exists *)
      opened <- attempt (rcall (RkOpen img) (os_Open R img)) ;;
      match opened with
      | Ok file =>
          written <- attempt (rcall (RkWriteACI file) (WriteACI R ds file)) ;;
          rcall_val (fun _ => RkClose file) (file_Close R file) ;;
          match written with
          | Failed err =>
              throw (errorString (img ++ ": " ++ rkt_Error err)%string)
          | Ok key => hash_or_panic key
          end
      | Failed _ =>
          key <- rcall (RkFetchImage img) (fetchImage R img ds ks) ;;
          hash_or_panic key
      end
  end.

(** [findImages]: [out] has an element per argument, filled in the
    order of the arguments; an error returns no list. *)
Fixpoint findImages (args : list string) (ds : DS) (ks : KS) : M (list H) :=
  match args with
  | [] => ret []
  | img :: rest =>
      h <- findImages_one ds ks img ;;
      out <- findImages rest ds ks ;;
      ret (h :: out)
  end.

(** *** [runRun] *)

Definition newline : string := String (ascii_of_nat 10) EmptyString.

(** Lines 115 to 123: with [globalFlags.Dir] unset, a temporary
    directory becomes the directory of the store; [Some code] when
    [runRun] returns [code] here. *)
Definition runRun_dir : M (option Z) :=
  g <- get_globals ;;
  if String.eqb (globalFlags_Dir g) EmptyString
  then
    log_Print "dir unset - using temporary directory" ;;
    made <- attempt (rcall (RkTempDir EmptyString "rkt")
                           (TempDir R EmptyString "rkt")) ;;
    match made with
    | Ok dir => set_Dir dir ;; ret None
    | Failed err =>
        set_Dir EmptyString ;;
        fmt_Fprint_Stderr
          ("error creating temporary directory: "
           ++ rkt_Error err ++ newline)%string ;;
        ret (Some 1%Z)
    end
  else ret None.

(** Lines 125 to 149: the store, the images, [stage0]. *)
Definition runRun_stage0 (args : list string) : M Z :=
  g <- get_globals ;;
  ds <- rcall_val (fun _ => RkNewStore (globalFlags_Dir g))
                  (NewStore R (globalFlags_Dir g)) ;;
  let ks := getKeystore R g in
  found <- attempt (findImages args ds ks) ;;
  match found with
  | Failed err =>
      fmt_Fprint_Stderr (rkt_Error err ++ newline)%string ;;
      ret 1%Z
  | Ok imgs =>
      let cfg := mkConfig ds (containersDir R g) (globalFlags_Debug g)
                          (flagStage1Init g) (flagStage1Rootfs g)
                          imgs (flagVolumes g) (flagPrivateNet g) in
      set <- attempt (rcall (RkSetup cfg) (stage0_Setup R cfg)) ;;
      match set with
      | Failed err =>
          fmt_Fprint_Stderr
            ("run: error setting up stage0: " ++ rkt_Error err
             ++ newline)%string ;;
          ret 1%Z
      | Ok cdir =>
          (* execs, never returns *)
          gone <- rcall_val (fun _ => RkRun cfg cdir)
                            (stage0_Run R cfg cdir) ;;
          match gone with
          | Some code => os_Exit code
          | None => ret 1%Z
          end
      end
  end.

Definition runRun (args : list string) : M Z :=
  if Nat.ltb (List.length args) 1
  then
    fmt_Fprint_Stderr ("run: Must provide at least one image" ++ newline)%string ;;
    ret 1%Z
  else
    stop <- runRun_dir ;;
    match stop with
    | Some code => ret code
    | None => runRun_stage0 args
    end.

(** The calls made between two worlds of one run. *)
Definition rcalls (w w' : World RktState) : list rkt_event :=
  skipn (List.length (rlog (kern w))) (rlog (kern w')).


(** *** The runs of [findImages], call by call *)

(** What [hash_or_panic] makes of a key. *)
Definition hashed (key : string) : outcome H :=
  match NewHash R key with
  | Ok h => Val h
  | Failed err => Panic (rkt_Error err)
  end.

(** The calls and the outcome of the loop body for [img]. *)
Inductive ImageRun (img : string) : list rkt_event -> outcome H -> Prop :=
| IR_resolve_fails h e :
    NewHash R img = Ok h ->
    ImageRun img [RkResolveKey img (Failed e)]
             (Throw (errorString
                       ("could not resolve key: " ++ rkt_Error e)%string))
| IR_resolved h key :
    NewHash R img = Ok h ->
    ImageRun img [RkResolveKey img (Ok key)] (hashed key)
| IR_import_fails e0 file e :
    NewHash R img = Failed e0 ->
    ImageRun img [RkOpen img (Ok file); RkWriteACI file (Failed e);
                  RkClose file]
             (Throw (errorString (img ++ ": " ++ rkt_Error e)%string))
| IR_imported e0 file key :
    NewHash R img = Failed e0 ->
    ImageRun img [RkOpen img (Ok file); RkWriteACI file (Ok key);
                  RkClose file]
             (hashed key)
| IR_fetch_fails e0 e1 e :
    NewHash R img = Failed e0 ->
    ImageRun img [RkOpen img (Failed e1); RkFetchImage img (Failed e)]
             (Throw e)
| IR_fetched e0 e1 key :
    NewHash R img = Failed e0 ->
    ImageRun img [RkOpen img (Failed e1); RkFetchImage img (Ok key)]
             (hashed key).

(** The calls and the outcome of [findImages]. *)
Inductive ImagesRun : list string -> list rkt_event -> outcome (list H) -> Prop :=
| IsR_done : ImagesRun [] [] (Val [])
| IsR_error img rest evs e :
    ImageRun img evs (Throw e) ->
    ImagesRun (img :: rest) evs (Throw e)
| IsR_panic img rest evs p :
    ImageRun img evs (Panic p) ->
    ImagesRun (img :: rest) evs (Panic p)
| IsR_next img rest evs h evs' o :
    ImageRun img evs (Val h) ->
    ImagesRun rest evs' o ->
    ImagesRun (img :: rest) (evs ++ evs')
              (match o with
               | Val out => Val (h :: out)
               | Throw e => Throw e
               | Panic p => Panic p
               | Exit c => Exit c
               end).

(** *** The runs of [runRun], call by call *)

(** The flags with [globalFlags.Dir] set to [dir]. *)
Definition with_Dir (g : Globals) (dir : string) : Globals :=
  mkGlobals dir (globalFlags_Debug g) (flagStage1Init g) (flagStage1Rootfs g)
            (flagVolumes g) (flagPrivateNet g).

(** The configuration [runRun] hands to [stage0]. *)
Definition run_config (g : Globals) (ds : DS) (imgs : list H) : Config :=
  mkConfig ds (containersDir R g) (globalFlags_Debug g) (flagStage1Init g)
           (flagStage1Rootfs g) imgs (flagVolumes g) (flagPrivateNet g).

(** How [runRun] settles the directory of the store: the calls, the
    flags afterwards and the lines logged. *)
Inductive DirStep (g : Globals)
  : list rkt_event -> Globals -> list string -> Prop :=
| DS_set :
    globalFlags_Dir g <> EmptyString ->
    DirStep g [] g []
| DS_temp dir :
    globalFlags_Dir g = EmptyString ->
    DirStep g [RkTempDir EmptyString "rkt" (Ok dir)] (with_Dir g dir)
            ["dir unset - using temporary directory"].

(** The calls of [runRun], the flags it leaves, the lines it writes
    to the standard error and its outcome. *)
Inductive RunRun (args : list string) (g : Globals)
  : list rkt_event -> Globals -> list string -> outcome Z -> Prop :=
| RR_no_args :
    args = [] ->
    RunRun args g [] g
           [("run: Must provide at least one image" ++ newline)%string]
           (Val 1%Z)
| RR_temp_fails e :
    args <> [] -> globalFlags_Dir g = EmptyString ->
    RunRun args g [RkTempDir EmptyString "rkt" (Failed e)]
           (with_Dir g EmptyString)
           ["dir unset - using temporary directory";
            ("error creating temporary directory: " ++ rkt_Error e
             ++ newline)%string]
           (Val 1%Z)
| RR_images_fail pre g1 errs fevs e :
    args <> [] -> DirStep g pre g1 errs ->
    ImagesRun args fevs (Throw e) ->
    RunRun args g (pre ++ RkNewStore (globalFlags_Dir g1) :: fevs) g1
           (errs ++ [(rkt_Error e ++ newline)%string])
           (Val 1%Z)
| RR_images_panic pre g1 errs fevs p :
    args <> [] -> DirStep g pre g1 errs ->
    ImagesRun args fevs (Panic p) ->
    RunRun args g (pre ++ RkNewStore (globalFlags_Dir g1) :: fevs) g1 errs
           (Panic p)
| RR_setup_fails pre g1 errs fevs ds imgs e :
    args <> [] -> DirStep g pre g1 errs ->
    ImagesRun args fevs (Val imgs) ->
    RunRun args g
           (pre ++ RkNewStore (globalFlags_Dir g1) :: fevs
                ++ [RkSetup (run_config g1 ds imgs) (Failed e)]) g1
           (errs ++ [("run: error setting up stage0: " ++ rkt_Error e
                      ++ newline)%string])
           (Val 1%Z)
| RR_replaced pre g1 errs fevs ds imgs cdir c :
    args <> [] -> DirStep g pre g1 errs ->
    ImagesRun args fevs (Val imgs) ->
    RunRun args g
           (pre ++ RkNewStore (globalFlags_Dir g1) :: fevs
                ++ [RkSetup (run_config g1 ds imgs) (Ok cdir);
                    RkRun (run_config g1 ds imgs) cdir]) g1 errs
           (Exit c)
| RR_returned pre g1 errs fevs ds imgs cdir :
    args <> [] -> DirStep g pre g1 errs ->
    ImagesRun args fevs (Val imgs) ->
    RunRun args g
           (pre ++ RkNewStore (globalFlags_Dir g1) :: fevs
                ++ [RkSetup (run_config g1 ds imgs) (Ok cdir);
                    RkRun (run_config g1 ds imgs) cdir]) g1 errs
           (Val 1%Z).

(** A run from [w] to [w'] that made the calls [evs] and touched
    nothing but the collaborators' state. *)
Definition rstepped (w w' : World RktState) (evs : list rkt_event) : Prop :=
  rlog (kern w') = rlog (kern w) ++ evs /\
  globals (kern w') = globals (kern w) /\
  trace w' = trace w /\ locked w' = locked w /\
  stdout w' = stdout w /\ stderr w' = stderr w.

End Rkt.

Arguments RkResolveKey {H DS} img r.
Arguments RkOpen {H DS} path r.
Arguments RkWriteACI {H DS} file r.
Arguments RkClose {H DS} file.
Arguments RkFetchImage {H DS} img r.
Arguments RkTempDir {H DS} dir prefix r.
Arguments RkNewStore {H DS} dir.
Arguments RkSetup {H DS} cfg r.
Arguments RkRun {H DS} cfg cdir.

(** The key the store or the network gave for [img], as the calls
    [evs] show it. *)
Definition key_of {H DS} (evs : list (rkt_event H DS)) (img key : string)
  : Prop :=
  In (RkResolveKey img (Ok key)) evs \/
  (exists file, In (RkOpen img (Ok file)) evs /\
                In (RkWriteACI file (Ok key)) evs) \/
  In (RkFetchImage img (Ok key)) evs.

(** A key some call returned. *)
Definition returned_key {H DS} (evs : list (rkt_event H DS)) (key : string)
  : Prop :=
  (exists img, In (RkResolveKey img (Ok key)) evs) \/
  (exists file, In (RkWriteACI file (Ok key)) evs) \/
  (exists img, In (RkFetchImage img (Ok key)) evs).

(** A file that was opened, and a file that was closed. *)
Definition opens {H DS} (ev : rkt_event H DS) : bool :=
  match ev with
  | RkOpen _ (Ok _) => true
  | _ => false
  end.

Definition closes {H DS} (ev : rkt_event H DS) : bool :=
  match ev with
  | RkClose _ => true
  | _ => false
  end.




(** A failure that makes [runRun] give up: no temporary directory,
    or an image that was not found. *)
Definition fatal {H DS} (ev : rkt_event H DS) : bool :=
  match ev with
  | RkTempDir _ _ (Failed _) => true
  | RkResolveKey _ (Failed _) => true
  | RkWriteACI _ (Failed _) => true
  | RkFetchImage _ (Failed _) => true
  | _ => false
  end.

(** A call into package [stage0]. *)
Definition stage0_call {H DS} (ev : rkt_event H DS) : bool :=
  match ev with
  | RkSetup _ _ => true
  | RkRun _ _ => true
  | _ => false
  end.

(** ** A simulated host for [run]

    Files on disk, an image store, images that a fetch can reach, and
    a [stage0] that sets a container up and replaces the process.
    Hashes and keys are texts, a hash is valid when it starts with
    [sha512-]; a store handle is its directory. *)

Module SimRkt.

Local Open Scope string_scope.

Record Host := mkHost {
  disk : list (string * string);    (* path, key of the image in the file *)
  keys : list string;               (* keys in the store *)
  remote : list (string * string);  (* name, key of the image fetched *)
  tmpdir : res string;              (* what [ioutil.TempDir] gives *)
  setup : res string;               (* what [stage0.Setup] gives *)
  exec : option Z;                  (* the status [stage0.Run] ends with *)
  nextfd : Z
}.

Fixpoint assoc (l : list (string * string)) (k : string) : option string :=
  match l with
  | [] => None
  | (k', v) :: rest => if String.eqb k' k then Some v else assoc rest k
  end.

Definition add_key (key : string) (h : Host) : Host :=
  mkHost (disk h) (keys h ++ [key]) (remote h) (tmpdir h) (setup h) (exec h)
         (nextfd h).

Definition newHash (s : string) : res string :=
  if String.prefix "sha512-" s && Nat.ltb 7 (String.length s)
  then Ok s
  else Failed (errorString ("malformed hash: " ++ s)).

Definition resolveKey (ds img : string) (h : Host) : Host * res string :=
  match find (String.prefix img) (keys h) with
  | Some key => (h, Ok key)
  | None => (h, Failed (errorString "no keys found"))
  end.

Definition open (path : string) (h : Host) : Host * res File :=
  match assoc (disk h) path with
  | Some _ =>
      (mkHost (disk h) (keys h) (remote h) (tmpdir h) (setup h) (exec h)
              (nextfd h + 1),
       Ok (mkFile (nextfd h) path))
  | None => (h, Failed (PathError "open" path (Errno 2)))
  end.

Definition writeACI (ds : string) (file : File) (h : Host)
  : Host * res string :=
  match assoc (disk h) (FileName file) with
  | Some key =>
      if String.prefix "sha512-" key
      then (add_key key h, Ok key)
      else (h, Failed (errorString "error reading tarball"))
  | None => (h, Failed (Errno 22))
  end.

Definition fetch (img ds : string) (ks : unit) (h : Host)
  : Host * res string :=
  match assoc (remote h) img with
  | Some key => (add_key key h, Ok key)
  | None => (h, Failed (errorString ("unable to discover " ++ img)))
  end.

Definition deps : RktDeps Host string string unit :=
  mkRktDeps Sim.errno_text
            newHash
            resolveKey
            writeACI
            open
            (fun _ h => (h, Ok tt))
            fetch
            (fun _ _ h => (h, tmpdir h))
            (fun dir h => (h, dir))
            (fun _ => tt)
            (fun g => globalFlags_Dir g ++ "/containers")
            (fun _ h => (h, setup h))
            (fun _ _ h => (h, exec h)).

(** A host with an image in a file, one in the store, one that can
    be fetched, and a fetch that returns a key that is no hash. *)
Definition host : Host :=
  mkHost [("app.aci", "sha512-aaaaaaaa"); ("notes.txt", "plain")]
         ["sha512-0123456789abcdef"]
         [("example.com/etcd", "sha512-bbbbbbbb"); ("example.com/odd", "bogus")]
         (Ok "/tmp/rkt042")
         (Ok "/var/lib/rkt/containers/c1")
         (Some 0%Z)
         3.

(** The same host where no temporary directory can be made. *)
Definition readonly : Host :=
  mkHost (disk host) (keys host) (remote host) (Failed (Errno 1))
         (setup host) (exec host) (nextfd host).

(** The flags, with [--dir] given or not. *)
Definition flags (dir : string) : Globals :=
  mkGlobals dir true "/usr/lib/rkt/init" EmptyString
            [("data", "/srv/data")] true.

Definition world (h : Host) (dir : string)
  : World (RktState Host string string) :=
  mkWorld (mkRkt h [] (flags dir)) [] None [] [].

End SimRkt.
(** * Properties *)

Section Facts.

Variable K : Type.
Variable D : Deps K.

Local Abbreviation World := (World K).

(** ** Runs and the call log *)

Lemma stepped_refl (w : World) : stepped w w [].
Proof. unfold stepped. rewrite app_nil_r. auto. Qed.

Lemma stepped_trans (w w1 w2 : World) a b :
  stepped w w1 a -> stepped w1 w2 b -> stepped w w2 (a ++ b).
Proof.
  unfold stepped. intros (Ht & Hl & Ho & He) (Ht' & Hl' & Ho' & He').
  rewrite Ht', Ht, app_assoc. repeat split; congruence.
Qed.

Lemma emitted_app (w w' : World) tevs :
  trace w' = trace w ++ tevs -> emitted w w' = tevs.
Proof.
  intros H. unfold emitted. rewrite H.
  rewrite skipn_app, skipn_all, Nat.sub_diag. reflexivity.
Qed.

Lemma stepped_calls (w w' : World) tevs :
  stepped w w' tevs -> calls w w' = map snd tevs.
Proof.
  intros (H & _). unfold calls. rewrite (emitted_app _ _ _ H). reflexivity.
Qed.

Lemma call_run {A} (ev : res A -> event) (f : K -> K * res A)
    (w w' : World) (o : outcome A) :
  call (sched D) ev f w = (w', o) ->
  exists r, f (kern w) = (kern w', r) /\ o = lift r /\
            stepped w w' [(thread_now (sched D) w, ev r)].
Proof.
  unfold call. destruct (f (kern w)) as [k r]. intros H.
  inversion H; subst; clear H. exists r. unfold stepped. simpl.
  repeat split; reflexivity.
Qed.

(** ** The route loop *)

Lemma cmdAdd_routes_run gw dev routes :
  forall (w w' : World) o,
    cmdAdd_routes D gw dev routes w = (w', o) ->
    exists tevs, stepped w w' tevs /\
                 RouteLoop D gw dev routes (map snd tevs) o.
Proof.
  induction routes as [|r rest IH]; intros w w' o H; simpl in H.
  - inversion H; subst. exists []. split; [apply stepped_refl | constructor].
  - unfold bind, rethrow in H.
    destruct (call (sched D) (EvParseCIDR r) _ w) as [w1 o1] eqn:E1.
    apply call_run in E1. destruct E1 as (r1 & Hf & -> & S1).
    inversion Hf as [[Hk Hr]]. 
    destruct r1 as [dst|e]; simpl in H.
    + destruct (call (sched D) (EvAddRoute dst gw dev) _ w1) as [w2 o2] eqn:E2.
      apply call_run in E2. destruct E2 as (r2 & Hf2 & -> & S2).
      destruct r2 as [[]|e]; simpl in H.
      * apply IH in H. destruct H as (tevs & S3 & HL).
        eexists. split.
        { eapply stepped_trans; [exact S1|].
          eapply stepped_trans; [exact S2| exact S3]. }
        simpl. apply RL_next; auto.
      * inversion H; subst. eexists. split.
        { eapply stepped_trans; [exact S1| exact S2]. }
        simpl. apply RL_add_fails; auto.
    + inversion H; subst. eexists. split; [exact S1|].
      simpl. apply RL_parse_fails; auto.
Qed.

(** One collaborator call of a run, taken out of its equation. *)
Ltac run_call H :=
  match type of H with
  | context [call ?s ?ev ?f ?w] =>
      let E := fresh "E" in
      let w1 := fresh "w" in
      let o1 := fresh "o" in
      let r := fresh "r" in
      let Hf := fresh "Hf" in
      let S := fresh "S" in
      destruct (call s ev f w) as [w1 o1] eqn:E;
      apply call_run in E; destruct E as (r & Hf & -> & S);
      destruct r; simpl in H
  end.

(** Close a goal [stepped w w' _] from the steps in the context. *)
Ltac chain :=
  solve [ repeat match goal with
                 | S : stepped ?w ?w1 _ |- stepped ?w _ _ =>
                     first [ exact S | eapply stepped_trans; [exact S|] ]
                 end;
          try apply stepped_refl ].

(** ** The namespace executor *)

Lemma WithNetNSPath_run {A} nspath (f : File -> M K A) (w w' : World) o :
  WithNetNSPath D nspath f w = (w', o) ->
  (exists e t, o = Throw e /\
               stepped w w' [(t, EvEnterNS nspath (Failed e))]) \/
  (exists hostNS t w1 w2 o2,
      stepped w w1 [(t, EvEnterNS nspath (Ok hostNS))] /\
      f hostNS w1 = (w2, o2) /\
      ((exists c, o2 = Exit c /\ w' = w2 /\ o = Exit c) \/
       (exists r t', (forall c, o2 <> Exit c) /\
                     stepped w2 w' [(t', EvRestoreNS hostNS r)] /\
                     o = after_restore o2 r))).
Proof.
  unfold WithNetNSPath. intros H. run_call H.
  - right. destruct (f a w0) as [w2 o2] eqn:Ef.
    exists a, (thread_now (sched D) w), w0, w2, o2.
    split; [exact S|]. split; [exact Ef|].
    destruct o2; try (inversion H; subst; left; eauto; fail);
      right; run_call H; inversion H; subst;
      eexists; eexists; (split; [discriminate|]); split; eauto.
  - left. inversion H; subst. eauto.
Qed.

Lemma RouteLoop_outcome gw dev routes evs o :
  RouteLoop D gw dev routes evs o -> o = Val tt \/ exists e, o = Throw e.
Proof. induction 1; eauto. Qed.

(** ** The callback of [cmdAdd] *)

Lemma cmdAdd_callback_run contID ifName conf hostIP contIP hostNS
    (w w' : World) o :
  cmdAdd_callback D contID ifName conf hostIP contIP hostNS w = (w', o) ->
  exists tevs, stepped w w' tevs /\
               CallbackRun D contID ifName conf hostIP contIP hostNS
                           (map snd tevs) o.
Proof.
  unfold cmdAdd_callback, bind. intros H. run_call H.
  - destruct a as [hostVeth contVeth].
    destruct (cmdAdd_routes D hostIP contVeth (Routes conf) w0)
      as [w1 o1] eqn:EL.
    apply cmdAdd_routes_run in EL. destruct EL as (tevs & S1 & HL).
    destruct o1; inversion H; subst; clear H.
    + destruct a. eexists. split; [chain|]. simpl. apply CB_done. exact HL.
    + eexists. split; [chain|]. simpl. apply CB_routes_fail. exact HL.
    + apply RouteLoop_outcome in HL. destruct HL as [|[? ?]]; discriminate.
    + apply RouteLoop_outcome in HL. destruct HL as [|[? ?]]; discriminate.
  - inversion H; subst. eexists. split; [chain|]. simpl. apply CB_setup_fails.
Qed.

(** ** [cmdAdd] *)

Lemma stepped_printed (w w' : World) tevs :
  stepped w w' tevs -> printed w w' tevs [].
Proof.
  unfold stepped, printed. rewrite app_nil_r. auto.
Qed.

Lemma AddRun_cast contID netns netConf ifName args evs evs' o out :
  AddRun D contID netns netConf ifName args evs o out ->
  evs = evs' ->
  AddRun D contID netns netConf ifName args evs' o out.
Proof. intros H <-. exact H. Qed.

(** Close a goal [AddRun .. evs o out] with the constructor [ctor]:
    first the equation of the call lists, then the premises. *)
Ltac add_run ctor side :=
  rewrite ?map_app; simpl; rewrite <- ?app_assoc;
  eapply AddRun_cast; [ ctor | ];
  [ .. | reflexivity ];
  side.

(** Close a leaf of [cmdAdd_run]: the steps in the context give the
    world. *)
Ltac leaf ctor side :=
  do 2 eexists;
  split; [ apply stepped_printed; chain | add_run ctor side ].

Lemma cmdAdd_run contID netns netConf ifName args (w w' : World) o :
  cmdAdd D contID netns netConf ifName args w = (w', o) ->
  exists tevs out,
    printed w w' tevs out /\
    AddRun D contID netns netConf ifName args (map snd tevs) o out.
Proof.
  unfold cmdAdd, bind, rethrow, try. intros H.
  run_call H;
    [| inversion H; subst; leaf ltac:(eapply AR_uuid_fails) idtac].
  run_call H;
    [| inversion H; subst; leaf ltac:(eapply AR_load_fails) idtac].
  run_call H;
    [| inversion H; subst; leaf ltac:(eapply AR_alloc_fails) idtac].
  rename a1 into ips.
  destruct ips as [|hostIP [|contIP more]]; simpl in H;
    try (inversion H; subst;
         leaf ltac:(eapply AR_alloc_short) ltac:(simpl; lia)).
  destruct (WithNetNSPath D netns _ w2) as [w3 o3] eqn:EN.
  apply WithNetNSPath_run in EN.
  destruct EN as [(e & t & -> & S2)
                 |(hostNS & t & w4 & w5 & o5 & S2 & Ef & Hrest)].
  { inversion H; subst. leaf ltac:(eapply AR_enter_fails) idtac. }
  apply cmdAdd_callback_run in Ef. destruct Ef as (cevs & S3 & HC).
  destruct Hrest as [(c & -> & _ & _)|(r & t' & _ & S4 & ->)];
    [inversion HC|].
  destruct o5 as [names|e|p|c]; try (inversion HC; fail).
  2:{ (* the callback failed *)
    assert (o = after_restore (Throw e) r) as ->
        by (destruct r; simpl in H; inversion H; reflexivity).
    assert (w' = w3) as -> by (destruct r; simpl in H; congruence).
    leaf ltac:(eapply AR_inside_fails) ltac:(exact HC). }
  destruct r as [[]|e]; simpl in H.
  2:{ inversion H; subst.
      leaf ltac:(eapply AR_restore_fails) ltac:(exact HC). }
  destruct names as [hostVethName contIPNet].
  run_call H.
  2:{ inversion H; subst.
      leaf ltac:(eapply AR_host_fails with (names := (hostVethName, contIPNet)))
           ltac:(first [exact HC | apply HR_lookup_fails]). }
  run_call H.
  2:{ inversion H; subst.
      leaf ltac:(eapply AR_host_fails with (names := (hostVethName, contIPNet)))
           ltac:(first [exact HC | apply HR_addr_fails]). }
  destruct a2.
  run_call H.
  - (* the host route was added *)
    unfold fmt_Print in H. inversion H; subst; clear H. destruct a2.
    assert (exists tevs, stepped w w8 tevs /\
              AddRun D contID netns netConf ifName args (map snd tevs)
                     (Val tt) [contIPNet]) as (tevs & (T & L & O & E) & R).
    { eexists. split; [chain|].
      add_run ltac:(eapply AR_done with (names := (hostVethName, contIPNet)))
              ltac:(first [exact HC | apply HR_done; discriminate]). }
    exists tevs, [contIPNet]. split; [|exact R].
    unfold printed; simpl. rewrite T, L, O, E. auto.
  - destruct (IsExist e) eqn:IE; simpl in H.
    + unfold fmt_Print in H. inversion H; subst; clear H.
      assert (exists tevs, stepped w w8 tevs /\
                AddRun D contID netns netConf ifName args (map snd tevs)
                       (Val tt) [contIPNet]) as (tevs & (T & L & O & E) & R).
      { eexists. split; [chain|].
        add_run ltac:(eapply AR_done with (names := (hostVethName, contIPNet)))
                ltac:(first [exact HC
                            | apply HR_done; intros e' [= <-]; exact IE]). }
      exists tevs, [contIPNet]. split; [|exact R].
      unfold printed; simpl. rewrite T, L, O, E. auto.
    + inversion H; subst; clear H.
      leaf ltac:(eapply AR_host_fails with (names := (hostVethName, contIPNet)))
           ltac:(first [exact HC | apply HR_route_fails; exact IE]).
Qed.

(** The run of [cmdAdd] read off the call log. *)
Lemma cmdAdd_calls contID netns netConf ifName args (w w' : World) o :
  cmdAdd D contID netns netConf ifName args w = (w', o) ->
  exists out,
    AddRun D contID netns netConf ifName args (calls w w') o out /\
    stdout w' = stdout w ++ out /\ stderr w' = stderr w /\
    locked w' = locked w.
Proof.
  intros H. apply cmdAdd_run in H.
  destruct H as (tevs & out & (T & L & O & E) & R).
  exists out. unfold calls. rewrite (emitted_app _ _ _ T). auto.
Qed.

(** ** What the route loop calls *)

Lemma RouteLoop_events gw dev routes evs o :
  RouteLoop D gw dev routes evs o ->
  forall ev, In ev evs ->
    (exists s r, ev = EvParseCIDR s r) \/
    (exists dst r, ev = EvAddRoute dst gw dev r).
Proof.
  induction 1; simpl; intros ev Hin;
    repeat match goal with
           | H : _ \/ _ |- _ => destruct H
           | H : False |- _ => destruct H
           end; subst; eauto.
Qed.

Lemma RouteLoop_done_well_formed gw dev routes evs :
  RouteLoop D gw dev routes evs (Val tt) ->
  forall r, In r routes -> malformed D r = false.
Proof.
  intros H. remember (Val tt) as o eqn:Ho.
  induction H; try discriminate; simpl; intros r0 Hin.
  - destruct Hin.
  - destruct Hin as [<-|Hin].
    + unfold malformed. rewrite H. reflexivity.
    + auto.
Qed.

Lemma route_attempts_app a b :
  route_attempts (a ++ b) = route_attempts a ++ route_attempts b.
Proof.
  induction a as [|ev a IH]; simpl; [reflexivity|].
  destruct ev; simpl; rewrite ?IH; reflexivity.
Qed.

(** The loop hands to [AddRoute] the destinations of the entries
    before the first malformed one, in order, or a prefix of them. *)
Lemma RouteLoop_attempts gw dev routes evs o :
  RouteLoop D gw dev routes evs o ->
  exists n, route_attempts evs
            = firstn n (destinations D (well_formed_prefix D routes)).
Proof.
  induction 1; simpl.
  - exists 0%nat. reflexivity.
  - exists 0%nat. reflexivity.
  - exists 1%nat. unfold malformed. rewrite H. simpl. rewrite H. reflexivity.
  - destruct IHRouteLoop as (n & IH). exists (S n).
    unfold malformed. rewrite H. simpl. rewrite H. simpl. rewrite IH.
    reflexivity.
Qed.

(** Take a run of [cmdAdd] apart, down to the route loop. *)
Ltac invert_run R :=
  inversion R; subst; clear R;
  repeat match goal with
         | H : CallbackRun _ _ _ _ _ _ _ _ _ |- _ =>
             inversion H; subst; clear H
         | H : HostRun _ _ _ _ _ |- _ => inversion H; subst; clear H
         | H : after_restore (Throw _) ?r = Val _ |- _ =>
             destruct r; discriminate H
         end.

(** Find which call of the run the event of [Hin] is. *)
Ltac locate Hin :=
  simpl in Hin; rewrite ?in_app_iff in Hin; simpl in Hin;
  repeat match goal with
         | H : _ \/ _ |- _ => destruct H
         | H : False |- _ => destruct H
         | H : In ?ev ?evs, L : RouteLoop _ _ _ _ ?evs _ |- _ =>
             let E := fresh "E" in
             solve [ destruct (RouteLoop_events L _ H)
                       as [(? & ? & E)|(? & ? & E)]; discriminate E ]
         | H : @eq event _ _ |- _ => first [discriminate H | inversion H; clear H]
         end; subst.

(** ** Malformed routes *)

(** Find an event in the list of calls of a run. *)
Ltac among :=
  simpl; rewrite ?in_app_iff; simpl;
  repeat first [ left; reflexivity | left; assumption | right ].

(** Refute [Only], which says that no call but a parse failed, with
    the failed call [ev] of the run. *)
Ltac refute_with Only ev :=
  let s := fresh "s" in
  let e := fresh "e" in
  let X := fresh "X" in
  destruct (Only ev) as (s & e & X);
  [ among | reflexivity | discriminate X ].

Ltac other_failure Only :=
  match type of Only with
  | context [EvAllocPtP ?a ?b ?c ?d (Failed ?e)] =>
      refute_with Only (EvAllocPtP a b c d (Failed e))
  | context [EvEnterNS ?a (Failed ?e)] =>
      refute_with Only (EvEnterNS a (Failed e))
  | context [EvSetupVeth ?a ?b ?c ?d (Failed ?e)] =>
      refute_with Only (EvSetupVeth a b c d (Failed e))
  | context [EvRestoreNS ?h (Failed ?e)] =>
      refute_with Only (EvRestoreNS h (Failed e))
  end.

(** The loop, when none of its calls fails but a parse: it ends at
    the first malformed entry with the error of that parse, having
    handed to [AddRoute] the destinations of all the entries before
    it. *)
Lemma RouteLoop_reaches_malformed gw dev routes evs o :
  RouteLoop D gw dev routes evs o ->
  (exists r, In r routes /\ malformed D r = true) ->
  (forall ev, In ev evs -> failed_call ev = true ->
              exists s e, ev = EvParseCIDR s (Failed e)) ->
  exists r e rest,
    routes = well_formed_prefix D routes ++ r :: rest /\
    ParseCIDR D r = Failed e /\
    o = Throw (parse_error D r e) /\
    In (EvParseCIDR r (Failed e)) evs /\
    route_attempts evs = destinations D (well_formed_prefix D routes).
Proof.
  induction 1 as [|r rest e P|r rest dst e P|r rest dst evs o P L IH];
    intros (bad & Hbad & Mbad) Only.
  - destruct Hbad.
  - exists r, e, rest. simpl. unfold malformed. rewrite P. simpl.
    split; [reflexivity|]. split; [reflexivity|]. split; [reflexivity|].
    split; [left; reflexivity|reflexivity].
  - destruct (Only (EvAddRoute dst gw dev (Failed e))) as (s & e' & X);
      [right; left; reflexivity | reflexivity | discriminate X].
  - destruct IH as (r' & e' & rest' & E & P' & Ho & Hin & A).
    + destruct Hbad as [<-|Hbad]; [|eauto].
      unfold malformed in Mbad. rewrite P in Mbad. discriminate Mbad.
    + intros ev Hin. apply Only. right. right. exact Hin.
    + exists r', e', rest'. simpl. unfold malformed. rewrite P. simpl.
      rewrite P, A.
      split; [f_equal; exact E|]. split; [exact P'|]. split; [exact Ho|].
      split; [right; right; exact Hin|reflexivity].
Qed.

(** C1, as amended: when the loaded configuration has a malformed
    route entry, [cmdAdd] fails, and the only destinations it has
    handed to [AddRoute] are those of entries before the first
    malformed one, in order; none when the first entry is the
    malformed one.  When no other call fails and the allocator gave
    its two addresses, [cmdAdd] fails with the route-parse error of
    the first malformed entry, and has handed to [AddRoute] the
    destinations of all the entries before it. *)
Theorem cmdAdd_malformed_route contID netns netConf ifName args
    (w w' : World) o conf :
  cmdAdd D contID netns netConf ifName args w = (w', o) ->
  In (EvLoadNet netConf (Ok conf)) (calls w w') ->
  (exists r, In r (Routes conf) /\ malformed D r = true) ->
  ((exists e, o = Throw e) \/ (exists p, o = Panic p)) /\
  (exists n, route_attempts (calls w w')
             = firstn n (destinations D (well_formed_prefix D (Routes conf)))) /\
  (forall r rest, Routes conf = r :: rest -> malformed D r = true ->
                  route_attempts (calls w w') = []) /\
  ((forall ev, In ev (calls w w') -> failed_call ev = true ->
               exists s e, ev = EvParseCIDR s (Failed e)) ->
   (forall p, o <> Panic p) ->
   exists r e rest,
     Routes conf = well_formed_prefix D (Routes conf) ++ r :: rest /\
     ParseCIDR D r = Failed e /\
     o = Throw (parse_error D r e) /\
     In (EvParseCIDR r (Failed e)) (calls w w') /\
     route_attempts (calls w w')
     = destinations D (well_formed_prefix D (Routes conf))).
Proof.
  intros H Hin (r & Hr & Hbad).
  apply cmdAdd_calls in H. destruct H as (out & R & _).
  assert (((exists e, o = Throw e) \/ (exists p, o = Panic p)) /\
          (exists n, route_attempts (calls w w')
             = firstn n (destinations D (well_formed_prefix D (Routes conf)))))
    as [Ho Hn].
  { invert_run R;
      match goal with E : _ = calls w w' |- _ => rewrite <- E in *; clear E end;
      locate Hin;
      try match goal with
          | L : RouteLoop _ _ _ (Routes _) _ (Val tt) |- _ =>
              rewrite (RouteLoop_done_well_formed L _ Hr) in Hbad; discriminate
          end;
      (split; [ first [ left; eexists; reflexivity
                      | right; eexists; reflexivity
                      | destruct r0; simpl; left; eexists; reflexivity ] |]);
      simpl; rewrite ?route_attempts_app; simpl; rewrite ?app_nil_r;
      try (exists 0%nat; reflexivity);
      match goal with
      | L : RouteLoop _ _ _ _ _ _ |- _ => exact (RouteLoop_attempts L)
      end. }
  split; [exact Ho|]. split; [exact Hn|]. split.
  { intros r1 rest Hroutes Hbad1. destruct Hn as (n & ->).
    rewrite Hroutes. simpl. rewrite Hbad1. simpl. apply firstn_nil. }
  intros Only NoPanic.
  invert_run R;
    match goal with E : _ = calls w w' |- _ => rewrite <- E in *; clear E end;
    locate Hin;
    try solve [exfalso; eapply NoPanic; reflexivity];
    try match goal with
        | L : RouteLoop _ _ _ (Routes _) _ (Val tt) |- _ =>
            rewrite (RouteLoop_done_well_formed L _ Hr) in Hbad; discriminate
        end.
  all: try solve [other_failure Only].
  all: match goal with
       | r : res unit |- _ => destruct r as [[]|er]
       end;
    try solve [other_failure Only].
  all: match goal with
       | L : RouteLoop _ _ _ _ ?evs (Throw _) |- _ =>
           let P := fresh "P" in
           assert (P := L); apply RouteLoop_reaches_malformed in P;
           [ destruct P as (r' & e' & rest' & E & P' & Ho & Hin' & A)
           | exists r; split; assumption
           | intros ev Hev; apply Only; among ]
       end.
  all: inversion Ho; subst; exists r', e', rest'.
  all: split; [exact E|]; split; [exact P'|]; split; [reflexivity|].
  all: split; [among|].
  all: simpl; rewrite route_attempts_app; simpl; rewrite app_nil_r; exact A.
Qed.



(** ** The payload of ADD *)

Lemma CIDRMask_31_32 : CIDRMask 31 32 = [255; 255; 255; 254]%Z.
Proof. reflexivity. Qed.

(** ** [cmdDel] *)

Lemma cmdDel_run contID netns netConf ifName args (w w' : World) o :
  cmdDel D contID netns netConf ifName args w = (w', o) ->
  exists tevs,
    stepped w w' tevs /\
    ((exists e, map snd tevs = [EvEnterNS netns (Failed e)] /\ o = Throw e) \/
     (exists hostNS r r',
         map snd tevs = [EvEnterNS netns (Ok hostNS);
                         EvDelLinkByName ifName r;
                         EvRestoreNS hostNS r'] /\
         o = after_restore (lift r) r')).
Proof.
  unfold cmdDel. intros H. apply WithNetNSPath_run in H.
  destruct H as [(e & t & -> & S)
                |(hostNS & t & w1 & w2 & o2 & S & Ef & Hrest)].
  - eexists. split; [exact S|]. left. exists e. split; reflexivity.
  - apply call_run in Ef. destruct Ef as (r & _ & -> & S1).
    destruct Hrest as [(c & Hc & _)|(r' & t' & _ & S2 & ->)].
    + destruct r; discriminate.
    + eexists. split; [chain|]. right. exists hostNS, r, r'.
      split; reflexivity.
Qed.

(** C3: a successful ADD writes to the standard output exactly the
    text of the network made of the container address (the second
    address of the allocator) and the 31-bit mask; DEL writes
    nothing to the standard output. *)
Theorem success_payload contID netns netConf ifName args (w w' : World) :
  (cmdAdd D contID netns netConf ifName args w = (w', Val tt) ->
   exists cid hostIP contIP more,
     In (EvAllocPtP cid netConf ifName args (Ok (hostIP :: contIP :: more)))
        (calls w w') /\
     stdout w' = stdout w
                 ++ [IPNet_String D (mkIPNet contIP [255; 255; 255; 254]%Z)]) /\
  (forall o, cmdDel D contID netns netConf ifName args w = (w', o) ->
             stdout w' = stdout w).
Proof.
  split.
  - intros H. apply cmdAdd_calls in H. destruct H as (out & R & O & _).
    invert_run R.
    exists cid, hostIP, contIP, more. split; [simpl; auto|].
    rewrite O. reflexivity.
  - intros o H. apply cmdDel_run in H.
    destruct H as (tevs & (_ & _ & O & _) & _). exact O.
Qed.

(** ** The host route *)

(** C4: when [AddHostRoute] fails with an error that [os.IsExist]
    recognises, [cmdAdd] returns no error; when it fails with any
    other error, [cmdAdd] returns an error. *)
Theorem cmdAdd_host_route_exists contID netns netConf ifName args
    (w w' : World) o dst gw dev e :
  cmdAdd D contID netns netConf ifName args w = (w', o) ->
  In (EvAddHostRoute dst gw dev (Failed e)) (calls w w') ->
  (IsExist e = true -> o = Val tt) /\
  (IsExist e = false -> o = Throw (host_route_error D e)).
Proof.
  intros H Hin. apply cmdAdd_calls in H. destruct H as (out & R & _).
  invert_run R;
    match goal with E : _ = calls w w' |- _ => rewrite <- E in *; clear E end;
    locate Hin.
  - split; [congruence | reflexivity].
  - split; [reflexivity|].
    match goal with
    | H : forall e, Failed ?x = Failed e -> _ |- _ =>
        rewrite (H x eq_refl); discriminate
    end.
Qed.

(** ** How errors are returned *)

Lemma RouteLoop_parse_failure gw dev routes evs o r e :
  RouteLoop D gw dev routes evs o ->
  In (EvParseCIDR r (Failed e)) evs ->
  o = Throw (parse_error D r e).
Proof.
  induction 1; simpl; intros Hin;
    repeat match goal with
           | H : _ \/ _ |- _ => destruct H
           | H : False |- _ => destruct H
           | H : @eq event _ _ |- _ =>
               first [discriminate H | inversion H; clear H]
           end; subst; auto.
Qed.

Lemma RouteLoop_add_failure gw dev routes evs o dst gw' dev' e :
  RouteLoop D gw dev routes evs o ->
  In (EvAddRoute dst gw' dev' (Failed e)) evs ->
  o = Throw (route_error D dst e).
Proof.
  induction 1; simpl; intros Hin;
    repeat match goal with
           | H : _ \/ _ |- _ => destruct H
           | H : False |- _ => destruct H
           | H : @eq event _ _ |- _ =>
               first [discriminate H | inversion H; clear H]
           end; subst; auto.
Qed.

(** Use what a failed call inside the loop says of the loop. *)
Ltac loop_failure :=
  match goal with
  | H : In (EvParseCIDR _ (Failed _)) ?evs,
    L : RouteLoop _ _ _ _ ?evs _ |- _ =>
      let P := fresh "P" in
      assert (P := L); eapply RouteLoop_parse_failure in P; [|exact H]
  | H : In (EvAddRoute _ _ _ (Failed _)) ?evs,
    L : RouteLoop _ _ _ _ ?evs _ |- _ =>
      let P := fresh "P" in
      assert (P := L); eapply RouteLoop_add_failure in P; [|exact H]
  end;
  try discriminate;
  repeat match goal with
         | H : Throw _ = Throw _ |- _ => inversion H; clear H
         end; subst.

(** Use what a run that ended well says of its host route. *)
Ltac tolerated :=
  match goal with
  | H : forall e, Failed ?x = Failed e -> IsExist e = true,
    N : IsExist ?x = false |- _ =>
      rewrite (H x eq_refl) in N; discriminate N
  end.

(** C7, as amended: the allocator's error is returned unchanged;
    each other failing step listed returns a new error whose text is
    a fixed description of the operation followed by the text of the
    underlying error.  The description carries the identifier for
    the configuration load (the quoted reference), the route parse
    (the quoted entry), the route installation (the quoted
    destination) and the link lookup (the quoted interface name);
    it carries none for the identity parse, the address assignment
    and the host route. *)
Theorem cmdAdd_error_wrapping contID netns netConf ifName args
    (w w' : World) o :
  cmdAdd D contID netns netConf ifName args w = (w', o) ->
  (forall cid e,
      In (EvAllocPtP cid netConf ifName args (Failed e)) (calls w w') ->
      o = Throw e) /\
  (forall e,
      In (EvNewUUID contID (Failed e)) (calls w w') ->
      o = Throw (errorString
                   ("error parsing ContainerID: " ++ Error D e)%string)) /\
  (forall e,
      In (EvLoadNet netConf (Failed e)) (calls w w') ->
      o = Throw (errorString
                   ("failed to load " ++ Quote D netConf ++ ": "
                    ++ Error D e)%string)) /\
  (forall r e hostNS,
      In (EvParseCIDR r (Failed e)) (calls w w') ->
      In (EvRestoreNS hostNS (Ok tt)) (calls w w') ->
      o = Throw (errorString
                   ("failed to parse route " ++ Quote D r ++ ": "
                    ++ Error D e)%string)) /\
  (forall dst gw dev e hostNS,
      In (EvAddRoute dst gw dev (Failed e)) (calls w w') ->
      In (EvRestoreNS hostNS (Ok tt)) (calls w w') ->
      o = Throw (errorString
                   ("failed to add route " ++ Quote D (IPNet_String D dst)
                    ++ ": " ++ Error D e)%string)) /\
  (forall name e,
      In (EvLinkByName name (Failed e)) (calls w w') ->
      o = Throw (errorString
                   ("failed to lookup " ++ Quote D name ++ ": "
                    ++ Error D e)%string)) /\
  (forall link addr e,
      In (EvAddrAdd link addr (Failed e)) (calls w w') ->
      o = Throw (errorString
                   ("failed to add IP addr to veth: " ++ Error D e)%string)) /\
  (forall dst gw dev e,
      In (EvAddHostRoute dst gw dev (Failed e)) (calls w w') ->
      IsExist e = false ->
      o = Throw (errorString
                   ("failed to add route on host: " ++ Error D e)%string)).
Proof.
  intros H. apply cmdAdd_calls in H. destruct H as (out & R & _).
  repeat split; intros;
    invert_run R;
    match goal with E : _ = calls w w' |- _ => rewrite <- E in *; clear E end;
    repeat match goal with
           | H : In _ _ |- _ => progress locate H
           end;
    try loop_failure;
    try tolerated;
    try reflexivity;
    try congruence.
Qed.

(** ** The host side of ADD *)

Lemma RouteLoop_not_host_side gw dev routes evs o :
  RouteLoop D gw dev routes evs o ->
  forallb (fun ev => negb (host_side ev)) evs = true.
Proof. induction 1; simpl; auto. Qed.

(** C8: in a successful ADD the host-side calls come after the
    namespace has been restored and are, in order, the lookup of the
    host-side interface by the name [SetupVeth] gave it, the
    assignment of the host address with the 31-bit mask to the
    interface that lookup returned, and the host route over it; and
    when the lookup fails, [cmdAdd] returns an error and no address
    has been assigned. *)
Theorem cmdAdd_reresolves_host_veth contID netns netConf ifName args
    (w w' : World) o :
  cmdAdd D contID netns netConf ifName args w = (w', o) ->
  (o = Val tt ->
   exists pre hostNS cid hostIP contIP more hostVeth contVeth hostVeth' r,
     calls w w'
     = pre ++ [EvRestoreNS hostNS (Ok tt);
               EvLinkByName (Name hostVeth) (Ok hostVeth');
               EvAddrAdd hostVeth'
                 (mkAddr (mkIPNet hostIP [255; 255; 255; 254]%Z) EmptyString)
                 (Ok tt);
               EvAddHostRoute (mkIPNet hostIP [255; 255; 255; 254]%Z) []
                 hostVeth' r] /\
     In (EvAllocPtP cid netConf ifName args (Ok (hostIP :: contIP :: more)))
        pre /\
     In (EvSetupVeth (contID ++ ifName)%string ifName
           (mkIPNet contIP [255; 255; 255; 254]%Z) hostNS
           (Ok (hostVeth, contVeth))) pre /\
     forallb (fun ev => negb (host_side ev)) pre = true) /\
  (forall name e,
      In (EvLinkByName name (Failed e)) (calls w w') ->
      o = Throw (lookup_error D name e) /\
      forall link addr r, ~ In (EvAddrAdd link addr r) (calls w w')).
Proof.
  intros H. apply cmdAdd_calls in H. destruct H as (out & R & _).
  split.
  - intros ->. invert_run R.
    match goal with
    | L : RouteLoop _ _ _ _ ?evs _ |- _ =>
        exists ([EvNewUUID contID (Ok cid); EvLoadNet netConf (Ok conf);
                 EvAllocPtP cid netConf ifName args
                            (Ok (hostIP :: contIP :: more));
                 EvEnterNS netns (Ok hostNS);
                 EvSetupVeth (contID ++ ifName)%string ifName
                   (mkIPNet contIP (CIDRMask 31 32)) hostNS
                   (Ok (hostVeth, contVeth))] ++ evs);
        exists hostNS, cid, hostIP, contIP, more, hostVeth, contVeth,
               hostVeth0, r;
        pose proof (RouteLoop_not_host_side L) as NH
    end.
    split; [simpl; rewrite <- ?app_assoc; reflexivity|].
    split; [simpl; auto|]. split; [simpl; auto 6|].
    simpl. exact NH.
  - intros name e Hin.
    invert_run R;
      match goal with E : _ = calls w w' |- _ => rewrite <- E in *; clear E end;
      locate Hin.
    split; [reflexivity|].
    intros link addr r Hin'. locate Hin'.
Qed.

(** ** Short allocations *)

(** C10: when the allocator returns, without an error, fewer than
    two addresses, [cmdAdd] does not return an error: it panics on
    the index, before any call in a namespace and with nothing
    written. *)
Theorem cmdAdd_short_allocation contID netns netConf ifName args
    (w w' : World) o cid ips :
  cmdAdd D contID netns netConf ifName args w = (w', o) ->
  In (EvAllocPtP cid netConf ifName args (Ok ips)) (calls w w') ->
  (List.length ips < 2)%nat ->
  o = Panic "runtime error: index out of range" /\
  (forall e, o <> Throw e) /\
  forallb (fun ev => negb (namespace_sensitive ev)) (calls w w') = true /\
  stdout w' = stdout w.
Proof.
  intros H Hin Hlen. apply cmdAdd_calls in H.
  destruct H as (out & R & O & _).
  invert_run R;
    match goal with E : _ = calls w w' |- _ => rewrite <- E in *; clear E end;
    locate Hin; simpl in Hlen; try lia.
  rewrite app_nil_r in O. repeat split; auto. discriminate.
Qed.

(** ** The thread of the calls *)

Lemma pinned_run_refl (w : World) : pinned_run w w.
Proof.
  split; [reflexivity|]. exists []. rewrite app_nil_r. split; auto.
Qed.

Lemma pinned_run_trans (w w1 w2 : World) :
  pinned_run w w1 -> pinned_run w1 w2 -> pinned_run w w2.
Proof.
  intros (L1 & a & T1 & F1) (L2 & b & T2 & F2).
  split; [congruence|]. exists (a ++ b).
  split; [rewrite T2, T1, app_assoc; reflexivity|].
  intros t Ht. apply Forall_app. split; [auto|].
  apply F2. congruence.
Qed.

Lemma pins_ret {A} (a : A) : pins (K:=K) (ret a).
Proof. intros w w' o [= <- <-]. apply pinned_run_refl. Qed.

Lemma pins_throw {A} e : pins (K:=K) (A:=A) (throw e).
Proof. intros w w' o [= <- <-]. apply pinned_run_refl. Qed.

Lemma pins_os_Exit {A} c : pins (K:=K) (A:=A) (os_Exit c).
Proof. intros w w' o [= <- <-]. apply pinned_run_refl. Qed.

Lemma pins_index {A} (l : list A) i : pins (K:=K) (index l i).
Proof.
  unfold index. destruct (nth_error l i); intros w w' o [= <- <-];
    apply pinned_run_refl.
Qed.

Lemma pins_fmt_Print s : pins (K:=K) (fmt_Print s).
Proof.
  intros w w' o [= <- <-]. split; [reflexivity|]. exists []. simpl.
  rewrite app_nil_r. split; auto.
Qed.

Lemma pins_log_Print s : pins (K:=K) (log_Print s).
Proof.
  intros w w' o [= <- <-]. split; [reflexivity|]. exists []. simpl.
  rewrite app_nil_r. split; auto.
Qed.

Lemma pins_call {A} (ev : res A -> event) (f : K -> K * res A) :
  (forall r, is_lock (ev r) = false) ->
  pins (call (sched D) ev f).
Proof.
  intros Hev w w' o H. unfold call in H.
  destruct (f (kern w)) as [k r]. inversion H; subst; clear H.
  split; [reflexivity|]. eexists. split; [reflexivity|].
  intros t Ht. constructor; [|constructor]. simpl.
  unfold thread_now. rewrite Ht. auto.
Qed.

Lemma pins_bind {A B} (m : M K A) (f : A -> M K B) :
  pins m -> (forall a, pins (f a)) -> pins (bind m f).
Proof.
  intros Hm Hf w w' o H. unfold bind in H.
  destruct (m w) as [w1 [a|e|p|c]] eqn:E; apply Hm in E.
  - eapply pinned_run_trans; [exact E|]. eapply Hf. exact H.
  - inversion H; subst. exact E.
  - inversion H; subst. exact E.
  - inversion H; subst. exact E.
Qed.

Lemma pins_rethrow {A} (m : M K A) wrap : pins m -> pins (rethrow m wrap).
Proof.
  intros Hm w w' o H. unfold rethrow in H.
  destruct (m w) as [w1 [a|e|p|c]] eqn:E; apply Hm in E;
    inversion H; subst; exact E.
Qed.

Lemma pins_try (m : M K unit) : pins m -> pins (try m).
Proof.
  intros Hm w w' o H. unfold try in H.
  destruct (m w) as [w1 [a|e|p|c]] eqn:E; apply Hm in E;
    inversion H; subst; exact E.
Qed.

Lemma pins_WithNetNSPath {A} nspath (f : File -> M K A) :
  (forall hostNS, pins (f hostNS)) -> pins (WithNetNSPath D nspath f).
Proof.
  intros Hf w w' o H. unfold WithNetNSPath in H.
  destruct (call (sched D) (EvEnterNS nspath) (enterNS D nspath) w)
    as [w1 o1] eqn:E1.
  apply pins_call in E1; [|reflexivity].
  destruct o1 as [hostNS|e|p|c];
    try (inversion H; subst; exact E1).
  destruct (f hostNS w1) as [w2 o2] eqn:E2. apply Hf in E2.
  assert (P2 : pinned_run w w2) by (eapply pinned_run_trans; eauto).
  destruct (call (sched D) (EvRestoreNS hostNS) (restoreNS D hostNS) w2)
    as [w3 o3] eqn:E3.
  apply pins_call in E3; [|reflexivity].
  assert (P3 : pinned_run w w3) by (eapply pinned_run_trans; eauto).
  destruct o2; destruct o3; inversion H; subst; assumption.
Qed.

Create HintDb pins.
Hint Resolve pins_ret pins_throw pins_os_Exit pins_index pins_fmt_Print
     pins_log_Print : pins.

(** Prove [pins] of a program by following its structure. *)
Ltac pins_tac :=
  repeat match goal with
         | |- pins (let _ := _ in _) => cbv zeta
         | |- pins (bind _ _) => apply pins_bind; [|intros ?]
         | |- pins (call _ _ _) => apply pins_call; reflexivity
         | |- pins (rethrow _ _) => apply pins_rethrow
         | |- pins (try _) => apply pins_try
         | |- pins (WithNetNSPath _ _ _) =>
             apply pins_WithNetNSPath; intros ?
         | |- pins (if ?c then _ else _) => destruct c
         | |- pins (match ?x with _ => _ end) => destruct x
         | |- pins _ => solve [auto with pins]
         end.

Lemma pins_cmdAdd_routes gw dev routes :
  pins (cmdAdd_routes D gw dev routes).
Proof.
  induction routes as [|r rest IH]; simpl; [apply pins_ret|].
  pins_tac.
Qed.

Lemma pins_cmdAdd contID netns netConf ifName args :
  pins (cmdAdd D contID netns netConf ifName args).
Proof.
  unfold cmdAdd. pins_tac. unfold cmdAdd_callback. pins_tac.
  apply pins_cmdAdd_routes.
Qed.

Lemma pins_cmdDel contID netns netConf ifName args :
  pins (cmdDel D contID netns netConf ifName args).
Proof. unfold cmdDel. pins_tac. Qed.

Lemma pins_main environ Args : pins (main D environ Args).
Proof.
  unfold main, main_dispatch. pins_tac.
  - apply pins_cmdAdd.
  - apply pins_cmdDel.
Qed.

(** ** [main] *)

(** The check of the required parameters, as [main] computes it. *)
Lemma main_guard_true environ :
  Getenv environ "RKT_NETPLUGIN_COMMAND" = EmptyString \/
  Getenv environ "RKT_NETPLUGIN_CONTID" = EmptyString \/
  Getenv environ "RKT_NETPLUGIN_NETNS" = EmptyString \/
  Getenv environ "RKT_NETPLUGIN_IFNAME" = EmptyString \/
  Getenv environ "RKT_NETPLUGIN_NETCONF" = EmptyString ->
  String.eqb (Getenv environ "RKT_NETPLUGIN_COMMAND") EmptyString
  || String.eqb (Getenv environ "RKT_NETPLUGIN_CONTID") EmptyString
  || String.eqb (Getenv environ "RKT_NETPLUGIN_NETNS") EmptyString
  || String.eqb (Getenv environ "RKT_NETPLUGIN_IFNAME") EmptyString
  || String.eqb (Getenv environ "RKT_NETPLUGIN_NETCONF") EmptyString = true.
Proof.
  intros H. rewrite !orb_true_iff, !String.eqb_eq. tauto.
Qed.

Lemma main_guard_false environ :
  Getenv environ "RKT_NETPLUGIN_COMMAND" <> EmptyString ->
  Getenv environ "RKT_NETPLUGIN_CONTID" <> EmptyString ->
  Getenv environ "RKT_NETPLUGIN_NETNS" <> EmptyString ->
  Getenv environ "RKT_NETPLUGIN_IFNAME" <> EmptyString ->
  Getenv environ "RKT_NETPLUGIN_NETCONF" <> EmptyString ->
  String.eqb (Getenv environ "RKT_NETPLUGIN_COMMAND") EmptyString
  || String.eqb (Getenv environ "RKT_NETPLUGIN_CONTID") EmptyString
  || String.eqb (Getenv environ "RKT_NETPLUGIN_NETNS") EmptyString
  || String.eqb (Getenv environ "RKT_NETPLUGIN_IFNAME") EmptyString
  || String.eqb (Getenv environ "RKT_NETPLUGIN_NETCONF") EmptyString = false.
Proof.
  intros H1 H2 H3 H4 H5.
  apply String.eqb_neq in H1, H2, H3, H4, H5.
  rewrite H1, H2, H3, H4, H5. reflexivity.
Qed.

(** What [main] does once the operation has returned. *)
Lemma main_after_dispatch environ Args (w w1 : World) err :
  Getenv environ "RKT_NETPLUGIN_COMMAND" <> EmptyString ->
  Getenv environ "RKT_NETPLUGIN_CONTID" <> EmptyString ->
  Getenv environ "RKT_NETPLUGIN_NETNS" <> EmptyString ->
  Getenv environ "RKT_NETPLUGIN_IFNAME" <> EmptyString ->
  Getenv environ "RKT_NETPLUGIN_NETCONF" <> EmptyString ->
  main_dispatch D (Getenv environ "RKT_NETPLUGIN_COMMAND")
                (Getenv environ "RKT_NETPLUGIN_CONTID")
                (Getenv environ "RKT_NETPLUGIN_NETNS")
                (Getenv environ "RKT_NETPLUGIN_NETCONF")
                (Getenv environ "RKT_NETPLUGIN_IFNAME")
                (Getenv environ "RKT_NETPLUGIN_ARGS") w = (w1, Val err) ->
  main D environ Args w =
  match err with
  | None => (w1, Val tt)
  | Some e =>
      match nth_error Args 1 with
      | Some arg1 =>
          (mkWorld (kern w1) (trace w1) (locked w1) (stdout w1)
                   (stderr w1 ++ [(arg1 ++ ": " ++ Error D e)%string]),
           Exit 1)
      | None => (w1, Panic "runtime error: index out of range")
      end
  end.
Proof.
  intros H1 H2 H3 H4 H5 Hd. unfold main.
  rewrite (@main_guard_false environ H1 H2 H3 H4 H5).
  unfold bind at 1. unfold ret at 1. unfold bind at 1. rewrite Hd.
  destruct err as [e|]; [|reflexivity].
  unfold bind, index. destruct (nth_error Args 1); reflexivity.
Qed.

(** C5: when one of the command, the container ID, the namespace
    path, the interface name and the configuration reference is
    empty, [main] logs the diagnostic and the environment and exits
    with status 1, having made no call; and when those five are set,
    empty arguments do not stop [main] from starting the
    operation. *)
Theorem main_missing_parameter environ Args (w : World) :
  (Getenv environ "RKT_NETPLUGIN_COMMAND" = EmptyString \/
   Getenv environ "RKT_NETPLUGIN_CONTID" = EmptyString \/
   Getenv environ "RKT_NETPLUGIN_NETNS" = EmptyString \/
   Getenv environ "RKT_NETPLUGIN_IFNAME" = EmptyString \/
   Getenv environ "RKT_NETPLUGIN_NETCONF" = EmptyString ->
   exists w',
     main D environ Args w = (w', Exit 1) /\
     exit_status (Exit 1) <> 0%Z /\
     kern w' = kern w /\ trace w' = trace w /\ stdout w' = stdout w /\
     stderr w' = stderr w ++ ["Required env variable missing";
                              ("Env: " ++ Sprint_strings (Environ environ))%string])
  /\
  (Getenv environ "RKT_NETPLUGIN_COMMAND" <> EmptyString ->
   Getenv environ "RKT_NETPLUGIN_CONTID" <> EmptyString ->
   Getenv environ "RKT_NETPLUGIN_NETNS" <> EmptyString ->
   Getenv environ "RKT_NETPLUGIN_IFNAME" <> EmptyString ->
   Getenv environ "RKT_NETPLUGIN_NETCONF" <> EmptyString ->
   Getenv environ "RKT_NETPLUGIN_ARGS" = EmptyString ->
   forall w' o,
     main D environ Args w = (w', o) ->
     (Getenv environ "RKT_NETPLUGIN_COMMAND" = "ADD" ->
      exists r rest,
        calls w w'
        = EvNewUUID (Getenv environ "RKT_NETPLUGIN_CONTID") r :: rest) /\
     (Getenv environ "RKT_NETPLUGIN_COMMAND" = "DEL" ->
      exists r rest,
        calls w w'
        = EvEnterNS (Getenv environ "RKT_NETPLUGIN_NETNS") r :: rest)).
Proof.
  split.
  - intros H. unfold main. rewrite (@main_guard_true environ H).
    eexists. split; [reflexivity|]. simpl.
    rewrite <- app_assoc. repeat split; auto. discriminate.
  - intros H1 H2 H3 H4 H5 Ha w' o Hm.
    assert (Hd : forall w1 od,
               main_dispatch D (Getenv environ "RKT_NETPLUGIN_COMMAND")
                 (Getenv environ "RKT_NETPLUGIN_CONTID")
                 (Getenv environ "RKT_NETPLUGIN_NETNS")
                 (Getenv environ "RKT_NETPLUGIN_NETCONF")
                 (Getenv environ "RKT_NETPLUGIN_IFNAME")
                 (Getenv environ "RKT_NETPLUGIN_ARGS") w = (w1, od) ->
               trace w' = trace w1).
    { intros w1 od Hd. unfold main in Hm.
      rewrite (@main_guard_false environ H1 H2 H3 H4 H5) in Hm.
      unfold bind at 1 in Hm. unfold ret at 1 in Hm.
      unfold bind at 1 in Hm. rewrite Hd in Hm.
      destruct od as [[e|]|e|p|c]; try (inversion Hm; reflexivity).
      unfold bind, index in Hm.
      destruct (nth_error Args 1); inversion Hm; reflexivity. }
    split; intros Hc; rewrite Hc in Hd; unfold main_dispatch in Hd;
      simpl in Hd.
    + destruct (cmdAdd D (Getenv environ "RKT_NETPLUGIN_CONTID")
                  (Getenv environ "RKT_NETPLUGIN_NETNS")
                  (Getenv environ "RKT_NETPLUGIN_NETCONF")
                  (Getenv environ "RKT_NETPLUGIN_IFNAME")
                  (Getenv environ "RKT_NETPLUGIN_ARGS") w) as [w1 o1] eqn:E.
      assert (T : trace w' = trace w1).
      { unfold try in Hd. rewrite E in Hd.
        destruct o1; eapply Hd; reflexivity. }
      apply cmdAdd_calls in E. destruct E as (out & R & _).
      unfold calls, emitted in *. rewrite T.
      inversion R; subst; simpl; eauto.
    + destruct (cmdDel D (Getenv environ "RKT_NETPLUGIN_CONTID")
                  (Getenv environ "RKT_NETPLUGIN_NETNS")
                  (Getenv environ "RKT_NETPLUGIN_NETCONF")
                  (Getenv environ "RKT_NETPLUGIN_IFNAME")
                  (Getenv environ "RKT_NETPLUGIN_ARGS") w) as [w1 o1] eqn:E.
      assert (T : trace w' = trace w1).
      { unfold try in Hd. rewrite E in Hd.
        destruct o1; eapply Hd; reflexivity. }
      apply cmdDel_run in E. destruct E as (tevs & S & Hc').
      pose proof (stepped_calls S) as C.
      unfold calls, emitted in *. rewrite T, C.
      destruct Hc' as [(e & -> & _)|(hostNS & r & r' & -> & _)]; eauto.
Qed.

(** ** The thread lock *)

(** C9: a process that starts unlocked first calls [LockOSThread],
    which locks it to the thread it runs on; every later call of the
    process, so every entry into a namespace and every restoration,
    is made on that thread, and none of them is another
    [LockOSThread]. *)
Theorem process_thread_bound environ Args (w w' : World) o :
  locked w = None ->
  process D environ Args w = (w', o) ->
  exists t rest,
    emitted w w' = (t, EvLockOSThread) :: rest /\
    locked w' = Some t /\
    Forall (fun te => fst te = t /\ is_lock (snd te) = false) rest /\
    Forall (fun te => namespace_sensitive (snd te) = true -> fst te = t)
           (emitted w w').
Proof.
  intros Hl H. unfold process, bind, init, LockOSThread in H.
  match type of H with
  | main D environ Args ?w1 = _ => remember w1 as w1' eqn:Ew1
  end.
  apply pins_main in H. destruct H as (L & tevs & T & F).
  assert (L1 : locked w1' = Some (thread_now (sched D) w))
    by (subst w1'; reflexivity).
  specialize (F _ L1).
  exists (thread_now (sched D) w), tevs.
  assert (E : emitted w w' = (thread_now (sched D) w, EvLockOSThread) :: tevs).
  { apply emitted_app. rewrite T. subst w1'. simpl.
    rewrite <- app_assoc. reflexivity. }
  split; [exact E|]. split; [congruence|]. split; [exact F|].
  rewrite E. constructor; [reflexivity|].
  eapply Forall_impl; [|exact F]. intros te [Ht _] _. exact Ht.
Qed.


(** ** Further properties of the plugin *)

(** *** What a failed ADD leaves on the output streams *)

(** X1: [cmdAdd] and [cmdDel] never write to the standard error, and an
    ADD that does not succeed writes nothing to the standard
    output. *)
Theorem operations_are_silent contID netns netConf ifName args
    (w w' : World) o :
  (cmdAdd D contID netns netConf ifName args w = (w', o) ->
   stderr w' = stderr w /\ (o <> Val tt -> stdout w' = stdout w)) /\
  (cmdDel D contID netns netConf ifName args w = (w', o) ->
   stderr w' = stderr w).
Proof.
  split.
  - intros H. apply cmdAdd_calls in H. destruct H as (out & R & O & E & _).
    split; [exact E|]. intros Ho.
    inversion R; subst; rewrite ?app_nil_r in O; try exact O.
    contradiction.
  - intros H. apply cmdDel_run in H.
    destruct H as (tevs & (_ & _ & _ & E) & _). exact E.
Qed.

(** *** The order of the first steps *)

(** X2: [cmdAdd] stops at a malformed container ID or an unloadable
    configuration before anything else is called, and the allocator
    is called, with the parsed ID and the invocation's parameters,
    only after both steps have succeeded. *)
Theorem cmdAdd_allocates_after_validation contID netns netConf ifName args
    (w w' : World) o :
  cmdAdd D contID netns netConf ifName args w = (w', o) ->
  (forall e, In (EvNewUUID contID (Failed e)) (calls w w') ->
             calls w w' = [EvNewUUID contID (Failed e)]) /\
  (forall e, In (EvLoadNet netConf (Failed e)) (calls w w') ->
             exists cid, calls w w' = [EvNewUUID contID (Ok cid);
                                       EvLoadNet netConf (Failed e)]) /\
  (forall cid nc ifn a r,
      In (EvAllocPtP cid nc ifn a r) (calls w w') ->
      nc = netConf /\ ifn = ifName /\ a = args /\
      exists conf rest,
        calls w w' = EvNewUUID contID (Ok cid)
                     :: EvLoadNet netConf (Ok conf)
                     :: EvAllocPtP cid netConf ifName args r :: rest).
Proof.
  intros H. apply cmdAdd_calls in H. destruct H as (out & R & _).
  split; [|split].
  - intros e Hin.
    invert_run R;
      match goal with E : _ = calls w w' |- _ => rewrite <- E in *; clear E end;
      locate Hin. reflexivity.
  - intros e Hin.
    invert_run R;
      match goal with E : _ = calls w w' |- _ => rewrite <- E in *; clear E end;
      locate Hin. eauto.
  - intros cid0 nc ifn a r0 Hin.
    invert_run R;
      match goal with E : _ = calls w w' |- _ => rewrite <- E in *; clear E end;
      locate Hin;
      (split; [reflexivity|]); (split; [reflexivity|]);
      (split; [reflexivity|]); do 2 eexists; simpl; reflexivity.
Qed.

(** *** The routes of the container *)

Lemma RouteLoop_route gw dev routes evs o dst gw' dev' r :
  RouteLoop D gw dev routes evs o ->
  In (EvAddRoute dst gw' dev' r) evs ->
  gw' = gw /\ dev' = dev /\ exists s, In s routes /\ ParseCIDR D s = Ok dst.
Proof.
  induction 1; simpl; intros Hin;
    repeat match goal with
           | H : _ \/ _ |- _ => destruct H
           | H : False |- _ => destruct H
           | H : @eq event _ _ |- _ =>
               first [discriminate H | inversion H; clear H]
           end; subst; eauto 6.
  destruct (IHRouteLoop H1) as (-> & -> & s & Hs & Hp). eauto 6.
Qed.

(** X3: Every route [cmdAdd] hands to [AddRoute] is the destination of an
    entry of the loaded configuration, has the first address of the
    allocator (the host address) as its gateway and goes over the
    container-side interface that [SetupVeth] returned, which was
    called with the seed [contID ++ ifName] and the second address
    with the 31-bit mask. *)
Theorem cmdAdd_routes_via_host_ip contID netns netConf ifName args
    (w w' : World) o dst gw dev r :
  cmdAdd D contID netns netConf ifName args w = (w', o) ->
  In (EvAddRoute dst gw dev r) (calls w w') ->
  exists cid conf hostIP contIP more hostNS hostVeth,
    In (EvLoadNet netConf (Ok conf)) (calls w w') /\
    In (EvAllocPtP cid netConf ifName args (Ok (hostIP :: contIP :: more)))
       (calls w w') /\
    In (EvSetupVeth (contID ++ ifName)%string ifName
          (mkIPNet contIP [255; 255; 255; 254]%Z) hostNS (Ok (hostVeth, dev)))
       (calls w w') /\
    gw = hostIP /\
    exists s, In s (Routes conf) /\ ParseCIDR D s = Ok dst.
Proof.
  intros H Hin. apply cmdAdd_calls in H. destruct H as (out & R & _).
  invert_run R;
    match goal with E : _ = calls w w' |- _ => rewrite <- E in *; clear E end;
    locate Hin;
    match goal with
    | L : RouteLoop _ _ _ _ ?evs _, I : In _ ?evs |- _ =>
        let P := fresh "P" in
        assert (P := L); eapply RouteLoop_route in P; [|exact I];
        destruct P as (-> & -> & s & Hs & Hp)
    end;
    exists cid, conf, hostIP, contIP, more, hostNS, hostVeth;
    (split; [simpl; auto|]); (split; [simpl; auto|]);
    (split; [simpl; auto 6|]); (split; [reflexivity|]); eauto.
Qed.

Lemma RouteLoop_done gw dev routes evs :
  RouteLoop D gw dev routes evs (Val tt) ->
  route_attempts evs = destinations D routes /\
  List.length (destinations D routes) = List.length routes /\
  existsb route_rejected evs = false.
Proof.
  intros H. remember (Val tt) as o eqn:Ho.
  induction H; try discriminate; simpl.
  - auto.
  - rewrite H. simpl. destruct (IHRouteLoop Ho) as (-> & -> & ->). auto.
Qed.

(** X4: A successful ADD has handed every route entry of the loaded
    configuration to [AddRoute], in the order of the list, and none
    was rejected. *)
Theorem cmdAdd_success_installs_all_routes contID netns netConf ifName args
    (w w' : World) :
  cmdAdd D contID netns netConf ifName args w = (w', Val tt) ->
  exists conf,
    In (EvLoadNet netConf (Ok conf)) (calls w w') /\
    route_attempts (calls w w') = destinations D (Routes conf) /\
    List.length (route_attempts (calls w w')) = List.length (Routes conf) /\
    existsb route_rejected (calls w w') = false.
Proof.
  intros H. apply cmdAdd_calls in H. destruct H as (out & R & _).
  invert_run R.
  match goal with
  | L : RouteLoop _ _ _ _ _ _ |- _ =>
      let P := fresh "P" in
      assert (P := L); apply RouteLoop_done in P; destruct P as (A & B & C)
  end.
  exists conf. split; [simpl; auto|].
  simpl. rewrite !route_attempts_app. simpl. rewrite app_nil_r, A.
  split; [reflexivity|]. split; [exact B|].
  rewrite existsb_app, C. reflexivity.
Qed.

(** *** No rollback *)

(** X5: [cmdAdd] never deletes an interface: whatever step fails, the
    pair [SetupVeth] created is left as it is. *)
Theorem cmdAdd_never_deletes contID netns netConf ifName args
    (w w' : World) o :
  cmdAdd D contID netns netConf ifName args w = (w', o) ->
  forall name r, ~ In (EvDelLinkByName name r) (calls w w').
Proof.
  intros H name r Hin. apply cmdAdd_calls in H. destruct H as (out & R & _).
  invert_run R;
    match goal with E : _ = calls w w' |- _ => rewrite <- E in *; clear E end;
    locate Hin.
Qed.

(** X6: [cmdDel] enters the namespace and, when that succeeded, deletes
    the interface named [ifName] and restores the namespace; it makes
    no other call: the container ID is not parsed, the configuration
    is not loaded and the allocator is not called. *)
Theorem cmdDel_calls contID netns netConf ifName args (w w' : World) o :
  cmdDel D contID netns netConf ifName args w = (w', o) ->
  (exists e, calls w w' = [EvEnterNS netns (Failed e)] /\ o = Throw e) \/
  (exists hostNS r r',
      calls w w' = [EvEnterNS netns (Ok hostNS);
                    EvDelLinkByName ifName r;
                    EvRestoreNS hostNS r'] /\
      o = after_restore (lift r) r').
Proof.
  intros H. apply cmdDel_run in H. destruct H as (tevs & S & Hc).
  rewrite (stepped_calls S). exact Hc.
Qed.

(** *** The namespace bracket *)

Lemma RouteLoop_inside gw dev routes evs o :
  RouteLoop D gw dev routes evs o -> forallb inside_ns evs = true.
Proof. induction 1; simpl; auto. Qed.

(** X7: The calls of [cmdAdd] are bracketed by the namespace executor:
    the ID parse, the load and the allocation come before the entry;
    the link setup and the routes of the container come between the
    entry and the restoration; the lookup, the address and the route
    of the host come after a restoration that succeeded. *)
Theorem cmdAdd_namespace_bracket contID netns netConf ifName args
    (w w' : World) o :
  cmdAdd D contID netns netConf ifName args w = (w', o) ->
  forallb prelude (calls w w') = true \/
  (exists a e,
      calls w w' = a ++ [EvEnterNS netns (Failed e)] /\
      forallb prelude a = true) \/
  (exists a hostNS b r c,
      calls w w' = a ++ EvEnterNS netns (Ok hostNS) :: b
                     ++ EvRestoreNS hostNS r :: c /\
      forallb prelude a = true /\ forallb inside_ns b = true /\
      forallb host_side c = true /\ (c <> [] -> r = Ok tt)).
Proof.
  intros H. apply cmdAdd_calls in H. destruct H as (out & R & _).
  assert (CB : forall conf hostIP contIP hostNS evs (oc : outcome (string * string)),
             CallbackRun D contID ifName conf hostIP contIP hostNS evs oc ->
             forallb inside_ns evs = true).
  { intros conf hostIP contIP hostNS evs oc HC.
    inversion HC; subst; simpl; try reflexivity;
      match goal with
      | L : RouteLoop _ _ _ _ _ _ |- _ => exact (RouteLoop_inside L)
      end. }
  assert (HR : forall hostIP name hevs oh,
             HostRun D hostIP name hevs oh ->
             forallb host_side hevs = true /\ hevs <> []).
  { intros hostIP name hevs oh HH.
    inversion HH; subst; simpl; split; try reflexivity; discriminate. }
  inversion R; subst; clear R.
  - left. reflexivity.
  - left. reflexivity.
  - left. reflexivity.
  - left. reflexivity.
  - right. left.
    exists [EvNewUUID contID (Ok cid); EvLoadNet netConf (Ok conf);
            EvAllocPtP cid netConf ifName args (Ok (hostIP :: contIP :: more))],
           e.
    split; reflexivity.
  - right. right.
    exists [EvNewUUID contID (Ok cid); EvLoadNet netConf (Ok conf);
            EvAllocPtP cid netConf ifName args (Ok (hostIP :: contIP :: more))],
           hostNS, evs, r, [].
    split; [reflexivity|]. split; [reflexivity|].
    split; [eapply CB; eassumption|]. split; [reflexivity|].
    intros Hc. contradiction Hc. reflexivity.
  - right. right.
    exists [EvNewUUID contID (Ok cid); EvLoadNet netConf (Ok conf);
            EvAllocPtP cid netConf ifName args (Ok (hostIP :: contIP :: more))],
           hostNS, evs, (Failed e), [].
    split; [reflexivity|]. split; [reflexivity|].
    split; [eapply CB; eassumption|]. split; [reflexivity|].
    intros Hc. contradiction Hc. reflexivity.
  - right. right.
    exists [EvNewUUID contID (Ok cid); EvLoadNet netConf (Ok conf);
            EvAllocPtP cid netConf ifName args (Ok (hostIP :: contIP :: more))],
           hostNS, evs, (Ok tt), hevs.
    split; [reflexivity|]. split; [reflexivity|].
    split; [eapply CB; eassumption|].
    split; [eapply HR; eassumption|]. reflexivity.
  - right. right.
    exists [EvNewUUID contID (Ok cid); EvLoadNet netConf (Ok conf);
            EvAllocPtP cid netConf ifName args (Ok (hostIP :: contIP :: more))],
           hostNS, evs, (Ok tt), hevs.
    split; [reflexivity|]. split; [reflexivity|].
    split; [eapply CB; eassumption|].
    split; [eapply HR; eassumption|]. reflexivity.
Qed.

(** *** The dispatcher *)

(** [main] after the check of the parameters, whatever the operation
    did. *)
Lemma main_outcome environ Args (w w1 : World) od :
  Getenv environ "RKT_NETPLUGIN_COMMAND" <> EmptyString ->
  Getenv environ "RKT_NETPLUGIN_CONTID" <> EmptyString ->
  Getenv environ "RKT_NETPLUGIN_NETNS" <> EmptyString ->
  Getenv environ "RKT_NETPLUGIN_IFNAME" <> EmptyString ->
  Getenv environ "RKT_NETPLUGIN_NETCONF" <> EmptyString ->
  main_dispatch D (Getenv environ "RKT_NETPLUGIN_COMMAND")
                (Getenv environ "RKT_NETPLUGIN_CONTID")
                (Getenv environ "RKT_NETPLUGIN_NETNS")
                (Getenv environ "RKT_NETPLUGIN_NETCONF")
                (Getenv environ "RKT_NETPLUGIN_IFNAME")
                (Getenv environ "RKT_NETPLUGIN_ARGS") w = (w1, od) ->
  main D environ Args w =
  match od with
  | Val None => (w1, Val tt)
  | Val (Some e) =>
      match nth_error Args 1 with
      | Some arg1 =>
          (mkWorld (kern w1) (trace w1) (locked w1) (stdout w1)
                   (stderr w1 ++ [(arg1 ++ ": " ++ Error D e)%string]),
           Exit 1)
      | None => (w1, Panic "runtime error: index out of range")
      end
  | Throw e => (w1, Throw e)
  | Panic p => (w1, Panic p)
  | Exit c => (w1, Exit c)
  end.
Proof.
  intros H1 H2 H3 H4 H5 Hd. unfold main.
  rewrite (@main_guard_false environ H1 H2 H3 H4 H5).
  unfold bind at 1. unfold ret at 1. unfold bind at 1. rewrite Hd.
  destruct od as [[e|]|e|p|c]; try reflexivity.
  unfold bind, index. destruct (nth_error Args 1); reflexivity.
Qed.

(** X8: With the required parameters set and a command that is neither
    ADD nor DEL, [main] logs the command as unknown and exits with
    status 1, having made no call and written nothing to the
    standard output. *)
Theorem main_unknown_command environ Args (w : World) :
  Getenv environ "RKT_NETPLUGIN_COMMAND" <> EmptyString ->
  Getenv environ "RKT_NETPLUGIN_CONTID" <> EmptyString ->
  Getenv environ "RKT_NETPLUGIN_NETNS" <> EmptyString ->
  Getenv environ "RKT_NETPLUGIN_IFNAME" <> EmptyString ->
  Getenv environ "RKT_NETPLUGIN_NETCONF" <> EmptyString ->
  Getenv environ "RKT_NETPLUGIN_COMMAND" <> "ADD" ->
  Getenv environ "RKT_NETPLUGIN_COMMAND" <> "DEL" ->
  exists w',
    main D environ Args w = (w', Exit 1) /\
    kern w' = kern w /\ trace w' = trace w /\ stdout w' = stdout w /\
    stderr w'
    = stderr w ++ [("Unknown RKT_NETPLUGIN_COMMAND: "
                    ++ Getenv environ "RKT_NETPLUGIN_COMMAND")%string].
Proof.
  intros H1 H2 H3 H4 H5 HA HD.
  eexists. split.
  - erewrite main_outcome; try eassumption.
    2:{ unfold main_dispatch.
        apply String.eqb_neq in HA, HD. rewrite HA, HD. reflexivity. }
    reflexivity.
  - simpl. auto.
Qed.

Lemma cmdAdd_outcome contID netns netConf ifName args (w w' : World) o :
  cmdAdd D contID netns netConf ifName args w = (w', o) ->
  o = Val tt \/ (exists e, o = Throw e) \/ (exists p, o = Panic p).
Proof.
  intros H. apply cmdAdd_calls in H. destruct H as (out & R & _).
  inversion R; subst; eauto.
  destruct r; simpl; eauto.
Qed.

Lemma cmdDel_outcome contID netns netConf ifName args (w w' : World) o :
  cmdDel D contID netns netConf ifName args w = (w', o) ->
  o = Val tt \/ (exists e, o = Throw e).
Proof.
  intros H. apply cmdDel_run in H. destruct H as (tevs & _ & Hc).
  destruct Hc as [(e & _ & ->)|(hostNS & r & r' & _ & ->)]; eauto.
  destruct r as [[]|e], r' as [[]|e']; simpl; eauto.
Qed.

(** X9: With the required parameters set, the process ends with status 0
    exactly when the command is ADD or DEL and the operation returned
    no error; the world it ends in is then the one the operation
    left. *)
Theorem main_exit_status environ Args (w w' : World) o :
  Getenv environ "RKT_NETPLUGIN_COMMAND" <> EmptyString ->
  Getenv environ "RKT_NETPLUGIN_CONTID" <> EmptyString ->
  Getenv environ "RKT_NETPLUGIN_NETNS" <> EmptyString ->
  Getenv environ "RKT_NETPLUGIN_IFNAME" <> EmptyString ->
  Getenv environ "RKT_NETPLUGIN_NETCONF" <> EmptyString ->
  main D environ Args w = (w', o) ->
  (exit_status o = 0%Z <->
   (Getenv environ "RKT_NETPLUGIN_COMMAND" = "ADD" /\
    cmdAdd D (Getenv environ "RKT_NETPLUGIN_CONTID")
           (Getenv environ "RKT_NETPLUGIN_NETNS")
           (Getenv environ "RKT_NETPLUGIN_NETCONF")
           (Getenv environ "RKT_NETPLUGIN_IFNAME")
           (Getenv environ "RKT_NETPLUGIN_ARGS") w = (w', Val tt)) \/
   (Getenv environ "RKT_NETPLUGIN_COMMAND" = "DEL" /\
    cmdDel D (Getenv environ "RKT_NETPLUGIN_CONTID")
           (Getenv environ "RKT_NETPLUGIN_NETNS")
           (Getenv environ "RKT_NETPLUGIN_NETCONF")
           (Getenv environ "RKT_NETPLUGIN_IFNAME")
           (Getenv environ "RKT_NETPLUGIN_ARGS") w = (w', Val tt))).
Proof.
  intros H1 H2 H3 H4 H5 Hm.
  destruct (main_dispatch D (Getenv environ "RKT_NETPLUGIN_COMMAND")
              (Getenv environ "RKT_NETPLUGIN_CONTID")
              (Getenv environ "RKT_NETPLUGIN_NETNS")
              (Getenv environ "RKT_NETPLUGIN_NETCONF")
              (Getenv environ "RKT_NETPLUGIN_IFNAME")
              (Getenv environ "RKT_NETPLUGIN_ARGS") w) as [w1 od] eqn:Hd.
  rewrite (@main_outcome environ Args w w1 od H1 H2 H3 H4 H5 Hd) in Hm.
  unfold main_dispatch in Hd.
  destruct (String.eqb (Getenv environ "RKT_NETPLUGIN_COMMAND") "ADD") eqn:EA;
    [|destruct (String.eqb (Getenv environ "RKT_NETPLUGIN_COMMAND") "DEL")
        eqn:ED].
  - apply String.eqb_eq in EA. unfold try in Hd.
    destruct (cmdAdd D _ _ _ _ _ w) as [w2 o2] eqn:E.
    destruct (cmdAdd_outcome _ _ _ _ _ _ E) as [->|[(e & ->)|(p & ->)]];
      inversion Hd; subst; clear Hd.
    + inversion Hm; subst. split; [auto|reflexivity].
    + split.
      * destruct (nth_error Args 1); inversion Hm; subst; discriminate.
      * intros [(_ & Heq)|(Hc & _)]; [discriminate Heq|].
        rewrite EA in Hc. discriminate.
    + inversion Hm; subst. split; [discriminate|].
      intros [(_ & Heq)|(Hc & _)]; [discriminate Heq|].
      rewrite EA in Hc. discriminate.
  - apply String.eqb_eq in ED. apply String.eqb_neq in EA. unfold try in Hd.
    destruct (cmdDel D _ _ _ _ _ w) as [w2 o2] eqn:E.
    destruct (cmdDel_outcome _ _ _ _ _ _ E) as [->|(e & ->)];
      inversion Hd; subst; clear Hd.
    + inversion Hm; subst. split; [auto|reflexivity].
    + split.
      * destruct (nth_error Args 1); inversion Hm; subst; discriminate.
      * intros [(Hc & _)|(_ & Heq)]; [contradiction|discriminate Heq].
  - apply String.eqb_neq in EA, ED.
    inversion Hd; subst; clear Hd. inversion Hm; subst.
    split; [discriminate|]. intros [(Hc & _)|(Hc & _)]; contradiction.
Qed.

(** *** Stopping at the first failure *)

Lemma fail_stop_spec pre :
  forall evs ev post,
    fail_stop evs = true -> evs = pre ++ ev :: post ->
    failed_call ev = true ->
    post = [] \/
    (inside_ns ev = true /\ exists hostNS r, post = [EvRestoreNS hostNS r]).
Proof.
  induction pre as [|a pre IH]; intros evs ev post FS -> F; simpl in FS.
  - rewrite F in FS. destruct post as [|p [|q post]]; [auto| |].
    + destruct p; try discriminate FS. right. eauto.
    + destruct p; discriminate FS.
  - destruct (failed_call a).
    + destruct pre as [|b pre]; simpl in FS.
      * destruct ev; try discriminate FS.
        destruct post; [auto|discriminate FS].
      * destruct b; try discriminate FS;
          destruct pre; discriminate FS.
    + eapply IH; eauto.
Qed.

Lemma RouteLoop_fail_stop gw dev routes evs o :
  RouteLoop D gw dev routes evs o ->
  (o = Val tt -> forall tail, fail_stop (evs ++ tail) = fail_stop tail) /\
  (forall e, o = Throw e ->
             forall h r, fail_stop (evs ++ [EvRestoreNS h r]) = true).
Proof.
  induction 1 as [|r rest e P|r rest dst e P|r rest dst evs o P L IH];
    (split; [intros E|intros e' E]); try discriminate E; try reflexivity.
  - intros tail. simpl. apply IH. exact E.
  - intros h r'. simpl. eapply IH. exact E.
Qed.

Lemma cmdAdd_fail_stop contID netns netConf ifName args (w w' : World) o :
  cmdAdd D contID netns netConf ifName args w = (w', o) ->
  fail_stop (calls w w') = true.
Proof.
  intros H. apply cmdAdd_calls in H. destruct H as (out & R & _).
  invert_run R;
    try match goal with E : _ = calls w w' |- _ => rewrite <- E; clear E end.
  all: simpl; try reflexivity.
  all: match goal with
       | L : RouteLoop _ _ _ _ _ _ |- _ =>
           let P := fresh "P" in
           assert (P := L); apply RouteLoop_fail_stop in P;
           destruct P as (PV & PT)
       end.
  all: first [ solve [eapply PT; reflexivity]
             | rewrite (PV eq_refl); simpl; try reflexivity ].
  all: match goal with
       | |- context [match ?r with Ok _ => _ | Failed _ => _ end] =>
           destruct r; reflexivity
       end.
Qed.

(** X26: [cmdAdd] stops at the first call that fails: no call follows
    a failed one, except that the namespace is still restored after a
    failure inside it (the link setup, a route parse or a route
    installation).  A failed call that is tolerated, the host route
    that exists already, is the last call as well. *)
Theorem cmdAdd_stops_at_first_failure contID netns netConf ifName args
    (w w' : World) o pre ev post :
  cmdAdd D contID netns netConf ifName args w = (w', o) ->
  calls w w' = pre ++ ev :: post ->
  failed_call ev = true ->
  post = [] \/
  (inside_ns ev = true /\ exists hostNS r, post = [EvRestoreNS hostNS r]).
Proof.
  intros H E F. apply cmdAdd_fail_stop in H.
  eapply fail_stop_spec; eassumption.
Qed.

End Facts.

(** * The simulated host *)

Section SimFacts.

Import Sim.

Local Abbreviation World := (World Kernel).

(** ** DEL *)

Lemma find_after_delete ns name (l : list (string * Link)) :
  find (fun nl => String.eqb (fst nl) ns && String.eqb (Name (snd nl)) name)
       (filter (keep_link ns name) l) = None.
Proof.
  induction l as [|nl l IH]; simpl; [reflexivity|].
  unfold keep_link at 1.
  destruct (String.eqb (fst nl) ns && String.eqb (Name (snd nl)) name) eqn:E;
    simpl; [exact IH|]. rewrite E. exact IH.
Qed.

(** DEL of an interface that is not in the namespace. *)
Lemma cmdDel_absent cid nspath netConf ifName args (w : World) :
  enterable (kern w) nspath ->
  find_link (kern w) nspath ifName = None ->
  exists w',
    cmdDel deps cid nspath netConf ifName args w = (w', Val tt) /\
    links (kern w') = links (kern w) /\
    active (kern w') = active (kern w) /\
    spaces (kern w') = spaces (kern w) /\
    reject (kern w') = reject (kern w).
Proof.
  intros (Hs & Hr1 & Hr2) Hf.
  unfold cmdDel, WithNetNSPath, call. simpl.
  unfold enter. rewrite Hs, Hr1. simpl.
  unfold delLinkByName. simpl.
  unfold find_link in *. simpl. rewrite Hf.
  unfold restore, rejected in *. simpl. rewrite Hr2. simpl.
  eexists. split; [reflexivity|]. simpl. auto.
Qed.

(** DEL of an interface that is in the namespace, when the kernel
    deletes it. *)
Lemma cmdDel_present cid nspath netConf ifName args (w : World) l :
  enterable (kern w) nspath ->
  find_link (kern w) nspath ifName = Some l ->
  rejected (kern w) "LinkDel" = None ->
  exists w',
    cmdDel deps cid nspath netConf ifName args w = (w', Val tt) /\
    links (kern w') = filter (keep_link nspath ifName) (links (kern w)) /\
    active (kern w') = active (kern w) /\
    spaces (kern w') = spaces (kern w) /\
    reject (kern w') = reject (kern w).
Proof.
  intros (Hs & Hr1 & Hr2) Hf Hd.
  unfold cmdDel, WithNetNSPath, call. simpl.
  unfold enter. rewrite Hs, Hr1. simpl.
  unfold delLinkByName. simpl.
  unfold find_link in *. simpl. rewrite Hf.
  unfold rejected in *. simpl. rewrite Hd.
  unfold restore, rejected. simpl. rewrite Hr2. simpl.
  eexists. split; [reflexivity|]. simpl. auto.
Qed.

(** DEL of an interface that is in the namespace, when the kernel
    refuses to delete it. *)
Lemma cmdDel_rejected cid nspath netConf ifName args (w : World) l e :
  enterable (kern w) nspath ->
  find_link (kern w) nspath ifName = Some l ->
  rejected (kern w) "LinkDel" = Some e ->
  exists w',
    cmdDel deps cid nspath netConf ifName args w
    = (w', Throw (errorString ("failed to delete " ++ quote ifName ++ ": "
                               ++ Error_text errno_text e)%string)) /\
    links (kern w') = links (kern w).
Proof.
  intros (Hs & Hr1 & Hr2) Hf Hd.
  unfold cmdDel, WithNetNSPath, call. simpl.
  unfold enter. rewrite Hs, Hr1. simpl.
  unfold delLinkByName. simpl.
  unfold find_link in *. simpl. rewrite Hf.
  unfold rejected in *. simpl. rewrite Hd.
  unfold restore, rejected. simpl. rewrite Hr2. simpl.
  eexists. split; [reflexivity|]. simpl. auto.
Qed.

Lemma enterable_same (k k' : Kernel) nspath :
  spaces k' = spaces k -> reject k' = reject k ->
  enterable k nspath -> enterable k' nspath.
Proof.
  unfold enterable, rejected. intros -> ->. auto.
Qed.

(** C2: DEL of an interface that does not exist in the target
    namespace returns no error and leaves the interfaces as they
    are; a DEL that follows a successful DEL of the same interface
    returns no error either and changes nothing; and when the kernel
    refuses to delete an interface that exists, DEL returns an
    error. *)
Theorem cmdDel_idempotent cid nspath netConf ifName args (w : World) :
  enterable (kern w) nspath ->
  (find_link (kern w) nspath ifName = None ->
   exists w',
     cmdDel deps cid nspath netConf ifName args w = (w', Val tt) /\
     links (kern w') = links (kern w)) /\
  (forall w1,
      cmdDel deps cid nspath netConf ifName args w = (w1, Val tt) ->
      exists w2,
        cmdDel deps cid nspath netConf ifName args w1 = (w2, Val tt) /\
        links (kern w2) = links (kern w1)) /\
  (forall l e,
      find_link (kern w) nspath ifName = Some l ->
      rejected (kern w) "LinkDel" = Some e ->
      exists w' e',
        cmdDel deps cid nspath netConf ifName args w = (w', Throw e')).
Proof.
  intros He. split; [|split].
  - intros Hf.
    destruct (@cmdDel_absent cid nspath netConf ifName args w He Hf) as (w' & E & L & _).
    eauto.
  - intros w1 H1.
    assert (He1 : enterable (kern w1) nspath /\
                  find_link (kern w1) nspath ifName = None).
    { destruct (find_link (kern w) nspath ifName) as [l|] eqn:Hf.
      - destruct (rejected (kern w) "LinkDel") as [e|] eqn:Hd.
        + destruct (@cmdDel_rejected cid nspath netConf ifName args w _ _ He Hf Hd)
            as (w' & E & _).
          rewrite E in H1. discriminate.
        + destruct (@cmdDel_present cid nspath netConf ifName args w _ He Hf Hd)
            as (w' & E & L & _ & S & R).
          rewrite E in H1. inversion H1; subst w'.
          split; [exact (@enterable_same _ _ nspath S R He)|].
          unfold find_link. rewrite L, find_after_delete. reflexivity.
      - destruct (@cmdDel_absent cid nspath netConf ifName args w He Hf)
          as (w' & E & L & _ & S & R).
        rewrite E in H1. inversion H1; subst w'.
        split; [exact (@enterable_same _ _ nspath S R He)|].
        unfold find_link in *. rewrite L. exact Hf. }
    destruct He1 as (He1 & Hf1).
    destruct (@cmdDel_absent cid nspath netConf ifName args w1 He1 Hf1) as (w2 & E & L & _).
    eauto.
  - intros l e Hf Hd.
    destruct (@cmdDel_rejected cid nspath netConf ifName args w _ _ He Hf Hd) as (w' & E & _).
    eauto.
Qed.

(** Find a closed event in a closed list. *)
Ltac pick :=
  vm_compute; repeat first [ left; reflexivity | right ].

Lemma cmdDel_idempotent_witness :
  enterable (kern (world [] two_ips [])) netns /\
  ((find_link (kern (world [] two_ips [])) netns "eth0" = None ->
    exists w',
      del (world [] two_ips []) = (w', Val tt) /\
      links (kern w') = links (kern (world [] two_ips []))) /\
   (forall w1,
       del (world [] two_ips []) = (w1, Val tt) ->
       exists w2, del w1 = (w2, Val tt) /\ links (kern w2) = links (kern w1)) /\
   (forall l e,
       find_link (kern (world [] two_ips [])) netns "eth0" = Some l ->
       rejected (kern (world [] two_ips [])) "LinkDel" = Some e ->
       exists w' e', del (world [] two_ips []) = (w', Throw e'))).
Proof.
  assert (He : enterable (kern (world [] two_ips [])) netns)
    by (repeat split; reflexivity).
  split; [exact He|].
  exact (@cmdDel_idempotent contID netns "veth.conf" "eth0" EmptyString
           (world [] two_ips []) He).
Defined.

(** ** ADD with a malformed route *)

(** C1, as stated, fails: the second entry of the route list is
    malformed, ADD returns the parse error, and the route of the
    first entry has been installed in the container. *)
Lemma cmdAdd_partial_routes :
  let w := world ["10.1.0.0/24"; "not-a-cidr"] two_ips [] in
  let w' := fst (add w) in
  malformed deps "not-a-cidr" = true /\
  snd (add w)
  = Throw (parse_error deps "not-a-cidr"
             (errorString "invalid CIDR address: not-a-cidr")) /\
  In (EvAddRoute (mkIPNet [10; 1; 0; 0] [255; 255; 255; 0])%Z [10; 0; 0; 0]%Z
                 (mkLink 3 "eth0") (Ok tt))
     (calls w w') /\
  existsb installs (calls w w') = true /\
  routes (kern w')
  = [(netns, mkIPNet [10; 1; 0; 0] [255; 255; 255; 0], [10; 0; 0; 0],
      "eth0")]%Z.
Proof.
  intros w w'.
  split; [vm_compute; reflexivity|].
  split; [vm_compute; reflexivity|].
  split; [pick|].
  split; vm_compute; reflexivity.
Qed.

Lemma cmdAdd_malformed_route_witness :
  let conf := mkNet ["10.1.0.0/24"; "not-a-cidr"; "10.2.0.0/16"] in
  let w := world (Routes conf) two_ips [] in
  let w' := fst (add w) in
  let o := snd (add w) in
  In (EvLoadNet "veth.conf" (Ok conf)) (calls w w') /\
  (exists r, In r (Routes conf) /\ malformed deps r = true) /\
  (forall ev, In ev (calls w w') -> failed_call ev = true ->
              exists s e, ev = EvParseCIDR s (Failed e)) /\
  (forall p, o <> Panic p) /\
  ((exists e, o = Throw e) \/ (exists p, o = Panic p)) /\
  (exists n, route_attempts (calls w w')
             = firstn n (destinations deps
                           (well_formed_prefix deps (Routes conf)))) /\
  (forall r rest, Routes conf = r :: rest -> malformed deps r = true ->
                  route_attempts (calls w w') = []) /\
  (exists r e rest,
      Routes conf = well_formed_prefix deps (Routes conf) ++ r :: rest /\
      ParseCIDR deps r = Failed e /\
      o = Throw (parse_error deps r e) /\
      In (EvParseCIDR r (Failed e)) (calls w w') /\
      route_attempts (calls w w')
      = destinations deps (well_formed_prefix deps (Routes conf))).
Proof.
  intros conf w w' o.
  assert (H1 : add w = (w', o)) by (vm_compute; reflexivity).
  assert (H2 : In (EvLoadNet "veth.conf" (Ok conf)) (calls w w')) by pick.
  assert (H3 : exists r, In r (Routes conf) /\ malformed deps r = true)
    by (exists "not-a-cidr"; split; [pick | vm_compute; reflexivity]).
  assert (H4 : forall ev, In ev (calls w w') -> failed_call ev = true ->
                          exists s e, ev = EvParseCIDR s (Failed e)).
  { intros ev Hin F. vm_compute in Hin.
    repeat (destruct Hin as [<-|Hin];
            [ first [ discriminate F | eexists; eexists; reflexivity ] |]).
    destruct Hin. }
  assert (H5 : forall p, o <> Panic p) by (intros p; vm_compute; discriminate).
  split; [exact H2|]. split; [exact H3|]. split; [exact H4|].
  split; [exact H5|].
  split; [exact (proj1 (@cmdAdd_malformed_route _ deps contID netns
                          "veth.conf" "eth0" EmptyString w w' o conf
                          H1 H2 H3))|].
  split; [exact (proj1 (proj2 (@cmdAdd_malformed_route _ deps contID netns
                                 "veth.conf" "eth0" EmptyString w w' o conf
                                 H1 H2 H3)))|].
  split; [exact (proj1 (proj2 (proj2 (@cmdAdd_malformed_route _ deps contID
                                        netns "veth.conf" "eth0" EmptyString
                                        w w' o conf H1 H2 H3))))|].
  exact (proj2 (proj2 (proj2 (@cmdAdd_malformed_route _ deps contID netns
                                "veth.conf" "eth0" EmptyString w w' o conf
                                H1 H2 H3))) H4 H5).
Defined.

(** ** The payload *)

Lemma success_payload_witness :
  let w := world ["10.1.0.0/24"] two_ips [] in
  add w = (fst (add w), Val tt) /\
  stdout (fst (add w)) = ["10.0.0.1/31"] /\
  (exists cid hostIP contIP more,
      In (EvAllocPtP cid "veth.conf" "eth0" EmptyString
                     (Ok (hostIP :: contIP :: more)))
         (calls w (fst (add w))) /\
      stdout (fst (add w))
      = stdout w
        ++ [IPNet_String deps (mkIPNet contIP [255; 255; 255; 254]%Z)]) /\
  stdout (fst (del (fst (add w)))) = stdout (fst (add w)).
Proof.
  intros w.
  assert (H1 : add w = (fst (add w), Val tt)) by (vm_compute; reflexivity).
  split; [exact H1|]. split; [vm_compute; reflexivity|].
  split.
  - exact (proj1 (@success_payload _ deps contID netns "veth.conf" "eth0"
                    EmptyString w (fst (add w))) H1).
  - exact (proj2 (@success_payload _ deps contID netns "veth.conf" "eth0"
                    EmptyString (fst (add w)) (fst (del (fst (add w)))))
                 (snd (del (fst (add w))))
                 (surjective_pairing (del (fst (add w))))).
Defined.

(** ** The host route *)

Lemma cmdAdd_host_route_exists_witness :
  let w := world ["10.1.0.0/24"] two_ips [("AddHostRoute", Errno EEXIST)] in
  let w' := fst (add w) in
  let o := snd (add w) in
  let ipn := mkIPNet [10; 0; 0; 0]%Z [255; 255; 255; 254]%Z in
  let dev := mkLink 3 "veth6733c088" in
  In (EvAddHostRoute ipn [] dev (Failed (Errno EEXIST))) (calls w w') /\
  o = Val tt /\
  (IsExist (Errno EEXIST) = true -> o = Val tt) /\
  (IsExist (Errno EEXIST) = false ->
   o = Throw (host_route_error deps (Errno EEXIST))).
Proof.
  intros w w' o ipn dev.
  assert (H1 : add w = (w', o)) by (vm_compute; reflexivity).
  assert (H2 : In (EvAddHostRoute ipn [] dev (Failed (Errno EEXIST)))
                  (calls w w')) by pick.
  split; [exact H2|]. split; [vm_compute; reflexivity|].
  exact (@cmdAdd_host_route_exists _ deps contID netns "veth.conf" "eth0"
           EmptyString w w' o ipn [] dev (Errno EEXIST) H1 H2).
Defined.

(** A host route rejected for another reason makes ADD fail. *)
Lemma cmdAdd_host_route_rejected :
  let w := world ["10.1.0.0/24"] two_ips [("AddHostRoute", Errno 1)] in
  snd (add w)
  = Throw (errorString "failed to add route on host: operation not permitted")
  /\ stdout (fst (add w)) = [].
Proof. split; vm_compute; reflexivity. Qed.

(** ** How errors are returned *)

(** C7, as stated, fails: the address assignment is rejected, and
    the error ADD returns names the operation and carries the text
    of the kernel's error, but none of the identifiers of the
    invocation: not the host-side interface, not its address. *)
Lemma cmdAdd_unidentified_error :
  let w := world ["10.1.0.0/24"] two_ips [("AddrAdd", Errno 1)] in
  let msg := "failed to add IP addr to veth: operation not permitted" in
  In (EvAddrAdd (mkLink 3 "veth6733c088")
                (mkAddr (mkIPNet [10; 0; 0; 0]%Z [255; 255; 255; 254]%Z)
                        EmptyString)
                (Failed (Errno 1)))
     (calls w (fst (add w))) /\
  snd (add w) = Throw (errorString msg) /\
  forallb (fun id => negb (contains id msg))
          [contID; netns; "veth.conf"; "eth0"; "veth6733c088";
           "10.0.0.0/31"; "10.0.0.1/31"; "10.0.0.0"] = true.
Proof.
  intros w msg. split; [pick|]. split; vm_compute; reflexivity.
Qed.

Lemma cmdAdd_error_wrapping_witness :
  let e := errorString "no addresses left in the pool" in
  let w := world ["10.1.0.0/24"] (Failed e) [] in
  let w' := fst (add w) in
  In (EvAllocPtP [103; 51; 192; 136; 165; 7; 70; 148; 170; 191; 240; 224;
                  197; 75; 27; 171]%Z
                 "veth.conf" "eth0" EmptyString (Failed e))
     (calls w w') /\
  snd (add w) = Throw e.
Proof.
  intros e w w'.
  assert (H1 : add w = (w', snd (add w))) by (vm_compute; reflexivity).
  assert (H2 : In (EvAllocPtP [103; 51; 192; 136; 165; 7; 70; 148; 170; 191;
                               240; 224; 197; 75; 27; 171]%Z
                              "veth.conf" "eth0" EmptyString (Failed e))
                  (calls w w')) by pick.
  split; [exact H2|].
  exact (proj1 (@cmdAdd_error_wrapping _ deps contID netns "veth.conf" "eth0"
                  EmptyString w w' (snd (add w)) H1) _ e H2).
Defined.

(** The steps whose errors are wrapped, one failure each. *)
Lemma cmdAdd_wrapped_errors :
  snd (cmdAdd deps "c1" netns "veth.conf" "eth0" EmptyString
         (world [] two_ips []))
  = Throw (errorString "error parsing ContainerID: bad UUID length != 32") /\
  snd (cmdAdd deps contID netns "none.conf" "eth0" EmptyString
         (world [] two_ips []))
  = Throw (load_error deps "none.conf"
             (PathError "open" "none.conf" (Errno 2))) /\
  snd (add (world ["10.1.0.0/24"] two_ips [("AddRoute", Errno 22)]))
  = Throw (route_error deps (mkIPNet [10; 1; 0; 0] [255; 255; 255; 0])%Z
             (Errno 22)) /\
  snd (add (world [] two_ips [("LinkByName", Errno 19)]))
  = Throw (lookup_error deps "veth6733c088" (Errno 19)) /\
  snd (add (world [] two_ips [("SetupVeth", Errno 1)])) = Throw (Errno 1).
Proof.
  split; [vm_compute; reflexivity|]. split; [vm_compute; reflexivity|].
  split; [vm_compute; reflexivity|]. split; vm_compute; reflexivity.
Qed.

(** ** The host side of ADD *)

Lemma cmdAdd_reresolves_host_veth_witness :
  let w := world ["10.1.0.0/24"] two_ips [] in
  let w' := fst (add w) in
  snd (add w) = Val tt /\
  (exists pre hostNS cid hostIP contIP more hostVeth contVeth hostVeth' r,
      calls w w'
      = pre ++ [EvRestoreNS hostNS (Ok tt);
                EvLinkByName (Name hostVeth) (Ok hostVeth');
                EvAddrAdd hostVeth'
                  (mkAddr (mkIPNet hostIP [255; 255; 255; 254]%Z) EmptyString)
                  (Ok tt);
                EvAddHostRoute (mkIPNet hostIP [255; 255; 255; 254]%Z) []
                  hostVeth' r] /\
      In (EvAllocPtP cid "veth.conf" "eth0" EmptyString
                     (Ok (hostIP :: contIP :: more))) pre /\
      In (EvSetupVeth (contID ++ "eth0")%string "eth0"
            (mkIPNet contIP [255; 255; 255; 254]%Z) hostNS
            (Ok (hostVeth, contVeth))) pre /\
      forallb (fun ev => negb (host_side ev)) pre = true).
Proof.
  intros w w'.
  assert (H1 : add w = (w', snd (add w))) by (vm_compute; reflexivity).
  assert (H2 : snd (add w) = Val tt) by (vm_compute; reflexivity).
  split; [exact H2|].
  exact (proj1 (@cmdAdd_reresolves_host_veth _ deps contID netns "veth.conf"
                  "eth0" EmptyString w w' (snd (add w)) H1) H2).
Defined.

(** The interface the address goes to is the one looked up by name:
    the index [SetupVeth] returned for the host end is stale once
    the interface is in the host namespace. *)
Lemma cmdAdd_stale_index :
  let w := world ["10.1.0.0/24"] two_ips [] in
  let calls' := calls w (fst (add w)) in
  In (EvSetupVeth (contID ++ "eth0")%string "eth0"
        (mkIPNet [10; 0; 0; 1] [255; 255; 255; 254])%Z
        (mkFile 3 "/proc/self/ns/net")
        (Ok (mkLink 2 "veth6733c088", mkLink 3 "eth0"))) calls' /\
  In (EvLinkByName "veth6733c088" (Ok (mkLink 3 "veth6733c088"))) calls' /\
  In (EvAddrAdd (mkLink 3 "veth6733c088")
        (mkAddr (mkIPNet [10; 0; 0; 0] [255; 255; 255; 254])%Z EmptyString)
        (Ok tt)) calls'.
Proof. intros w calls'. split; [pick|]. split; pick. Qed.

(** ** Short allocations *)

Lemma cmdAdd_short_allocation_witness :
  let w := world ["10.1.0.0/24"] (Ok [[10; 0; 0; 0]%Z]) [] in
  let w' := fst (add w) in
  let o := snd (add w) in
  let cid := [103; 51; 192; 136; 165; 7; 70; 148; 170; 191; 240; 224;
              197; 75; 27; 171]%Z in
  In (EvAllocPtP cid "veth.conf" "eth0" EmptyString (Ok [[10; 0; 0; 0]%Z]))
     (calls w w') /\
  (List.length [[10; 0; 0; 0]%Z] < 2)%nat /\
  o = Panic "runtime error: index out of range" /\
  (forall e, o <> Throw e) /\
  forallb (fun ev => negb (namespace_sensitive ev)) (calls w w') = true /\
  stdout w' = stdout w.
Proof.
  intros w w' o cid.
  assert (H1 : add w = (w', o)) by (vm_compute; reflexivity).
  assert (H2 : In (EvAllocPtP cid "veth.conf" "eth0" EmptyString
                              (Ok [[10; 0; 0; 0]%Z])) (calls w w')) by pick.
  assert (H3 : (List.length [[10; 0; 0; 0]%Z] < 2)%nat) by (simpl; lia).
  split; [exact H2|]. split; [exact H3|].
  exact (@cmdAdd_short_allocation _ deps contID netns "veth.conf" "eth0"
           EmptyString w w' o cid [[10; 0; 0; 0]%Z] H1 H2 H3).
Defined.

(** ** The dispatcher *)

Lemma main_missing_parameter_witness :
  let env := [("RKT_NETPLUGIN_COMMAND", "ADD");
              ("RKT_NETPLUGIN_CONTID", contID);
              ("RKT_NETPLUGIN_NETNS", netns);
              ("RKT_NETPLUGIN_IFNAME", "eth0")] in
  let w := world ["10.1.0.0/24"] two_ips [] in
  Getenv env "RKT_NETPLUGIN_NETCONF" = EmptyString /\
  (exists w',
      main deps env ["veth"] w = (w', Exit 1) /\
      exit_status (Exit 1) <> 0%Z /\
      kern w' = kern w /\ trace w' = trace w /\ stdout w' = stdout w /\
      stderr w'
      = stderr w ++ ["Required env variable missing";
                     ("Env: " ++ Sprint_strings (Environ env))%string]) /\
  (exists r rest,
      calls w (fst (main deps (environ "ADD" "veth.conf") ["veth"] w))
      = EvNewUUID (Getenv (environ "ADD" "veth.conf") "RKT_NETPLUGIN_CONTID")
                  r :: rest).
Proof.
  intros env w.
  assert (H0 : Getenv env "RKT_NETPLUGIN_NETCONF" = EmptyString)
    by reflexivity.
  split; [exact H0|]. split.
  - exact (proj1 (@main_missing_parameter _ deps env ["veth"] w)
                 (or_intror (or_intror (or_intror (or_intror H0))))).
  - refine (proj1 (proj2 (@main_missing_parameter _ deps
                            (environ "ADD" "veth.conf") ["veth"] w)
                         _ _ _ _ _ _ _ _
                         (surjective_pairing _)) _);
      try (vm_compute; discriminate); vm_compute; reflexivity.
Defined.

(** C6, on the code: the operation fails (the configuration cannot
    be loaded) and the process was started without arguments, as the
    parameters are passed in the environment: [main] panics on
    [os.Args[1]] and logs nothing.  Started with an argument, it
    logs that argument before the error, not the command. *)
Theorem main_error_report_uses_first_argument :
  let env := environ "ADD" "none.conf" in
  let w := world [] two_ips [] in
  let e := load_error deps "none.conf"
             (PathError "open" "none.conf" (Errno 2)) in
  main_dispatch deps "ADD" contID netns "none.conf" "eth0" EmptyString w
  = (fst (main deps env ["veth"] w), Val (Some e)) /\
  snd (main deps env ["veth"] w) = Panic "runtime error: index out of range" /\
  stderr (fst (main deps env ["veth"] w)) = [] /\
  snd (main deps env ["veth"; "stage1"] w) = Exit 1 /\
  stderr (fst (main deps env ["veth"; "stage1"] w))
  = [("stage1: " ++ Error deps e)%string] /\
  contains "ADD" ("stage1: " ++ Error deps e)%string = false.
Proof.
  intros env w e.
  split; [vm_compute; reflexivity|]. split; [vm_compute; reflexivity|].
  split; [vm_compute; reflexivity|]. split; [vm_compute; reflexivity|].
  split; vm_compute; reflexivity.
Qed.

(** ** The thread lock *)

Lemma process_thread_bound_witness :
  let w := world ["10.1.0.0/24"] two_ips [] in
  let w' := fst (process deps (environ "ADD" "veth.conf") ["veth"] w) in
  locked w = None /\
  exists t rest,
    emitted w w' = (t, EvLockOSThread) :: rest /\
    locked w' = Some t /\
    Forall (fun te => fst te = t /\ is_lock (snd te) = false) rest /\
    Forall (fun te => namespace_sensitive (snd te) = true -> fst te = t)
           (emitted w w').
Proof.
  intros w w'.
  assert (H0 : locked w = None) by reflexivity.
  split; [exact H0|].
  exact (@process_thread_bound _ deps (environ "ADD" "veth.conf") ["veth"]
           w w' (snd (process deps (environ "ADD" "veth.conf") ["veth"] w))
           H0 (surjective_pairing _)).
Defined.

(** Without the lock, the scheduler of the simulated host runs the
    entry into the namespace and the restoration on different
    threads. *)
Lemma main_unlocked_migrates :
  let w := world ["10.1.0.0/24"] two_ips [] in
  let w' := fst (main deps (environ "ADD" "veth.conf") ["veth"] w) in
  In (3%nat, EvEnterNS netns (Ok (mkFile 3 "/proc/self/ns/net")))
     (emitted w w') /\
  In (7%nat, EvRestoreNS (mkFile 3 "/proc/self/ns/net") (Ok tt))
     (emitted w w').
Proof. intros w w'. split; pick. Qed.

(** ** End to end *)

(** ADD on the simulated host: the payload, the interfaces, the
    addresses and the routes it leaves. *)
Lemma cmdAdd_end_to_end :
  let w' := fst (add (world ["10.1.0.0/24"] two_ips [])) in
  stdout w' = ["10.0.0.1/31"] /\
  find_link (kern w') netns "eth0" = Some (mkLink 3 "eth0") /\
  find_link (kern w') "/proc/self/ns/net" "veth6733c088"
  = Some (mkLink 3 "veth6733c088") /\
  addrs (kern w')
  = [(netns, "eth0", mkIPNet [10; 0; 0; 1] [255; 255; 255; 254]);
     ("/proc/self/ns/net", "veth6733c088",
      mkIPNet [10; 0; 0; 0] [255; 255; 255; 254])]%Z /\
  routes (kern w')
  = [(netns, mkIPNet [10; 1; 0; 0] [255; 255; 255; 0], [10; 0; 0; 0], "eth0");
     ("/proc/self/ns/net", mkIPNet [10; 0; 0; 0] [255; 255; 255; 254], [],
      "veth6733c088")]%Z /\
  active (kern w') = "/proc/self/ns/net".
Proof.
  intros w'.
  split; [vm_compute; reflexivity|]. split; [vm_compute; reflexivity|].
  split; [vm_compute; reflexivity|]. split; [vm_compute; reflexivity|].
  split; vm_compute; reflexivity.
Qed.

(** DEL after ADD removes the interface of the container, and a
    second DEL succeeds as well. *)
Lemma cmdDel_after_add :
  let w1 := fst (add (world ["10.1.0.0/24"] two_ips [])) in
  let w2 := fst (del w1) in
  snd (del w1) = Val tt /\
  find_link (kern w2) netns "eth0" = None /\
  snd (del w2) = Val tt /\
  stdout w2 = stdout w1.
Proof.
  intros w1 w2.
  split; [vm_compute; reflexivity|]. split; [vm_compute; reflexivity|].
  split; vm_compute; reflexivity.
Qed.

(** ** Further runs on the simulated host *)

Lemma operations_are_silent_witness :
  let w := world ["10.1.0.0/24"; "bogus"] two_ips [] in
  snd (add w) <> Val tt /\
  stderr (fst (add w)) = stderr w /\
  stdout (fst (add w)) = stdout w /\
  stderr (fst (del w)) = stderr w.
Proof.
  intros w.
  assert (H1 : snd (add w) <> Val tt) by (vm_compute; discriminate).
  split; [exact H1|].
  split; [|split].
  - exact (proj1 (proj1 (@operations_are_silent _ deps contID netns
                           "veth.conf" "eth0" EmptyString w (fst (add w))
                           (snd (add w)))
                        (surjective_pairing (add w)))).
  - exact (proj2 (proj1 (@operations_are_silent _ deps contID netns
                           "veth.conf" "eth0" EmptyString w (fst (add w))
                           (snd (add w)))
                        (surjective_pairing (add w))) H1).
  - exact (proj2 (@operations_are_silent _ deps contID netns
                    "veth.conf" "eth0" EmptyString w (fst (del w))
                    (snd (del w)))
                 (surjective_pairing (del w))).
Defined.

Lemma cmdAdd_allocates_after_validation_witness :
  let w := world ["10.1.0.0/24"] two_ips [] in
  let w' := fst (add w) in
  (forall e, In (EvNewUUID contID (Failed e)) (calls w w') ->
             calls w w' = [EvNewUUID contID (Failed e)]) /\
  (forall e, In (EvLoadNet "veth.conf" (Failed e)) (calls w w') ->
             exists cid, calls w w' = [EvNewUUID contID (Ok cid);
                                       EvLoadNet "veth.conf" (Failed e)]) /\
  (forall cid nc ifn a r,
      In (EvAllocPtP cid nc ifn a r) (calls w w') ->
      nc = "veth.conf" /\ ifn = "eth0" /\ a = EmptyString /\
      exists conf rest,
        calls w w' = EvNewUUID contID (Ok cid)
                     :: EvLoadNet "veth.conf" (Ok conf)
                     :: EvAllocPtP cid "veth.conf" "eth0" EmptyString r
                     :: rest).
Proof.
  intros w w'.
  exact (@cmdAdd_allocates_after_validation _ deps contID netns "veth.conf"
           "eth0" EmptyString w w' (snd (add w)) (surjective_pairing (add w))).
Defined.

Lemma cmdAdd_routes_via_host_ip_witness :
  let w := world ["10.1.0.0/24"] two_ips [] in
  let w' := fst (add w) in
  let dst := mkIPNet [10; 1; 0; 0]%Z [255; 255; 255; 0]%Z in
  let gw := [10; 0; 0; 0]%Z in
  let dev := mkLink 3 "eth0" in
  In (EvAddRoute dst gw dev (Ok tt)) (calls w w') /\
  exists cid conf hostIP contIP more hostNS hostVeth,
    In (EvLoadNet "veth.conf" (Ok conf)) (calls w w') /\
    In (EvAllocPtP cid "veth.conf" "eth0" EmptyString
                   (Ok (hostIP :: contIP :: more)))
       (calls w w') /\
    In (EvSetupVeth (contID ++ "eth0")%string "eth0"
          (mkIPNet contIP [255; 255; 255; 254]%Z) hostNS (Ok (hostVeth, dev)))
       (calls w w') /\
    gw = hostIP /\
    exists s, In s (Routes conf) /\ ParseCIDR deps s = Ok dst.
Proof.
  intros w w' dst gw dev.
  assert (H1 : In (EvAddRoute dst gw dev (Ok tt)) (calls w w')) by pick.
  split; [exact H1|].
  exact (@cmdAdd_routes_via_host_ip _ deps contID netns "veth.conf" "eth0"
           EmptyString w w' (snd (add w)) dst gw dev (Ok tt)
           (surjective_pairing (add w)) H1).
Defined.

Lemma cmdAdd_success_installs_all_routes_witness :
  let w := world ["10.1.0.0/24"; "192.168.0.0/16"] two_ips [] in
  let w' := fst (add w) in
  add w = (w', Val tt) /\
  exists conf,
    In (EvLoadNet "veth.conf" (Ok conf)) (calls w w') /\
    route_attempts (calls w w') = destinations deps (Routes conf) /\
    List.length (route_attempts (calls w w')) = List.length (Routes conf) /\
    existsb route_rejected (calls w w') = false.
Proof.
  intros w w'.
  assert (H1 : add w = (w', Val tt)) by (vm_compute; reflexivity).
  split; [exact H1|].
  exact (@cmdAdd_success_installs_all_routes _ deps contID netns "veth.conf"
           "eth0" EmptyString w w' H1).
Defined.

Lemma cmdAdd_never_deletes_witness :
  let w := world ["10.1.0.0/24"] two_ips [("AddRoute", Errno 1)] in
  let w' := fst (add w) in
  snd (add w) <> Val tt /\
  forall name r, ~ In (EvDelLinkByName name r) (calls w w').
Proof.
  intros w w'.
  split; [vm_compute; discriminate|].
  exact (@cmdAdd_never_deletes _ deps contID netns "veth.conf" "eth0"
           EmptyString w w' (snd (add w)) (surjective_pairing (add w))).
Defined.

Lemma cmdDel_calls_witness :
  let w := fst (add (world ["10.1.0.0/24"] two_ips [])) in
  let w' := fst (del w) in
  let o := snd (del w) in
  (exists e, calls w w' = [EvEnterNS netns (Failed e)] /\ o = Throw e) \/
  (exists hostNS r r',
      calls w w' = [EvEnterNS netns (Ok hostNS);
                    EvDelLinkByName "eth0" r;
                    EvRestoreNS hostNS r'] /\
      o = after_restore (lift r) r').
Proof.
  intros w w' o.
  exact (@cmdDel_calls _ deps contID netns "veth.conf" "eth0" EmptyString
           w w' o (surjective_pairing (del w))).
Defined.

Lemma cmdAdd_namespace_bracket_witness :
  let w := world ["10.1.0.0/24"] two_ips [] in
  let w' := fst (add w) in
  forallb prelude (calls w w') = true \/
  (exists a e,
      calls w w' = a ++ [EvEnterNS netns (Failed e)] /\
      forallb prelude a = true) \/
  (exists a hostNS b r c,
      calls w w' = a ++ EvEnterNS netns (Ok hostNS) :: b
                     ++ EvRestoreNS hostNS r :: c /\
      forallb prelude a = true /\ forallb inside_ns b = true /\
      forallb host_side c = true /\ (c <> [] -> r = Ok tt)).
Proof.
  intros w w'.
  exact (@cmdAdd_namespace_bracket _ deps contID netns "veth.conf" "eth0"
           EmptyString w w' (snd (add w)) (surjective_pairing (add w))).
Defined.

Lemma main_unknown_command_witness :
  let env := environ "CHECK" "veth.conf" in
  let w := world ["10.1.0.0/24"] two_ips [] in
  exists w',
    main deps env ["veth"] w = (w', Exit 1) /\
    kern w' = kern w /\ trace w' = trace w /\ stdout w' = stdout w /\
    stderr w'
    = stderr w ++ [("Unknown RKT_NETPLUGIN_COMMAND: "
                    ++ Getenv env "RKT_NETPLUGIN_COMMAND")%string].
Proof.
  intros env w.
  refine (@main_unknown_command _ deps env ["veth"] w _ _ _ _ _ _ _);
    vm_compute; discriminate.
Defined.

Lemma main_exit_status_witness :
  let env := environ "ADD" "veth.conf" in
  let w := world ["10.1.0.0/24"] two_ips [] in
  let w' := fst (main deps env ["veth"] w) in
  let o := snd (main deps env ["veth"] w) in
  exit_status o = 0%Z <->
  (Getenv env "RKT_NETPLUGIN_COMMAND" = "ADD" /\
   cmdAdd deps (Getenv env "RKT_NETPLUGIN_CONTID")
          (Getenv env "RKT_NETPLUGIN_NETNS")
          (Getenv env "RKT_NETPLUGIN_NETCONF")
          (Getenv env "RKT_NETPLUGIN_IFNAME")
          (Getenv env "RKT_NETPLUGIN_ARGS") w = (w', Val tt)) \/
  (Getenv env "RKT_NETPLUGIN_COMMAND" = "DEL" /\
   cmdDel deps (Getenv env "RKT_NETPLUGIN_CONTID")
          (Getenv env "RKT_NETPLUGIN_NETNS")
          (Getenv env "RKT_NETPLUGIN_NETCONF")
          (Getenv env "RKT_NETPLUGIN_IFNAME")
          (Getenv env "RKT_NETPLUGIN_ARGS") w = (w', Val tt)).
Proof.
  intros env w w' o.
  refine (@main_exit_status _ deps env ["veth"] w w' o _ _ _ _ _
            (surjective_pairing _));
    vm_compute; discriminate.
Defined.

Lemma cmdAdd_stops_at_first_failure_witness :
  let w := world ["10.1.0.0/24"; "192.168.0.0/16"] two_ips
                 [("AddRoute", Errno 1)] in
  let w' := fst (add w) in
  let pre := firstn 6 (calls w w') in
  let ev := EvAddRoute (mkIPNet [10; 1; 0; 0]%Z [255; 255; 255; 0]%Z)
                       [10; 0; 0; 0]%Z (mkLink 3 "eth0") (Failed (Errno 1)) in
  let post := skipn 7 (calls w w') in
  calls w w' = pre ++ ev :: post /\
  failed_call ev = true /\
  (post = [] \/
   (inside_ns ev = true /\ exists hostNS r, post = [EvRestoreNS hostNS r])).
Proof.
  intros w w' pre ev post.
  assert (H1 : calls w w' = pre ++ ev :: post) by (vm_compute; reflexivity).
  assert (H2 : failed_call ev = true) by reflexivity.
  split; [exact H1|]. split; [exact H2|].
  exact (@cmdAdd_stops_at_first_failure _ deps contID netns "veth.conf" "eth0"
           EmptyString w w' (snd (add w)) pre ev post
           (surjective_pairing (add w)) H1 H2).
Defined.

End SimFacts.

(** * The [run] command *)

Unset Implicit Arguments.

(** ** [strings.Split] *)

Section SplitFacts.

Variable sep : ascii.

Lemma strings_Split_nonempty s : strings_Split sep s <> [].
Proof.
  destruct s as [|c s]; simpl; [discriminate|].
  destruct (strings_Split sep s); [discriminate|].
  destruct (Ascii.eqb c sep); discriminate.
Qed.

(** Joining the fields with the separator gives the string back. *)
Lemma strings_Split_join s :
  String.concat (String sep EmptyString) (strings_Split sep s) = s.
Proof.
  induction s as [|c s IH]; simpl; [reflexivity|].
  pose proof (strings_Split_nonempty s) as NE.
  destruct (strings_Split sep s) as [|f fs]; [contradiction|].
  destruct (Ascii.eqb c sep) eqn:E.
  - apply Ascii.eqb_eq in E. subst c.
    change (String.concat (String sep EmptyString) (EmptyString :: f :: fs))
      with (String sep (String.concat (String sep EmptyString) (f :: fs))).
    rewrite IH. reflexivity.
  - rewrite <- IH. destruct fs; reflexivity.
Qed.

(** No field contains the separator. *)
Lemma strings_Split_fields s :
  Forall (fun f => string_mem sep f = false) (strings_Split sep s).
Proof.
  induction s as [|c s IH]; simpl; [repeat constructor|].
  pose proof (strings_Split_nonempty s) as NE.
  destruct (strings_Split sep s) as [|f fs]; [contradiction|].
  inversion IH; subst.
  destruct (Ascii.eqb c sep) eqn:E.
  - constructor; [reflexivity|]. constructor; assumption.
  - constructor; [|assumption]. simpl. rewrite E. assumption.
Qed.

Lemma strings_Split_no_sep s :
  string_mem sep s = false -> strings_Split sep s = [s].
Proof.
  induction s as [|c s IH]; simpl; [reflexivity|].
  intros H. apply orb_false_iff in H. destruct H as [E M].
  rewrite (IH M), E. reflexivity.
Qed.

Lemma strings_Split_app a b :
  string_mem sep a = false ->
  strings_Split sep (a ++ String sep b)%string = a :: strings_Split sep b.
Proof.
  induction a as [|c a IH]; simpl.
  - intros _. pose proof (strings_Split_nonempty b) as NE.
    destruct (strings_Split sep b); [contradiction|].
    rewrite Ascii.eqb_refl. reflexivity.
  - intros H. apply orb_false_iff in H. destruct H as [E M].
    rewrite (IH M), E. reflexivity.
Qed.

(** Exactly two fields: exactly one separator. *)
Lemma strings_Split_two s a b :
  strings_Split sep s = [a; b] <->
  s = (a ++ String sep b)%string /\
  string_mem sep a = false /\ string_mem sep b = false.
Proof.
  split.
  - intros H. pose proof (strings_Split_join s) as J.
    pose proof (strings_Split_fields s) as F. rewrite H in J, F.
    apply Forall_cons_iff in F. destruct F as [Fa F].
    apply Forall_cons_iff in F. destruct F as [Fb _].
    split; [|auto]. rewrite <- J. simpl.
    clear. induction a; simpl; congruence.
  - intros (-> & Ha & Hb).
    rewrite (strings_Split_app a b Ha), (strings_Split_no_sep b Hb).
    reflexivity.
Qed.

End SplitFacts.

(** ** [volumeMap] *)

Section VolumeFacts.

Variable Quote : string -> string.

Lemma vm_get_app_None vm key path k :
  vm_get vm k = None ->
  vm_get (vm ++ [(key, path)]) k = if String.eqb key k then Some path else None.
Proof.
  induction vm as [|[k0 v0] vm IH]; simpl; [reflexivity|].
  destruct (String.eqb k0 k); [discriminate|]. exact IH.
Qed.

Lemma vm_get_app_Some vm entry k v :
  vm_get vm k = Some v -> vm_get (vm ++ [entry]) k = Some v.
Proof.
  induction vm as [|[k0 v0] vm IH]; simpl; [discriminate|].
  destruct (String.eqb k0 k); [auto|]. exact IH.
Qed.

Lemma vm_get_None_not_key vm k :
  vm_get vm k = None -> ~ In k (map fst vm).
Proof.
  induction vm as [|[k0 v0] vm IH]; simpl; [tauto|].
  destruct (String.eqb k0 k) eqn:E; [discriminate|].
  apply String.eqb_neq in E. intros H [H0|H0]; [contradiction|].
  exact (IH H H0).
Qed.

Lemma two_fields (l : list string) :
  List.length l = 2%nat -> l = [nth 0 l EmptyString; nth 1 l EmptyString].
Proof.
  destruct l as [|a [|b [|c l]]]; simpl; try discriminate. reflexivity.
Qed.

Lemma volumeMap_Set_Ok vm s vm' :
  volumeMap_Set Quote vm s = (vm', Ok tt) ->
  exists key path,
    s = (key ++ ":" ++ path)%string /\
    string_mem ":" key = false /\ string_mem ":" path = false /\
    vm_get vm key = None /\ vm' = vm ++ [(key, path)].
Proof.
  unfold volumeMap_Set.
  destruct (Nat.eqb (List.length (strings_Split ":" s)) 2) eqn:L; simpl;
    [|discriminate].
  apply Nat.eqb_eq in L. apply two_fields in L.
  set (key := nth 0 (strings_Split ":" s) EmptyString) in *.
  set (path := nth 1 (strings_Split ":" s) EmptyString) in *.
  apply strings_Split_two in L. destruct L as (Hs & Hk & Hp).
  destruct (vm_get vm key) eqn:G; [discriminate|].
  intros [= <-]. exists key, path. auto.
Qed.

Lemma volumeMap_Set_accepts vm key path :
  string_mem ":" key = false -> string_mem ":" path = false ->
  vm_get vm key = None ->
  volumeMap_Set Quote vm (key ++ ":" ++ path)%string
  = (vm ++ [(key, path)], Ok tt).
Proof.
  intros Hk Hp G. unfold volumeMap_Set.
  assert (L : strings_Split ":" (key ++ ":" ++ path)%string = [key; path])
    by (apply strings_Split_two; auto).
  rewrite L. simpl. rewrite G. reflexivity.
Qed.

Lemma volumeMap_Set_Failed vm s vm' e :
  volumeMap_Set Quote vm s = (vm', Failed e) -> vm' = vm.
Proof.
  unfold volumeMap_Set.
  destruct (negb (Nat.eqb (List.length (strings_Split ":" s)) 2)).
  - intros [= <- _]. reflexivity.
  - destruct (vm_get vm (nth 0 (strings_Split ":" s) EmptyString));
      [|discriminate].
    intros [= <- _]. reflexivity.
Qed.

Lemma volumeMap_Set_NoDup vm s vm' r :
  volumeMap_Set Quote vm s = (vm', r) ->
  NoDup (map fst vm) -> NoDup (map fst vm').
Proof.
  intros E. destruct r as [[]|e].
  - apply volumeMap_Set_Ok in E.
    destruct E as (key & path & _ & _ & _ & G & ->).
    intros ND. rewrite map_app. simpl.
    apply NoDup_app; [exact ND | repeat constructor; simpl; tauto |].
    intros k Hk [E|[]]. subst k. exact (vm_get_None_not_key vm key G Hk).
  - apply volumeMap_Set_Failed in E. subst vm'. auto.
Qed.

(** X10: [Set] accepts exactly the texts [key:path] with one colon
    whose key is not yet in the map, and then adds that one entry. *)
Theorem volumeMap_Set_succeeds vm s vm' :
  volumeMap_Set Quote vm s = (vm', Ok tt) <->
  exists key path,
    s = (key ++ ":" ++ path)%string /\
    string_mem ":" key = false /\ string_mem ":" path = false /\
    vm_get vm key = None /\ vm' = vm ++ [(key, path)].
Proof.
  split.
  - apply volumeMap_Set_Ok.
  - intros (key & path & -> & Hk & Hp & G & ->).
    apply volumeMap_Set_accepts; assumption.
Qed.

(** X11: a [Set] that fails leaves the map as it is, and fails either
    because the text is not of the form [key:path] with one colon, or
    because the key is already in the map. *)
Theorem volumeMap_Set_fails vm s vm' e :
  volumeMap_Set Quote vm s = (vm', Failed e) ->
  vm' = vm /\
  ((e = errorString "volume must be of form key:path" /\
    List.length (strings_Split ":" s) <> 2%nat /\
    forall key path, string_mem ":" key = false ->
                     string_mem ":" path = false ->
                     s <> (key ++ ":" ++ path)%string) \/
   (exists key path v,
       s = (key ++ ":" ++ path)%string /\
       string_mem ":" key = false /\ string_mem ":" path = false /\
       vm_get vm key = Some v /\
       e = errorString ("got multiple flags for volume " ++ Quote key)%string)).
Proof.
  unfold volumeMap_Set.
  destruct (Nat.eqb (List.length (strings_Split ":" s)) 2) eqn:L; simpl.
  - apply Nat.eqb_eq in L. apply two_fields in L.
    set (key := nth 0 (strings_Split ":" s) EmptyString) in *.
    set (path := nth 1 (strings_Split ":" s) EmptyString) in *.
    apply strings_Split_two in L. destruct L as (Hs & Hk & Hp).
    destruct (vm_get vm key) as [v|] eqn:G; [|discriminate].
    intros [= <- <-]. split; [reflexivity|]. right.
    exists key, path, v. auto.
  - apply Nat.eqb_neq in L. intros [= <- <-]. split; [reflexivity|]. left.
    split; [reflexivity|]. split; [exact L|].
    intros key path Hk Hp Hs. apply L.
    assert (E : strings_Split ":" s = [key; path])
      by (apply strings_Split_two; auto).
    rewrite E. reflexivity.
Qed.

(** X12: [Set] keeps the keys of the map distinct and never changes or
    removes an entry that is there. *)
Theorem volumeMap_Set_keeps vm s vm' r :
  volumeMap_Set Quote vm s = (vm', r) ->
  (NoDup (map fst vm) -> NoDup (map fst vm')) /\
  (forall k v, vm_get vm k = Some v -> vm_get vm' k = Some v).
Proof.
  intros E. split; [exact (volumeMap_Set_NoDup _ _ _ _ E)|].
  destruct r as [[]|e].
  - apply volumeMap_Set_Ok in E.
    destruct E as (key & path & _ & _ & _ & _ & ->).
    intros k v Hg. apply vm_get_app_Some. exact Hg.
  - apply volumeMap_Set_Failed in E. subst vm'. auto.
Qed.

(** X13: what [Set] stored is what the lookup returns, and a second
    [Set] for the same key is refused, whatever its path. *)
Theorem volumeMap_Set_then_get vm key path path' :
  string_mem ":" key = false -> string_mem ":" path = false ->
  string_mem ":" path' = false ->
  vm_get vm key = None ->
  exists vm',
    volumeMap_Set Quote vm (key ++ ":" ++ path)%string = (vm', Ok tt) /\
    vm_get vm' key = Some path /\
    volumeMap_Set Quote vm' (key ++ ":" ++ path')%string
    = (vm', Failed (errorString
                      ("got multiple flags for volume " ++ Quote key)%string)).
Proof.
  intros Hk Hp Hp' G. exists (vm ++ [(key, path)]).
  assert (G' : vm_get (vm ++ [(key, path)]) key = Some path).
  { rewrite (vm_get_app_None vm key path key G), String.eqb_refl. reflexivity. }
  split; [|split; [exact G'|]].
  - apply volumeMap_Set_accepts; assumption.
  - unfold volumeMap_Set.
    assert (L : strings_Split ":" (key ++ ":" ++ path')%string = [key; path'])
      by (apply strings_Split_two; auto).
    rewrite L. simpl. rewrite G'. reflexivity.
Qed.

Lemma volumeMap_Set_all_entries flags :
  forall vm vm',
    volumeMap_Set_all Quote vm flags = (vm', Ok tt) ->
    exists entries,
      vm' = vm ++ entries /\
      map (fun kv => (fst kv ++ ":" ++ snd kv)%string) entries = flags.
Proof.
  induction flags as [|s flags IH]; simpl; intros vm vm' H.
  - inversion H; subst. exists []. rewrite app_nil_r. auto.
  - destruct (volumeMap_Set Quote vm s) as [vm1 [[]|e]] eqn:E;
      [|discriminate].
    apply volumeMap_Set_Ok in E.
    destruct E as (key & path & -> & _ & _ & _ & ->).
    apply IH in H. destruct H as (entries & -> & <-).
    exists ((key, path) :: entries). rewrite <- app_assoc. auto.
Qed.

Lemma volumeMap_Set_all_keeps flags :
  forall vm vm' r,
    volumeMap_Set_all Quote vm flags = (vm', r) ->
    NoDup (map fst vm) -> NoDup (map fst vm').
Proof.
  induction flags as [|s flags IH]; simpl; intros vm vm' r H ND.
  - inversion H; subst. exact ND.
  - destruct (volumeMap_Set Quote vm s) as [vm1 r1] eqn:E.
    pose proof (volumeMap_Set_NoDup _ _ _ _ E) as K.
    destruct r1 as [[]|e].
    + eapply IH; eauto.
    + inversion H; subst. auto.
Qed.

(** X14: round trip.  When the flags given to an empty map were all
    accepted, the map has one entry per flag, its keys are distinct,
    and the flags joined by commas are one of the texts [String] may
    return; with a single flag it is the only one. *)
Theorem volumeMap_round_trip flags vm' :
  volumeMap_Set_all Quote [] flags = (vm', Ok tt) ->
  List.length vm' = List.length flags /\
  NoDup (map fst vm') /\
  volumeMap_String vm' (String.concat "," flags) /\
  (forall s out, flags = [s] -> volumeMap_String vm' out -> out = s).
Proof.
  intros H. pose proof (volumeMap_Set_all_keeps _ _ _ _ H (NoDup_nil _)) as ND.
  apply volumeMap_Set_all_entries in H. destruct H as (entries & -> & <-).
  simpl in *. split; [rewrite length_map; reflexivity|].
  split; [exact ND|]. split.
  - exists entries. split; [apply Permutation_refl|reflexivity].
  - intros s out Hs (order & P & ->).
    destruct entries as [|kv [|kv' entries]]; try discriminate.
    apply Permutation_sym, Permutation_length_1_inv in P. subst order.
    simpl in Hs. inversion Hs; subst. reflexivity.
Qed.

Lemma strings_Split_length sep s :
  List.length (strings_Split sep s) = Datatypes.S (string_count sep s).
Proof.
  induction s as [|c s IH]; simpl; [reflexivity|].
  destruct (strings_Split sep s) as [|f fs]; [discriminate IH|].
  simpl in IH. destruct (Ascii.eqb c sep); simpl; congruence.
Qed.

Lemma string_count_app c a b :
  string_count c (a ++ b)%string = string_count c a + string_count c b.
Proof.
  induction a as [|ch a IH]; simpl; [reflexivity|]. rewrite IH.
  apply Nat.add_assoc.
Qed.

Lemma volumeMap_render_colons entries :
  List.length entries <= string_count ":" (volumeMap_render entries).
Proof.
  unfold volumeMap_render.
  induction entries as [|[k v] entries IH]; simpl; [apply Nat.le_0_l|].
  assert (One : 1 <= string_count ":" (k ++ ":" ++ v)%string).
  { rewrite string_count_app. simpl. lia. }
  destruct entries as [|kv entries]; simpl in *; [exact One|].
  rewrite string_count_app in One.
  rewrite !string_count_app. simpl in *. lia.
Qed.

(** X27: [String] and [Set] are not inverse to each other.  The text
    [String] returns for a map of two or more entries has a colon per
    entry, so [Set] refuses it, on any map and whatever the keys and
    the paths are, as not of the form [key:path]; the map stays as it
    is. *)
Theorem volumeMap_String_refused vm s vm0 :
  2 <= List.length vm ->
  volumeMap_String vm s ->
  volumeMap_Set Quote vm0 s
  = (vm0, Failed (errorString "volume must be of form key:path")).
Proof.
  intros Two (order & P & ->).
  apply Permutation_length in P.
  pose proof (volumeMap_render_colons order) as C.
  unfold volumeMap_Set. rewrite strings_Split_length.
  destruct (string_count ":" (volumeMap_render order)) as [|[|n]];
    [lia|lia|reflexivity].
Qed.

End VolumeFacts.

(** ** [findImages] *)

Section ImageFacts.

Variables (S H DS KS : Type).
Variable R : RktDeps S H DS KS.

Local Abbreviation RWorld := (World (RktState S H DS)).

Lemma rstepped_refl (w : RWorld) : rstepped w w [].
Proof. unfold rstepped. rewrite app_nil_r. auto 6. Qed.

Lemma rstepped_trans (w w1 w2 : RWorld) a b :
  rstepped w w1 a -> rstepped w1 w2 b -> rstepped w w2 (a ++ b).
Proof.
  unfold rstepped.
  intros (L1 & G1 & T1 & K1 & O1 & E1) (L2 & G2 & T2 & K2 & O2 & E2).
  rewrite L2, L1, app_assoc. repeat split; congruence.
Qed.

Lemma rstepped_rcalls (w w' : RWorld) evs :
  rstepped w w' evs -> rcalls w w' = evs.
Proof.
  intros (L & _). unfold rcalls. rewrite L.
  rewrite skipn_app, skipn_all, Nat.sub_diag. reflexivity.
Qed.

Lemma rcall_run {A} (ev : res A -> rkt_event H DS) (f : S -> S * res A)
    (w w' : RWorld) o :
  rcall ev f w = (w', o) ->
  exists r, o = lift r /\ rstepped w w' [ev r].
Proof.
  unfold rcall. destruct (f (ext (kern w))) as [s' r]. intros E.
  inversion E; subst; clear E. exists r. unfold rstepped. simpl. auto 7.
Qed.

Lemma rcall_val_run {A} (ev : A -> rkt_event H DS) (f : S -> S * A)
    (w w' : RWorld) o :
  rcall_val ev f w = (w', o) ->
  exists a, o = Val a /\ rstepped w w' [ev a].
Proof.
  unfold rcall_val. destruct (f (ext (kern w))) as [s' a]. intros E.
  inversion E; subst; clear E. exists a. unfold rstepped. simpl. auto 7.
Qed.

Lemma hash_or_panic_run key (w w' : RWorld) o :
  hash_or_panic R key w = (w', o) -> w' = w /\ o = hashed R key.
Proof.
  unfold hash_or_panic, hashed. destruct (NewHash R key); intros E;
    inversion E; auto.
Qed.

(** The loop body, call by call. *)
Lemma findImages_one_run ds ks img (w w' : RWorld) o :
  findImages_one R ds ks img w = (w', o) ->
  exists evs, rstepped w w' evs /\ ImageRun R img evs o.
Proof.
  unfold findImages_one. destruct (NewHash R img) as [h|e0] eqn:N; intros E.
  - unfold bind, rethrow in E.
    destruct (rcall (RkResolveKey img) (ResolveKey R ds img) w)
      as [w1 o1] eqn:E1.
    apply rcall_run in E1. destruct E1 as (r & -> & S1).
    destruct r as [key|e]; simpl in E.
    + apply hash_or_panic_run in E. destruct E as (-> & ->).
      eexists. split; [exact S1|]. eapply IR_resolved. exact N.
    + inversion E; subst. eexists. split; [exact S1|].
      eapply IR_resolve_fails. exact N.
  - unfold bind, attempt in E.
    destruct (rcall (RkOpen img) (os_Open R img) w) as [w1 o1] eqn:E1.
    apply rcall_run in E1. destruct E1 as (r & -> & S1).
    destruct r as [file|e1]; simpl in E.
    + destruct (rcall (RkWriteACI file) (WriteACI R ds file) w1)
        as [w2 o2] eqn:E2.
      apply rcall_run in E2. destruct E2 as (r2 & -> & S2).
      destruct (rcall_val (fun _ => RkClose file) (file_Close R file)
                  match r2 with Ok _ | Failed _ => w2 end) as [w3 o3] eqn:E3.
      assert (S12 : rstepped w w2 ([RkOpen img (Ok file)]
                                   ++ [RkWriteACI file r2]))
        by (eapply rstepped_trans; eauto).
      destruct r2 as [key|e]; simpl in E;
        rewrite E3 in E; apply rcall_val_run in E3;
        destruct E3 as (a & -> & S3); simpl in E;
        pose proof (rstepped_trans _ _ _ _ _ S12 S3) as S13.
      * apply hash_or_panic_run in E. destruct E as (-> & ->).
        eexists. split; [exact S13|]. eapply IR_imported. exact N.
      * inversion E; subst. eexists. split; [exact S13|].
        eapply IR_import_fails. exact N.
    + destruct (rcall (RkFetchImage img) (fetchImage R img ds ks) w1)
        as [w2 o2] eqn:E2.
      apply rcall_run in E2. destruct E2 as (r2 & -> & S2).
      pose proof (rstepped_trans _ _ _ _ _ S1 S2) as S12.
      destruct r2 as [key|e]; simpl in E.
      * apply hash_or_panic_run in E. destruct E as (-> & ->).
        eexists. split; [exact S12|]. eapply IR_fetched. exact N.
      * inversion E; subst. eexists. split; [exact S12|].
        eapply IR_fetch_fails. exact N.
Qed.

Lemma ImageRun_outcome img evs o :
  ImageRun R img evs o -> forall c, o <> Exit c.
Proof.
  intros HR c. inversion HR; subst; try discriminate;
    unfold hashed; destruct (NewHash R key); discriminate.
Qed.

(** [findImages], call by call. *)
Lemma findImages_run args ds ks :
  forall (w w' : RWorld) o,
    findImages R args ds ks w = (w', o) ->
    exists evs, rstepped w w' evs /\ ImagesRun R args evs o.
Proof.
  induction args as [|img rest IH]; simpl; intros w w' o E.
  - inversion E; subst. exists []. split; [apply rstepped_refl|constructor].
  - unfold bind in E.
    destruct (findImages_one R ds ks img w) as [w1 o1] eqn:E1.
    apply findImages_one_run in E1. destruct E1 as (evs & S1 & R1).
    destruct o1 as [h|e|p|c].
    + destruct (findImages R rest ds ks w1) as [w2 o2] eqn:E2.
      apply IH in E2. destruct E2 as (evs' & S2 & R2).
      exists (evs ++ evs').
      assert (w' = w2 /\ o = match o2 with
                             | Val out => Val (h :: out)
                             | Throw e => Throw e
                             | Panic p => Panic p
                             | Exit c => Exit c
                             end) as (-> & ->)
          by (destruct o2; inversion E; auto).
      split; [eapply rstepped_trans; eauto|].
      apply IsR_next; assumption.
    + inversion E; subst. exists evs. split; [exact S1|].
      apply IsR_error. exact R1.
    + inversion E; subst. exists evs. split; [exact S1|].
      apply IsR_panic. exact R1.
    + exfalso. exact (ImageRun_outcome _ _ _ R1 c eq_refl).
Qed.


(** *** What the images resolve to *)

Lemma key_of_app_l (evs evs' : list (rkt_event H DS)) img key :
  key_of evs img key -> key_of (evs ++ evs') img key.
Proof.
  unfold key_of. intros [A|[(f & A & B)|A]];
    rewrite ?in_app_iff; eauto 8.
  right. left. exists f. rewrite !in_app_iff. auto.
Qed.

Lemma key_of_app_r (evs evs' : list (rkt_event H DS)) img key :
  key_of evs' img key -> key_of (evs ++ evs') img key.
Proof.
  unfold key_of. intros [A|[(f & A & B)|A]];
    rewrite ?in_app_iff; eauto 8.
  right. left. exists f. rewrite !in_app_iff. auto.
Qed.

Lemma hashed_Val key h : hashed R key = Val h -> NewHash R key = Ok h.
Proof. unfold hashed. destruct (NewHash R key); congruence. Qed.

Lemma ImageRun_Val img evs h :
  ImageRun R img evs (Val h) ->
  exists key, NewHash R key = Ok h /\ key_of evs img key.
Proof.
  intros HR. inversion HR; subst;
    match goal with
    | E : hashed R ?k = Val _ |- _ => apply hashed_Val in E; exists k
    | E : Val _ = hashed R ?k |- _ =>
        symmetry in E; apply hashed_Val in E; exists k
    end; (split; [assumption|]); unfold key_of; simpl; eauto 8.
Qed.

Lemma ImagesRun_Val args evs out :
  ImagesRun R args evs (Val out) ->
  Forall2 (fun img h => exists key, NewHash R key = Ok h /\ key_of evs img key)
          args out.
Proof.
  intros HR. remember (Val out) as o eqn:Ho. revert out Ho.
  induction HR; intros out Ho; try discriminate.
  - inversion Ho; subst. constructor.
  - destruct o as [out'| | |]; try discriminate. inversion Ho; subst.
    constructor.
    + apply ImageRun_Val in H0. destruct H0 as (key & N & K).
      exists key. split; [exact N|]. apply key_of_app_l. exact K.
    + eapply Forall2_impl; [|apply IHHR; reflexivity].
      intros img0 h0 (key & N & K). exists key. split; [exact N|].
      apply key_of_app_r. exact K.
Qed.

(** X15: when [findImages] returns a list, it has one hash per
    argument, in the order of the arguments, and each is the hash of
    the key that the store resolved, that the import of the local file
    returned, or that the fetch returned for that argument. *)
Theorem findImages_results args ds ks (w w' : RWorld) out :
  findImages R args ds ks w = (w', Val out) ->
  List.length out = List.length args /\
  Forall2 (fun img h =>
             exists key, NewHash R key = Ok h /\ key_of (rcalls w w') img key)
          args out.
Proof.
  intros E. apply findImages_run in E. destruct E as (evs & S1 & HR).
  rewrite (rstepped_rcalls _ _ _ S1). apply ImagesRun_Val in HR.
  split; [symmetry; eapply Forall2_length; exact HR | exact HR].
Qed.

(** *** The order of the three sources *)

Lemma ImageRun_sources img evs o :
  ImageRun R img evs o ->
  (forall i r, In (RkResolveKey i r) evs ->
               i = img /\ exists h, NewHash R img = Ok h) /\
  (forall i r, In (RkOpen i r) evs ->
               i = img /\ exists e, NewHash R img = Failed e) /\
  (forall i r, In (RkFetchImage i r) evs ->
               i = img /\ (exists e, NewHash R img = Failed e) /\
               exists e, In (RkOpen img (Failed e)) evs).
Proof.
  intros HR. inversion HR; subst; repeat split; simpl in *;
    repeat match goal with
           | H : _ \/ _ |- _ => destruct H
           | H : False |- _ => destruct H
           | H : @eq (rkt_event _ _) _ _ |- _ =>
               first [discriminate H | inversion H; clear H]
           end; subst; eauto.
Qed.

(** X16: the sources are tried in a fixed order and the first that
    applies decides.  The store is asked to resolve only arguments
    that are valid hashes; a file is opened only for arguments that
    are not; and the fetch is tried only for such arguments after the
    file could not be opened. *)
Theorem findImages_sources args ds ks (w w' : RWorld) o :
  findImages R args ds ks w = (w', o) ->
  (forall img r, In (RkResolveKey img r) (rcalls w w') ->
                 In img args /\ exists h, NewHash R img = Ok h) /\
  (forall img r, In (RkOpen img r) (rcalls w w') ->
                 In img args /\ exists e, NewHash R img = Failed e) /\
  (forall img r, In (RkFetchImage img r) (rcalls w w') ->
                 In img args /\ (exists e, NewHash R img = Failed e) /\
                 exists e, In (RkOpen img (Failed e)) (rcalls w w')).
Proof.
  intros E. apply findImages_run in E. destruct E as (evs & S1 & HR).
  rewrite (rstepped_rcalls _ _ _ S1). clear S1.
  assert (ONE : forall img rest evs o,
             ImageRun R img evs o ->
             (forall i r, In (RkResolveKey i r) evs ->
                          In i (img :: rest) /\ exists h, NewHash R i = Ok h) /\
             (forall i r, In (RkOpen i r) evs ->
                          In i (img :: rest) /\
                          exists e, NewHash R i = Failed e) /\
             (forall i r, In (RkFetchImage i r) evs ->
                          In i (img :: rest) /\
                          (exists e, NewHash R i = Failed e) /\
                          exists e, In (RkOpen i (Failed e)) evs)).
  { intros img rest evs0 o0 H0. apply ImageRun_sources in H0.
    destruct H0 as (A & B & C). split; [|split]; intros i0 r0 Hin.
    - destruct (A i0 r0 Hin) as (-> & X). simpl. auto.
    - destruct (B i0 r0 Hin) as (-> & X). simpl. auto.
    - destruct (C i0 r0 Hin) as (-> & X & Y). simpl. auto. }
  induction HR.
  - split; [|split]; intros i0 r0 [].
  - eapply ONE; eassumption.
  - eapply ONE; eassumption.
  - destruct (ONE img rest evs (Val h) H0) as (A & B & C).
    destruct IHHR as (A' & B' & C').
    split; [|split]; intros i0 r0 Hin; apply in_app_iff in Hin;
      destruct Hin as [Hin|Hin].
    + exact (A i0 r0 Hin).
    + destruct (A' i0 r0 Hin) as (X & Y). simpl. auto.
    + exact (B i0 r0 Hin).
    + destruct (B' i0 r0 Hin) as (X & Y). simpl. auto.
    + destruct (C i0 r0 Hin) as (X & Y & (e & Z)).
      split; [exact X|]. split; [exact Y|]. exists e.
      apply in_app_iff. auto.
    + destruct (C' i0 r0 Hin) as (X & Y & (e & Z)).
      split; [simpl; auto|]. split; [exact Y|]. exists e.
      apply in_app_iff. auto.
Qed.


(** *** Errors *)

Lemma hashed_not_Throw key e : hashed R key <> Throw e.
Proof. unfold hashed. destruct (NewHash R key); discriminate. Qed.

(** X17: when [findImages] returns an error, the failing call is the
    last call made: the arguments after it are not looked at.  The
    error of the store's resolution is wrapped as "could not resolve
    key", the error of the import is prefixed with the argument, and
    the error of the fetch is returned as it is. *)
Theorem findImages_errors args ds ks (w w' : RWorld) e :
  findImages R args ds ks w = (w', Throw e) ->
  exists pre img,
    In img args /\
    ((exists err,
         rcalls w w' = pre ++ [RkResolveKey img (Failed err)] /\
         e = errorString ("could not resolve key: " ++ rkt_Error R err)%string)
     \/
     (exists file err,
         rcalls w w' = pre ++ [RkOpen img (Ok file);
                               RkWriteACI file (Failed err); RkClose file] /\
         e = errorString (img ++ ": " ++ rkt_Error R err)%string)
     \/
     (exists err,
         rcalls w w' = pre ++ [RkOpen img (Failed err);
                               RkFetchImage img (Failed e)])).
Proof.
  intros E. apply findImages_run in E. destruct E as (evs & S1 & HR).
  rewrite (rstepped_rcalls _ _ _ S1). clear S1.
  remember (Throw e) as o eqn:Ho. induction HR; try discriminate.
  - inversion Ho; subst e0. exists [], img. split; [simpl; auto|].
    inversion H0; subst;
      try match goal with
          | E : hashed R _ = Throw _ |- _ =>
              exfalso; exact (hashed_not_Throw _ _ E)
          | E : Throw _ = hashed R _ |- _ =>
              exfalso; symmetry in E; exact (hashed_not_Throw _ _ E)
          end; simpl; eauto 8.
  - destruct o as [out|e'|p|c]; try discriminate. inversion Ho; subst e'.
    destruct (IHHR eq_refl) as (pre & i & Hi & Hc).
    exists (evs ++ pre), i. split; [simpl; auto|].
    destruct Hc as [(err & -> & ->)|[(f & err & -> & ->)|(err & ->)]];
      rewrite app_assoc; eauto 8.
Qed.

Lemma ImageRun_key img evs o key :
  ImageRun R img evs o -> returned_key evs key -> o = hashed R key.
Proof.
  intros HR HK. unfold returned_key in HK.
  inversion HR; subst; simpl in HK;
    repeat match goal with
           | H : _ \/ _ |- _ => destruct H
           | H : exists _, _ |- _ => destruct H
           | H : False |- _ => destruct H
           | H : @eq (rkt_event _ _) _ _ |- _ =>
               first [discriminate H | inversion H; clear H]
           end; subst; reflexivity.
Qed.

Lemma returned_key_app (evs evs' : list (rkt_event H DS)) key :
  returned_key (evs ++ evs') key ->
  returned_key evs key \/ returned_key evs' key.
Proof.
  unfold returned_key.
  intros [(i & A)|[(f & A)|(i & A)]]; apply in_app_iff in A;
    destruct A; eauto 8.
Qed.

(** X18: a key returned by the store or by the fetch that is not a
    valid hash makes [findImages] panic with the error of
    [types.NewHash]; no error value is returned. *)
Theorem findImages_bad_key_panics args ds ks (w w' : RWorld) o key err :
  findImages R args ds ks w = (w', o) ->
  returned_key (rcalls w w') key ->
  NewHash R key = Failed err ->
  o = Panic (rkt_Error R err).
Proof.
  intros E HK N. apply findImages_run in E. destruct E as (evs & S1 & HR).
  rewrite (rstepped_rcalls _ _ _ S1) in HK. clear S1.
  assert (HP : hashed R key = Panic (rkt_Error R err))
    by (unfold hashed; rewrite N; reflexivity).
  induction HR.
  - destruct HK as [(i & [])|[(f & [])|(i & [])]].
  - pose proof (ImageRun_key _ _ _ _ H0 HK) as X. rewrite HP in X.
    discriminate.
  - pose proof (ImageRun_key _ _ _ _ H0 HK) as X. rewrite HP in X.
    inversion X; reflexivity.
  - apply returned_key_app in HK. destruct HK as [HK|HK].
    + pose proof (ImageRun_key _ _ _ _ H0 HK) as X. rewrite HP in X.
      discriminate.
    + rewrite (IHHR HK). reflexivity.
Qed.

(** *** Files *)

Lemma ImageRun_files img evs o :
  ImageRun R img evs o ->
  (forall p f, In (RkOpen p (Ok f)) evs ->
               (exists r, In (RkWriteACI f r) evs) /\ In (RkClose f) evs) /\
  List.length (filter opens evs) = List.length (filter closes evs).
Proof.
  intros HR. inversion HR; subst; split; try reflexivity;
    intros p f Hin; simpl in Hin;
    repeat match goal with
           | H : _ \/ _ |- _ => destruct H
           | H : False |- _ => destruct H
           | H : @eq (rkt_event _ _) _ _ |- _ =>
               first [discriminate H | inversion H; clear H]
           end; subst; simpl; eauto 8.
Qed.

Lemma app_split_mid {A} (a b : list A) :
  forall pre x post,
    a ++ b = pre ++ x :: post ->
    (exists mid, a = pre ++ x :: mid /\ post = mid ++ b) \/
    (exists pre2, pre = a ++ pre2 /\ b = pre2 ++ x :: post).
Proof.
  induction a as [|y a IH]; intros pre x post E; simpl in E.
  - right. exists pre. auto.
  - destruct pre as [|z pre]; simpl in E; injection E as Ey E'; subst.
    + left. exists a. auto.
    + destruct (IH _ _ _ E') as [(mid & -> & ->)|(pre2 & -> & ->)].
      * left. exists mid. auto.
      * right. exists pre2. auto.
Qed.

(** The place of the calls on a file in the calls for one image: the
    opening is followed at once by the writing and the closing, and
    the closing comes only there. *)
Lemma ImageRun_file_order img evs o :
  ImageRun R img evs o ->
  (forall pre p f post,
      evs = pre ++ RkOpen p (Ok f) :: post ->
      exists r post', post = RkWriteACI f r :: RkClose f :: post') /\
  (forall pre f post,
      evs = pre ++ RkClose f :: post ->
      exists pre' p r, pre = pre' ++ [RkOpen p (Ok f); RkWriteACI f r]).
Proof.
  intros HR. inversion HR; subst; split; intros pre;
    destruct pre as [|a [|b [|c pre]]]; intros; simpl in *;
    match goal with
    | E : _ = _ :: _ |- _ => inversion E; subst
    | E : _ = _ ++ _ |- _ => destruct pre; discriminate E
    end;
    try solve [eauto];
    try solve [eexists [], _, _; reflexivity];
    try solve [destruct pre; discriminate].
Qed.

(** X19: every file [findImages] opens is handed to [ds.WriteACI] in
    the very next call and closed in the call after that, whether
    [WriteACI] returned a key or an error: the file is closed before
    the error of the import is returned and before the key is hashed,
    so also in a run that ends with that error or in the panic of
    [types.NewHash].  A file is closed only there, so as many files
    are closed as were opened.  [Close] is not deferred: nothing is
    said of the file if [WriteACI] itself does not return. *)
Theorem findImages_closes_files args ds ks (w w' : RWorld) o :
  findImages R args ds ks w = (w', o) ->
  (forall pre p f post,
      rcalls w w' = pre ++ RkOpen p (Ok f) :: post ->
      exists r post', post = RkWriteACI f r :: RkClose f :: post') /\
  (forall pre f post,
      rcalls w w' = pre ++ RkClose f :: post ->
      exists pre' p r, pre = pre' ++ [RkOpen p (Ok f); RkWriteACI f r]) /\
  (forall p f, In (RkOpen p (Ok f)) (rcalls w w') ->
               (exists r, In (RkWriteACI f r) (rcalls w w')) /\
               In (RkClose f) (rcalls w w')) /\
  List.length (filter opens (rcalls w w'))
  = List.length (filter closes (rcalls w w')).
Proof.
  intros E. apply findImages_run in E. destruct E as (evs & S1 & HR).
  rewrite (rstepped_rcalls _ _ _ S1). clear S1.
  induction HR as [|img rest evs e HI|img rest evs p HI
                   |img rest evs h evs' o' HI HR IH].
  - split; [|split; [|split]]; try reflexivity.
    + intros pre p f post X. destruct pre; discriminate X.
    + intros pre f post X. destruct pre; discriminate X.
    + intros p f [].
  - destruct (ImageRun_file_order _ _ _ HI) as (A & B).
    destruct (ImageRun_files _ _ _ HI) as (C & L). auto.
  - destruct (ImageRun_file_order _ _ _ HI) as (A & B).
    destruct (ImageRun_files _ _ _ HI) as (C & L). auto.
  - destruct (ImageRun_file_order _ _ _ HI) as (A & B).
    destruct (ImageRun_files _ _ _ HI) as (C & L).
    destruct IH as (A' & B' & C' & L').
    split; [|split; [|split]].
    + intros pre p f post X. apply app_split_mid in X.
      destruct X as [(mid & X & ->)|(pre2 & -> & X)].
      * destruct (A _ _ _ _ X) as (r & post' & ->).
        exists r, (post' ++ evs'). reflexivity.
      * exact (A' _ _ _ _ X).
    + intros pre f post X. apply app_split_mid in X.
      destruct X as [(mid & X & ->)|(pre2 & -> & X)].
      * exact (B _ _ _ X).
      * destruct (B' _ _ _ X) as (pre' & p & r & ->).
        exists (evs ++ pre'), p, r. apply app_assoc.
    + intros p f Hin. apply in_app_iff in Hin. destruct Hin as [Hin|Hin].
      * destruct (C p f Hin) as ((r & X) & Y).
        split; [exists r|]; apply in_app_iff; auto.
      * destruct (C' p f Hin) as ((r & X) & Y).
        split; [exists r|]; apply in_app_iff; auto.
    + rewrite !filter_app, !length_app. congruence.
Qed.

End ImageFacts.

(** ** [runRun] *)

Section RunFacts.

Variables (S H DS KS : Type).
Variable R : RktDeps S H DS KS.

Local Abbreviation RWorld := (World (RktState S H DS)).

Lemma runRun_dir_run (w w1 : RWorld) o :
  runRun_dir R w = (w1, o) ->
  stdout w1 = stdout w /\ trace w1 = trace w /\ locked w1 = locked w /\
  ((exists pre errs,
       o = Val None /\
       DirStep (globals (kern w)) pre (globals (kern w1)) errs /\
       rlog (kern w1) = rlog (kern w) ++ pre /\
       stderr w1 = stderr w ++ errs) \/
   (exists e,
       o = Val (Some 1%Z) /\
       globalFlags_Dir (globals (kern w)) = EmptyString /\
       globals (kern w1) = with_Dir (globals (kern w)) EmptyString /\
       rlog (kern w1)
       = rlog (kern w) ++ [RkTempDir EmptyString "rkt" (Failed e)] /\
       stderr w1
       = stderr w ++ ["dir unset - using temporary directory";
                      ("error creating temporary directory: "
                       ++ rkt_Error R e ++ newline)%string])).
Proof.
  unfold runRun_dir. unfold bind at 1. unfold get_globals.
  destruct (String.eqb (globalFlags_Dir (globals (kern w))) EmptyString) eqn:ED.
  - apply String.eqb_eq in ED.
    unfold bind at 1. unfold log_Print. unfold bind at 1. unfold attempt.
    match goal with |- context [rcall ?ev ?f ?x] =>
      destruct (rcall ev f x) as [w2 o2] eqn:E2 end.
    apply rcall_run in E2. destruct E2 as (r & -> & S2).
    unfold rstepped in S2. simpl in S2.
    destruct S2 as (L2 & G2 & T2 & K2 & O2 & X2).
    destruct r as [dir|e]; simpl; unfold bind, set_Dir, fmt_Fprint_Stderr, ret;
      intros E; inversion E; subst; clear E; simpl;
      (split; [assumption|split; [assumption|split; [assumption|]]]).
    + left. exists [RkTempDir EmptyString "rkt" (Ok dir)],
                   ["dir unset - using temporary directory"].
      split; [reflexivity|]. rewrite G2. split; [|split; assumption].
      apply DS_temp. exact ED.
    + right. exists e. rewrite G2, X2, <- app_assoc. simpl. auto.
  - apply String.eqb_neq in ED. unfold ret. intros E.
    inversion E; subst; clear E.
    split; [reflexivity|split; [reflexivity|split; [reflexivity|]]].
    left. exists [], []. rewrite !app_nil_r.
    split; [reflexivity|]. split; [|split; reflexivity].
    apply DS_set. exact ED.
Qed.

Lemma ImagesRun_outcome args evs (o : outcome (list H)) :
  ImagesRun R args evs o -> forall c, o <> Exit c.
Proof.
  induction 1 as [|? ? ? ? ?|? ? ? ? ?|? ? ? ? ? o ? ? IH]; intros c;
    try discriminate.
  destruct o; try discriminate. exact (IH c).
Qed.

Lemma runRun_stage0_run args (w w' : RWorld) o :
  runRun_stage0 R args w = (w', o) ->
  exists evs errs,
    rlog (kern w') = rlog (kern w) ++ evs /\
    stderr w' = stderr w ++ errs /\
    globals (kern w') = globals (kern w) /\
    stdout w' = stdout w /\ trace w' = trace w /\ locked w' = locked w /\
    forall g0 pre errs0,
      args <> [] -> DirStep g0 pre (globals (kern w)) errs0 ->
      RunRun R args g0 (pre ++ evs) (globals (kern w)) (errs0 ++ errs) o.
Proof.
  unfold runRun_stage0. unfold bind at 1. unfold get_globals.
  set (g := globals (kern w)).
  unfold bind at 1.
  match goal with |- context [rcall_val ?ev ?f ?x] =>
    destruct (rcall_val ev f x) as [w1 o1] eqn:E1 end.
  apply rcall_val_run in E1. destruct E1 as (ds & -> & S1).
  unfold bind at 1. unfold attempt at 1.
  destruct (findImages R args ds (getKeystore R g) w1) as [w2 o2] eqn:E2.
  apply findImages_run in E2. destruct E2 as (fevs & S2 & IR).
  assert (S12 : rstepped w w2 ([RkNewStore (globalFlags_Dir g)] ++ fevs))
    by (eapply rstepped_trans; eassumption).
  clear S1 S2.
  destruct S12 as (L2 & G2 & T2 & K2 & O2 & X2).
  destruct o2 as [imgs|e|p|c].
  - fold (run_config R g ds imgs).
    unfold bind at 1. unfold attempt at 1.
    match goal with |- context [rcall ?ev ?f ?x] =>
      destruct (rcall ev f x) as [w3 o3] eqn:E3 end.
    apply rcall_run in E3. destruct E3 as (r & -> & S3).
    destruct S3 as (L3 & G3 & T3 & K3 & O3 & X3).
    destruct r as [cdir|e]; simpl.
    + unfold bind at 1.
      match goal with |- context [rcall_val ?ev ?f ?x] =>
        destruct (rcall_val ev f x) as [w4 o4] eqn:E4 end.
      apply rcall_val_run in E4. destruct E4 as (gone & -> & S4).
      destruct S4 as (L4 & G4 & T4 & K4 & O4 & X4).
      exists ([RkNewStore (globalFlags_Dir g)] ++ fevs
              ++ [RkSetup (run_config R g ds imgs) (Ok cdir);
                  RkRun (run_config R g ds imgs) cdir]), [].
      assert (w' = w4 /\ o = match gone with
                             | Some code => Exit code
                             | None => Val 1%Z
                             end) as (-> & ->)
          by (destruct gone; inversion H0; auto).
      rewrite L4, L3, L2, X4, X3, X2, G4, G3, G2, O4, O3, O2, T4, T3, T2,
        K4, K3, K2, !app_nil_r, <- !app_assoc.
      repeat (split; [reflexivity|]).
      intros g0 pre errs0 NE D. rewrite app_nil_r.
      destruct gone; simpl; [eapply RR_replaced|eapply RR_returned]; eassumption.
    + unfold bind, fmt_Fprint_Stderr, ret. intros E. inversion E; subst; clear E.
      simpl.
      exists ([RkNewStore (globalFlags_Dir g)] ++ fevs
              ++ [RkSetup (run_config R g ds imgs) (Failed e)]),
             [("run: error setting up stage0: " ++ rkt_Error R e
               ++ newline)%string].
      rewrite L3, L2, X3, X2, G3, G2, O3, O2, T3, T2, K3, K2, <- !app_assoc.
      repeat (split; [reflexivity|]).
      intros g0 pre errs0 NE D. simpl.
      eapply RR_setup_fails; eassumption.
  - unfold bind, fmt_Fprint_Stderr, ret. intros E. inversion E; subst; clear E.
    simpl.
    exists ([RkNewStore (globalFlags_Dir g)] ++ fevs),
           [(rkt_Error R e ++ newline)%string].
    rewrite L2, X2, G2, O2, T2, K2.
    repeat (split; [reflexivity|]).
    intros g0 pre errs0 NE D. simpl.
    eapply RR_images_fail; eassumption.
  - intros E. inversion E; subst; clear E.
    exists ([RkNewStore (globalFlags_Dir g)] ++ fevs), [].
    rewrite L2, X2, G2, O2, T2, K2, app_nil_r.
    repeat (split; [reflexivity|]).
    intros g0 pre errs0 NE D. rewrite app_nil_r. simpl.
    eapply RR_images_panic; eassumption.
  - exfalso. exact (ImagesRun_outcome _ _ _ IR c eq_refl).
Qed.

(** [runRun], call by call. *)
Lemma runRun_run args (w w' : RWorld) o :
  runRun R args w = (w', o) ->
  exists evs errs,
    rlog (kern w') = rlog (kern w) ++ evs /\
    stderr w' = stderr w ++ errs /\
    stdout w' = stdout w /\ trace w' = trace w /\ locked w' = locked w /\
    RunRun R args (globals (kern w)) evs (globals (kern w')) errs o.
Proof.
  unfold runRun. destruct args as [|img rest].
  - simpl. unfold bind, fmt_Fprint_Stderr, ret. intros E.
    inversion E; subst; clear E. simpl.
    exists [], [("run: Must provide at least one image" ++ newline)%string].
    rewrite app_nil_r. repeat (split; [reflexivity|]).
    constructor. reflexivity.
  - change (Nat.ltb (List.length (img :: rest)) 1) with false. cbv iota.
    set (args := img :: rest).
    assert (NE : args <> []) by discriminate.
    clearbody args.
    unfold bind.
    destruct (runRun_dir R w) as [w1 o1] eqn:E1.
    apply runRun_dir_run in E1.
    destruct E1 as (O1 & T1 & K1 & [(pre & errs & -> & D & L1 & X1)
                                   |(e & -> & ED & G1 & L1 & X1)]).
    + intros E. apply runRun_stage0_run in E.
      destruct E as (evs & errs' & L2 & X2 & G2 & O2 & T2 & K2 & RR).
      exists (pre ++ evs), (errs ++ errs').
      rewrite L2, L1, X2, X1, O2, O1, T2, T1, K2, K1, G2, <- !app_assoc.
      repeat (split; [reflexivity|]).
      apply RR; assumption.
    + unfold ret. intros E. inversion E; subst; clear E.
      eexists _, _. rewrite G1.
      do 5 (split; [eassumption|]).
      apply RR_temp_fails; assumption.
Qed.

Lemma string_app_assoc (a b c : string) :
  ((a ++ b) ++ c = a ++ b ++ c)%string.
Proof.
  induction a as [|ch a IH]; simpl; [reflexivity|]. rewrite IH. reflexivity.
Qed.

Lemma rcalls_app (w w' : RWorld) evs :
  rlog (kern w') = rlog (kern w) ++ evs -> rcalls w w' = evs.
Proof.
  intros L. unfold rcalls. rewrite L.
  rewrite skipn_app, skipn_all, Nat.sub_diag. reflexivity.
Qed.

Lemma ImageRun_fatal img evs (o : outcome H) ev :
  ImageRun R img evs o -> In ev evs -> fatal ev = true ->
  exists e, o = Throw e.
Proof.
  intros HR Hin F.
  inversion HR; subst; simpl in Hin;
    repeat (destruct Hin as [<-|Hin]; [try discriminate F; eauto|]);
    destruct Hin.
Qed.

Lemma ImagesRun_fatal args evs (o : outcome (list H)) :
  ImagesRun R args evs o ->
  forall ev, In ev evs -> fatal ev = true -> exists e, o = Throw e.
Proof.
  induction 1 as [|img rest evs e HR|img rest evs p HR
                  |img rest evs h evs' o HR HRs IH]; intros ev Hin F.
  - destruct Hin.
  - eauto.
  - destruct (ImageRun_fatal _ _ _ _ HR Hin F) as (e & X). discriminate X.
  - apply in_app_iff in Hin. destruct Hin as [Hin|Hin].
    + destruct (ImageRun_fatal _ _ _ _ HR Hin F) as (e & X). discriminate X.
    + destruct (IH ev Hin F) as (e & ->). eauto.
Qed.

Lemma ImagesRun_no_stage0 args evs (o : outcome (list H)) :
  ImagesRun R args evs o ->
  forall ev, In ev evs -> stage0_call ev = false.
Proof.
  assert (One : forall img evs (o : outcome H) ev,
             ImageRun R img evs o -> In ev evs -> stage0_call ev = false).
  { intros img evs0 o0 ev HR Hin.
    inversion HR; subst; simpl in Hin;
      repeat (destruct Hin as [<-|Hin]; [reflexivity|]); destruct Hin. }
  induction 1; intros ev Hin; eauto.
  - destruct Hin.
  - apply in_app_iff in Hin. destruct Hin; eauto.
Qed.

Lemma DirStep_calls g pre g1 errs ev :
  @DirStep H DS g pre g1 errs -> In ev pre ->
  stage0_call ev = false /\ fatal ev = false.
Proof.
  intros D Hin. inversion D; subst; simpl in Hin.
  - destruct Hin.
  - destruct Hin as [<-|[]]. split; reflexivity.
Qed.

Lemma DirStep_flags g pre g1 errs :
  @DirStep H DS g pre g1 errs ->
  globalFlags_Debug g1 = globalFlags_Debug g /\
  flagStage1Init g1 = flagStage1Init g /\
  flagStage1Rootfs g1 = flagStage1Rootfs g /\
  flagVolumes g1 = flagVolumes g /\
  flagPrivateNet g1 = flagPrivateNet g.
Proof.
  intros D. inversion D; subst; simpl; auto.
Qed.

(** X20: [runRun] returns no error and no status but 1, also when all
    went well, since [stage0.Run] is not expected to return; the
    process ends with another status only when [stage0.Run], its last
    call, replaced it. *)
Theorem runRun_exit_status args (w w' : RWorld) o :
  runRun R args w = (w', o) ->
  (forall e, o <> Throw e) /\
  (forall c, o = Val c -> c = 1%Z) /\
  (forall c, o = Exit c ->
             exists pre cfg cdir, rcalls w w' = pre ++ [RkRun cfg cdir]).
Proof.
  intros E. apply runRun_run in E.
  destruct E as (evs & errs & L & _ & _ & _ & _ & RR).
  rewrite (rcalls_app _ _ _ L). clear L.
  split; [|split].
  - intros e. inversion RR; discriminate.
  - intros c Hc. inversion RR; subst; try discriminate;
      match goal with X : Val _ = Val _ |- _ => inversion X; reflexivity end.
  - intros c Hc. inversion RR; subst; try discriminate.
    match goal with
    | |- exists _ _ _, ?pre ++ ?ns :: ?fevs ++ [?a; RkRun ?cfg ?cdir] = _ =>
        exists (pre ++ ns :: fevs ++ [a]), cfg, cdir
    end.
    rewrite <- !app_assoc. simpl. rewrite <- !app_assoc. reflexivity.
Qed.

(** X21: without an image [runRun] calls nothing, not even for a
    temporary directory, leaves the flags alone and returns 1 with a
    line on the standard error; with an image it makes a call. *)
Theorem runRun_without_images args (w w' : RWorld) o :
  runRun R args w = (w', o) ->
  (args = [] <-> rcalls w w' = []) /\
  (args = [] ->
   o = Val 1%Z /\
   globals (kern w') = globals (kern w) /\
   stderr w'
   = stderr w ++ [("run: Must provide at least one image" ++ newline)%string]).
Proof.
  intros E. apply runRun_run in E.
  destruct E as (evs & errs & L & X & _ & _ & _ & RR).
  rewrite (rcalls_app _ _ _ L). clear L. rewrite X. clear X.
  split; [split|].
  - intros ->. inversion RR; subst; try reflexivity;
      match goal with N : [] <> [] |- _ => destruct (N eq_refl) end.
  - intros ->. inversion RR; subst; try reflexivity;
      match goal with
      | X : _ ++ _ :: _ = [] |- _ => destruct (app_cons_not_nil _ _ _ (eq_sym X))
      end.
  - intros ->. inversion RR; subst;
      try match goal with N : [] <> [] |- _ => destruct (N eq_refl) end.
    auto.
Qed.

Lemma stage0_in_run (pre : list (rkt_event H DS)) ns fevs tail ev :
  (forall e, In e pre -> stage0_call e = false) ->
  stage0_call ns = false ->
  (forall e, In e fevs -> stage0_call e = false) ->
  stage0_call ev = true ->
  In ev (pre ++ ns :: fevs ++ tail) -> In ev tail.
Proof.
  intros P N F T Hin.
  apply in_app_iff in Hin. destruct Hin as [Hin|[<-|Hin]].
  - rewrite (P _ Hin) in T. discriminate T.
  - rewrite N in T. discriminate T.
  - apply in_app_iff in Hin. destruct Hin as [Hin|Hin]; [|exact Hin].
    rewrite (F _ Hin) in T. discriminate T.
Qed.

Lemma stage0_in_run_nil (pre : list (rkt_event H DS)) ns fevs ev :
  (forall e, In e pre -> stage0_call e = false) ->
  stage0_call ns = false ->
  (forall e, In e fevs -> stage0_call e = false) ->
  stage0_call ev = true ->
  In ev (pre ++ ns :: fevs) -> False.
Proof.
  intros P N F T Hin. rewrite <- (app_nil_r fevs) in Hin.
  exact (stage0_in_run _ _ _ _ _ P N F T Hin).
Qed.

Lemma key_of_run (pre : list (rkt_event H DS)) ns fevs tail img key :
  key_of fevs img key -> key_of (pre ++ ns :: fevs ++ tail) img key.
Proof.
  intros K. apply key_of_app_r. change (ns :: fevs ++ tail)
    with ([ns] ++ fevs ++ tail).
  apply key_of_app_r. apply key_of_app_l. exact K.
Qed.

Ltac no_stage0 :=
  match goal with
  | D : DirStep _ _ _ _, I : ImagesRun _ _ _ _,
    Hin : In _ (_ ++ _ :: ?fevs) |- _ =>
      exfalso; refine (stage0_in_run_nil _ _ _ _ _ _ _ _ Hin);
      [ intros ? ?; eapply DirStep_calls; eassumption
      | reflexivity
      | eapply ImagesRun_no_stage0; exact I
      | reflexivity ]
  end.

Ltac to_tail Hin :=
  match type of Hin with
  | In _ (_ ++ _ :: _ ++ _) =>
      match goal with
      | D : DirStep _ _ _ _, I : ImagesRun _ _ _ _ |- _ =>
          apply stage0_in_run in Hin;
          [ | intros ? ?; eapply DirStep_calls; eassumption
            | reflexivity
            | eapply ImagesRun_no_stage0; exact I
            | reflexivity ]
      end
  end.

(** X22: the configuration [runRun] sets [stage0] up with has one
    image per argument, in the order of the arguments, each the hash
    of the key found for it, and carries the flags as they were
    given; the containers' directory is read after the directory of
    the store was settled. *)
Theorem runRun_config args (w w' : RWorld) o cfg r :
  runRun R args w = (w', o) ->
  In (RkSetup cfg r) (rcalls w w') ->
  List.length (Images cfg) = List.length args /\
  Forall2 (fun img h =>
             exists key, NewHash R key = Ok h /\ key_of (rcalls w w') img key)
          args (Images cfg) /\
  Volumes cfg = flagVolumes (globals (kern w)) /\
  PrivateNet cfg = flagPrivateNet (globals (kern w)) /\
  Debug cfg = globalFlags_Debug (globals (kern w)) /\
  Stage1Init cfg = flagStage1Init (globals (kern w)) /\
  Stage1Rootfs cfg = flagStage1Rootfs (globals (kern w)) /\
  ContainersDir cfg = containersDir R (globals (kern w')).
Proof.
  intros E Hin. apply runRun_run in E.
  destruct E as (evs & errs & L & _ & _ & _ & _ & RR).
  rewrite (rcalls_app _ _ _ L) in *. clear L.
  assert (Main : forall pre g1 errs0 fevs ds imgs tail,
             DirStep (H:=H) (DS:=DS) (globals (kern w)) pre g1 errs0 ->
             ImagesRun R args fevs (Val imgs) ->
             cfg = run_config R g1 ds imgs ->
             globals (kern w') = g1 ->
             evs = pre ++ RkNewStore (globalFlags_Dir g1) :: fevs ++ tail ->
             List.length (Images cfg) = List.length args /\
             Forall2 (fun img h =>
                        exists key, NewHash R key = Ok h /\ key_of evs img key)
                     args (Images cfg) /\
             Volumes cfg = flagVolumes (globals (kern w)) /\
             PrivateNet cfg = flagPrivateNet (globals (kern w)) /\
             Debug cfg = globalFlags_Debug (globals (kern w)) /\
             Stage1Init cfg = flagStage1Init (globals (kern w)) /\
             Stage1Rootfs cfg = flagStage1Rootfs (globals (kern w)) /\
             ContainersDir cfg = containersDir R (globals (kern w'))).
  { intros pre g1 errs0 fevs ds imgs tail D I -> G ->.
    apply DirStep_flags in D. destruct D as (F1 & F2 & F3 & F4 & F5).
    apply ImagesRun_Val in I. simpl. rewrite G.
    split; [symmetry; eapply Forall2_length; exact I|].
    split; [|auto 7].
    eapply Forall2_impl; [|exact I].
    intros img h (key & K1 & K2). exists key. split; [exact K1|].
    apply key_of_run. exact K2. }
  inversion RR; subst; try solve [destruct Hin]; try no_stage0.
  - destruct Hin as [X|[]]. discriminate X.
  - pose proof Hin as Hin'. to_tail Hin'. destruct Hin' as [X|[]].
    inversion X; subst. eapply Main; eauto.
  - pose proof Hin as Hin'. to_tail Hin'. destruct Hin' as [X|[X|[]]];
      [|discriminate X].
    inversion X; subst. eapply Main; eauto.
  - pose proof Hin as Hin'. to_tail Hin'. destruct Hin' as [X|[X|[]]];
      [|discriminate X].
    inversion X; subst. eapply Main; eauto.
Qed.

(** X23: [stage0.Run] is the last call of [runRun], made right after
    a successful [stage0.Setup] with the same configuration and the
    directory [Setup] returned, and no other call of [stage0] precedes
    them; a successful [Setup] is always followed by [Run]. *)
Theorem runRun_stage0_order args (w w' : RWorld) o :
  runRun R args w = (w', o) ->
  (forall cfg cdir,
      In (RkRun cfg cdir) (rcalls w w') ->
      exists pre,
        rcalls w w' = pre ++ [RkSetup cfg (Ok cdir); RkRun cfg cdir] /\
        forall ev, In ev pre -> stage0_call ev = false) /\
  (forall cfg cdir,
      In (RkSetup cfg (Ok cdir)) (rcalls w w') ->
      In (RkRun cfg cdir) (rcalls w w')).
Proof.
  intros E. apply runRun_run in E.
  destruct E as (evs & errs & L & _ & _ & _ & _ & RR).
  rewrite (rcalls_app _ _ _ L) in *. clear L.
  assert (Pre : forall pre g g1 errs0 fevs imgs ev,
             DirStep (H:=H) (DS:=DS) g pre g1 errs0 ->
             ImagesRun R args fevs (Val imgs) ->
             In ev (pre ++ RkNewStore (globalFlags_Dir g1) :: fevs) ->
             stage0_call ev = false).
  { intros pre g g1 errs0 fevs imgs ev D I Hin.
    apply in_app_iff in Hin. destruct Hin as [Hin|[<-|Hin]].
    - eapply DirStep_calls; eassumption.
    - reflexivity.
    - eapply ImagesRun_no_stage0; eassumption. }
  split; intros cfg cdir Hin.
  - inversion RR; subst; try solve [destruct Hin]; try no_stage0.
    + destruct Hin as [X|[]]. discriminate X.
    + to_tail Hin. destruct Hin as [X|[]]. discriminate X.
    + pose proof Hin as Hin'. to_tail Hin'.
      destruct Hin' as [X|[X|[]]]; [discriminate X|].
      inversion X; subst.
      exists (pre ++ RkNewStore (globalFlags_Dir (globals (kern w'))) :: fevs).
      rewrite <- app_assoc. split; [reflexivity|].
      intros ev. eapply Pre; eassumption.
    + pose proof Hin as Hin'. to_tail Hin'.
      destruct Hin' as [X|[X|[]]]; [discriminate X|].
      inversion X; subst.
      exists (pre ++ RkNewStore (globalFlags_Dir (globals (kern w'))) :: fevs).
      rewrite <- app_assoc. split; [reflexivity|].
      intros ev. eapply Pre; eassumption.
  - inversion RR; subst; try solve [destruct Hin]; try no_stage0.
    + destruct Hin as [X|[]]. discriminate X.
    + to_tail Hin. destruct Hin as [X|[]]. discriminate X.
    + pose proof Hin as Hin'. to_tail Hin'.
      destruct Hin' as [X|[X|[]]]; [|discriminate X].
      inversion X; subst.
      apply in_app_iff. right. right. apply in_app_iff. right.
      right. left. reflexivity.
    + pose proof Hin as Hin'. to_tail Hin'.
      destruct Hin' as [X|[X|[]]]; [|discriminate X].
      inversion X; subst.
      apply in_app_iff. right. right. apply in_app_iff. right.
      right. left. reflexivity.
Qed.

(** X24: with an image to run, the store is opened at
    [globalFlags.Dir] when that is set, and no temporary directory is
    asked for; when it is unset the first call asks for one with the
    prefix [rkt], the store is opened there and [globalFlags.Dir]
    keeps it; without a temporary directory [runRun] stops with 1. *)
Theorem runRun_directory args (w w' : RWorld) o :
  runRun R args w = (w', o) -> args <> [] ->
  (globalFlags_Dir (globals (kern w)) <> EmptyString ->
   globals (kern w') = globals (kern w) /\
   exists rest,
     rcalls w w' = RkNewStore (globalFlags_Dir (globals (kern w))) :: rest) /\
  (globalFlags_Dir (globals (kern w)) = EmptyString ->
   (exists dir rest,
       rcalls w w' = RkTempDir EmptyString "rkt" (Ok dir)
                       :: RkNewStore dir :: rest /\
       globalFlags_Dir (globals (kern w')) = dir) \/
   (exists e,
       rcalls w w' = [RkTempDir EmptyString "rkt" (Failed e)] /\
       o = Val 1%Z /\
       stderr w'
       = stderr w ++ ["dir unset - using temporary directory";
                      ("error creating temporary directory: "
                       ++ rkt_Error R e ++ newline)%string])).
Proof.
  intros E NE. apply runRun_run in E.
  destruct E as (evs & errs & L & X & _ & _ & _ & RR).
  rewrite (rcalls_app _ _ _ L) in *. clear L. rewrite X. clear X.
  assert (Set_ : forall pre g1 errs0,
             DirStep (H:=H) (DS:=DS) (globals (kern w)) pre g1 errs0 ->
             globalFlags_Dir (globals (kern w)) <> EmptyString ->
             pre = [] /\ g1 = globals (kern w)).
  { intros pre g1 errs0 D N. inversion D; subst; [auto|contradiction]. }
  assert (Unset_ : forall pre g1 errs0,
             DirStep (H:=H) (DS:=DS) (globals (kern w)) pre g1 errs0 ->
             globalFlags_Dir (globals (kern w)) = EmptyString ->
             exists dir, pre = [RkTempDir EmptyString "rkt" (Ok dir)] /\
                         globalFlags_Dir g1 = dir).
  { intros pre g1 errs0 D N. inversion D; subst; [contradiction|].
    exists dir. split; reflexivity. }
  split; intros ED.
  - inversion RR; subst; try contradiction;
      match goal with D : DirStep _ _ _ _ |- _ =>
        destruct (Set_ _ _ _ D ED) as (-> & G) end;
      rewrite G; simpl; eauto.
  - inversion RR; subst; try contradiction;
      try (match goal with D : DirStep _ _ _ _ |- _ =>
             destruct (Unset_ _ _ _ D ED) as (dir & -> & G) end;
           left; simpl; rewrite G; eauto).
    right. exists e. auto.
Qed.

Ltac found Found Hin :=
  match type of Hin with
  | In _ (_ ++ _ :: _ ++ ?tl) =>
      match goal with
      | D : DirStep _ _ _ _, I : ImagesRun _ _ _ _ |- _ =>
          let T := fresh "T" in
          let X := fresh "X" in
          assert (T : forall e, In e tl -> fatal e = false)
            by (let Hx := fresh in
                intros ? Hx; simpl in Hx;
                repeat (destruct Hx as [<-|Hx]; [reflexivity|]); destruct Hx);
          destruct (Found _ _ _ _ _ _ tl D I T Hin) as (? & X);
          discriminate X
      end
  end.

(** X25: when no temporary directory can be made or an image is not
    found, [runRun] reports it on the standard error, returns 1 and
    calls nothing of [stage0]. *)
Theorem runRun_gives_up args (w w' : RWorld) o ev :
  runRun R args w = (w', o) ->
  In ev (rcalls w w') -> fatal ev = true ->
  o = Val 1%Z /\
  (forall ev', In ev' (rcalls w w') -> stage0_call ev' = false) /\
  exists lines msg,
    stderr w' = stderr w ++ lines ++ [(msg ++ newline)%string].
Proof.
  intros E Hin F. apply runRun_run in E.
  destruct E as (evs & errs & L & X & _ & _ & _ & RR).
  rewrite (rcalls_app _ _ _ L) in *. clear L. rewrite X. clear X.
  assert (Found : forall pre g g1 errs0 fevs (o' : outcome (list H)) tail,
             DirStep (H:=H) (DS:=DS) g pre g1 errs0 ->
             ImagesRun R args fevs o' ->
             (forall e, In e tail -> fatal e = false) ->
             In ev (pre ++ RkNewStore (globalFlags_Dir g1) :: fevs ++ tail) ->
             exists e, o' = Throw e).
  { intros pre g g1 errs0 fevs o' tail D I T Hin'.
    apply in_app_iff in Hin'. destruct Hin' as [Hin'|[<-|Hin']].
    - destruct (DirStep_calls _ _ _ _ _ D Hin') as (_ & F').
      rewrite F' in F. discriminate F.
    - discriminate F.
    - apply in_app_iff in Hin'. destruct Hin' as [Hin'|Hin'].
      + eapply ImagesRun_fatal; eassumption.
      + rewrite (T _ Hin') in F. discriminate F. }
  inversion RR; subst.
  - destruct Hin.
  - split; [reflexivity|split].
    + intros ev' [<-|[]]. reflexivity.
    + exists ["dir unset - using temporary directory"],
             ("error creating temporary directory: " ++ rkt_Error R e)%string.
      rewrite string_app_assoc. reflexivity.
  - split; [reflexivity|split].
    + intros ev' Hin'. apply in_app_iff in Hin'.
      destruct Hin' as [Hin'|[<-|Hin']].
      * eapply DirStep_calls; eassumption.
      * reflexivity.
      * eapply ImagesRun_no_stage0; eassumption.
    + eauto.
  - exfalso. rewrite <- (app_nil_r fevs) in Hin. found Found Hin.
  - exfalso. found Found Hin.
  - exfalso. found Found Hin.
  - exfalso. found Found Hin.
Qed.

End RunFacts.

(** ** The [run] command on the simulated host *)

Section RunWitnesses.

Import SimRkt.

Local Open Scope string_scope.

Ltac in_calls :=
  vm_compute; repeat first [ left; reflexivity | right ].

Lemma volumeMap_Set_succeeds_witness :
  volumeMap_Set Sim.quote [("logs", "/var/log")] "data:/srv/data"
  = ([("logs", "/var/log"); ("data", "/srv/data")], Ok tt).
Proof.
  apply (proj2 (volumeMap_Set_succeeds Sim.quote [("logs", "/var/log")]
                  "data:/srv/data"
                  [("logs", "/var/log"); ("data", "/srv/data")])).
  exists "data", "/srv/data".
  split; [reflexivity|]. split; [reflexivity|]. split; [reflexivity|].
  split; reflexivity.
Defined.

Lemma volumeMap_Set_fails_witness :
  let vm := [("data", "/srv/data")] in
  let s := "data:/other" in
  let e := errorString ("got multiple flags for volume " ++ Sim.quote "data") in
  volumeMap_Set Sim.quote vm s = (vm, Failed e) /\
  (vm = vm /\
   ((e = errorString "volume must be of form key:path" /\
     List.length (strings_Split ":" s) <> 2%nat /\
     forall key path, string_mem ":" key = false ->
                      string_mem ":" path = false ->
                      s <> key ++ ":" ++ path) \/
    (exists key path v,
        s = key ++ ":" ++ path /\
        string_mem ":" key = false /\ string_mem ":" path = false /\
        vm_get vm key = Some v /\
        e = errorString ("got multiple flags for volume " ++ Sim.quote key)))).
Proof.
  intros vm s e.
  assert (H1 : volumeMap_Set Sim.quote vm s = (vm, Failed e))
    by (vm_compute; reflexivity).
  split; [exact H1|].
  exact (volumeMap_Set_fails Sim.quote vm s vm e H1).
Defined.

Lemma volumeMap_Set_keeps_witness :
  let vm := [("logs", "/var/log")] in
  let s := "data:/srv/data" in
  let vm' := [("logs", "/var/log"); ("data", "/srv/data")] in
  volumeMap_Set Sim.quote vm s = (vm', Ok tt) /\
  (NoDup (map fst vm) -> NoDup (map fst vm')) /\
  (forall k v, vm_get vm k = Some v -> vm_get vm' k = Some v).
Proof.
  intros vm s vm'.
  assert (H1 : volumeMap_Set Sim.quote vm s = (vm', Ok tt))
    by (vm_compute; reflexivity).
  split; [exact H1|].
  exact (volumeMap_Set_keeps Sim.quote vm s vm' (Ok tt) H1).
Defined.

Lemma volumeMap_Set_then_get_witness :
  exists vm',
    volumeMap_Set Sim.quote [] ("data" ++ ":" ++ "/srv/data") = (vm', Ok tt) /\
    vm_get vm' "data" = Some "/srv/data" /\
    volumeMap_Set Sim.quote vm' ("data" ++ ":" ++ "/other")
    = (vm', Failed (errorString
                      ("got multiple flags for volume " ++ Sim.quote "data"))).
Proof.
  exact (volumeMap_Set_then_get Sim.quote [] "data" "/srv/data" "/other"
           eq_refl eq_refl eq_refl eq_refl).
Defined.

Lemma volumeMap_round_trip_witness :
  let flags := ["data:/srv/data"; "logs:/var/log"] in
  let vm' := [("data", "/srv/data"); ("logs", "/var/log")] in
  volumeMap_Set_all Sim.quote [] flags = (vm', Ok tt) /\
  List.length vm' = List.length flags /\
  NoDup (map fst vm') /\
  volumeMap_String vm' (String.concat "," flags) /\
  (forall s out, flags = [s] -> volumeMap_String vm' out -> out = s).
Proof.
  intros flags vm'.
  assert (H1 : volumeMap_Set_all Sim.quote [] flags = (vm', Ok tt))
    by (vm_compute; reflexivity).
  split; [exact H1|].
  exact (volumeMap_round_trip Sim.quote flags vm' H1).
Defined.

Lemma volumeMap_String_refused_witness :
  let vm := [("data", "/srv/data"); ("logs", "/var/log")] in
  let s := "logs:/var/log,data:/srv/data" in
  2 <= List.length vm /\
  volumeMap_String vm s /\
  volumeMap_Set Sim.quote [] s
  = ([], Failed (errorString "volume must be of form key:path")).
Proof.
  intros vm s.
  assert (H1 : 2 <= List.length vm) by (simpl; lia).
  assert (H2 : volumeMap_String vm s).
  { exists [("logs", "/var/log"); ("data", "/srv/data")].
    split; [apply perm_swap|reflexivity]. }
  split; [exact H1|]. split; [exact H2|].
  exact (volumeMap_String_refused Sim.quote vm s [] H1 H2).
Defined.

Local Abbreviation store := "/var/lib/rkt".
Local Abbreviation w0 := (world host store).

Local Abbreviation three :=
  (findImages deps ["sha512-0123"; "app.aci"; "example.com/etcd"]
              store tt w0).

Lemma findImages_results_witness :
  let args := ["sha512-0123"; "app.aci"; "example.com/etcd"] in
  let out := ["sha512-0123456789abcdef"; "sha512-aaaaaaaa";
              "sha512-bbbbbbbb"] in
  three = (fst three, Val out) /\
  List.length out = List.length args /\
  Forall2 (fun img h =>
             exists key, NewHash deps key = Ok h /\
                         key_of (rcalls w0 (fst three)) img key)
          args out.
Proof.
  intros args out.
  assert (H1 : three = (fst three, Val out)) by (vm_compute; reflexivity).
  split; [exact H1|].
  exact (findImages_results _ _ _ _ deps args store tt w0 (fst three) out H1).
Defined.

Lemma findImages_sources_witness :
  let args := ["sha512-0123"; "app.aci"; "example.com/etcd"] in
  (forall img r, In (RkResolveKey img r) (rcalls w0 (fst three)) ->
                 In img args /\ exists h, NewHash deps img = Ok h) /\
  (forall img r, In (RkOpen img r) (rcalls w0 (fst three)) ->
                 In img args /\ exists e, NewHash deps img = Failed e) /\
  (forall img r, In (RkFetchImage img r) (rcalls w0 (fst three)) ->
                 In img args /\ (exists e, NewHash deps img = Failed e) /\
                 exists e, In (RkOpen img (Failed e)) (rcalls w0 (fst three))).
Proof.
  intros args.
  exact (findImages_sources _ _ _ _ deps args store tt w0 (fst three)
           (snd three) (surjective_pairing three)).
Defined.

Local Abbreviation lost :=
  (findImages deps ["app.aci"; "example.com/none"; "sha512-0123"]
              store tt w0).

Lemma findImages_errors_witness :
  let args := ["app.aci"; "example.com/none"; "sha512-0123"] in
  let e := errorString "unable to discover example.com/none" in
  lost = (fst lost, Throw e) /\
  exists pre img,
    In img args /\
    ((exists err,
         rcalls w0 (fst lost) = (pre ++ [RkResolveKey img (Failed err)])%list /\
         e = errorString ("could not resolve key: " ++ rkt_Error deps err))
     \/
     (exists file err,
         rcalls w0 (fst lost)
         = (pre ++ [RkOpen img (Ok file);
                    RkWriteACI file (Failed err); RkClose file])%list /\
         e = errorString (img ++ ": " ++ rkt_Error deps err))
     \/
     (exists err,
         rcalls w0 (fst lost)
         = (pre ++ [RkOpen img (Failed err);
                    RkFetchImage img (Failed e)])%list)).
Proof.
  intros args e.
  assert (H1 : lost = (fst lost, Throw e)) by (vm_compute; reflexivity).
  split; [exact H1|].
  exact (findImages_errors _ _ _ _ deps args store tt w0 (fst lost) e H1).
Defined.

Local Abbreviation odd :=
  (findImages deps ["example.com/odd"; "app.aci"] store tt w0).

Lemma findImages_bad_key_panics_witness :
  let err := errorString "malformed hash: bogus" in
  returned_key (rcalls w0 (fst odd)) "bogus" /\
  NewHash deps "bogus" = Failed err /\
  snd odd = Panic (rkt_Error deps err).
Proof.
  intros err.
  assert (H1 : returned_key (rcalls w0 (fst odd)) "bogus").
  { right. right. exists "example.com/odd". in_calls. }
  assert (H2 : NewHash deps "bogus" = Failed err) by (vm_compute; reflexivity).
  split; [exact H1|]. split; [exact H2|].
  exact (findImages_bad_key_panics _ _ _ _ deps ["example.com/odd"; "app.aci"]
           store tt w0 (fst odd) (snd odd) "bogus" err
           (surjective_pairing odd) H1 H2).
Defined.

Local Abbreviation torn :=
  (findImages deps ["app.aci"; "notes.txt"; "example.com/etcd"] store tt w0).

Lemma findImages_closes_files_witness :
  snd torn = Throw (errorString "notes.txt: error reading tarball") /\
  (forall pre p f post,
      rcalls w0 (fst torn) = (pre ++ RkOpen p (Ok f) :: post)%list ->
      exists r post', post = RkWriteACI f r :: RkClose f :: post') /\
  (forall pre f post,
      rcalls w0 (fst torn) = (pre ++ RkClose f :: post)%list ->
      exists pre' p r,
        pre = (pre' ++ [RkOpen p (Ok f); RkWriteACI f r])%list) /\
  (forall p f, In (RkOpen p (Ok f)) (rcalls w0 (fst torn)) ->
               (exists r, In (RkWriteACI f r) (rcalls w0 (fst torn))) /\
               In (RkClose f) (rcalls w0 (fst torn))) /\
  List.length (filter opens (rcalls w0 (fst torn)))
  = List.length (filter closes (rcalls w0 (fst torn))).
Proof.
  split; [vm_compute; reflexivity|].
  exact (findImages_closes_files _ _ _ _ deps
           ["app.aci"; "notes.txt"; "example.com/etcd"] store tt w0
           (fst torn) (snd torn) (surjective_pairing torn)).
Defined.

Local Abbreviation two := ["app.aci"; "example.com/etcd"].
Local Abbreviation run := (runRun deps two w0).
Local Abbreviation cfg0 :=
  (run_config deps (flags store) store ["sha512-aaaaaaaa"; "sha512-bbbbbbbb"]).
Local Abbreviation cdir0 := "/var/lib/rkt/containers/c1".

Lemma runRun_exit_status_witness :
  snd run = Exit 0%Z /\
  (forall e, snd run <> Throw e) /\
  (forall c, snd run = Val c -> c = 1%Z) /\
  (forall c, snd run = Exit c ->
             exists pre cfg cdir,
               rcalls w0 (fst run) = (pre ++ [RkRun cfg cdir])%list).
Proof.
  split; [vm_compute; reflexivity|].
  exact (runRun_exit_status _ _ _ _ deps two w0 (fst run) (snd run)
           (surjective_pairing run)).
Defined.

Local Abbreviation none := (runRun deps [] (world host EmptyString)).

Lemma runRun_without_images_witness :
  (@nil string = [] <-> rcalls (world host EmptyString) (fst none) = []) /\
  (@nil string = [] ->
   snd none = Val 1%Z /\
   globals (kern (fst none)) = globals (kern (world host EmptyString)) /\
   stderr (fst none)
   = (stderr (world host EmptyString)
      ++ [("run: Must provide at least one image" ++ newline)%string])%list).
Proof.
  exact (runRun_without_images _ _ _ _ deps [] (world host EmptyString)
           (fst none) (snd none) (surjective_pairing none)).
Defined.

Lemma runRun_config_witness :
  In (RkSetup cfg0 (Ok cdir0)) (rcalls w0 (fst run)) /\
  List.length (Images cfg0) = List.length two /\
  Forall2 (fun img h =>
             exists key, NewHash deps key = Ok h /\
                         key_of (rcalls w0 (fst run)) img key)
          two (Images cfg0) /\
  Volumes cfg0 = flagVolumes (globals (kern w0)) /\
  PrivateNet cfg0 = flagPrivateNet (globals (kern w0)) /\
  Debug cfg0 = globalFlags_Debug (globals (kern w0)) /\
  Stage1Init cfg0 = flagStage1Init (globals (kern w0)) /\
  Stage1Rootfs cfg0 = flagStage1Rootfs (globals (kern w0)) /\
  ContainersDir cfg0 = containersDir deps (globals (kern (fst run))).
Proof.
  assert (H1 : In (RkSetup cfg0 (Ok cdir0)) (rcalls w0 (fst run)))
    by in_calls.
  split; [exact H1|].
  exact (runRun_config _ _ _ _ deps two w0 (fst run) (snd run) cfg0
           (Ok cdir0) (surjective_pairing run) H1).
Defined.

Lemma runRun_stage0_order_witness :
  In (RkRun cfg0 cdir0) (rcalls w0 (fst run)) /\
  (forall cfg cdir,
      In (RkRun cfg cdir) (rcalls w0 (fst run)) ->
      exists pre,
        rcalls w0 (fst run)
        = (pre ++ [RkSetup cfg (Ok cdir); RkRun cfg cdir])%list /\
        forall ev, In ev pre -> stage0_call ev = false) /\
  (forall cfg cdir,
      In (RkSetup cfg (Ok cdir)) (rcalls w0 (fst run)) ->
      In (RkRun cfg cdir) (rcalls w0 (fst run))).
Proof.
  split; [in_calls|].
  exact (runRun_stage0_order _ _ _ _ deps two w0 (fst run) (snd run)
           (surjective_pairing run)).
Defined.

Local Abbreviation w1 := (world host EmptyString).
Local Abbreviation unset := (runRun deps two w1).

Lemma runRun_directory_witness :
  two <> [] /\
  globalFlags_Dir (globals (kern (fst unset))) = "/tmp/rkt042" /\
  (globalFlags_Dir (globals (kern w1)) <> EmptyString ->
   globals (kern (fst unset)) = globals (kern w1) /\
   exists rest,
     rcalls w1 (fst unset)
     = RkNewStore (globalFlags_Dir (globals (kern w1))) :: rest) /\
  (globalFlags_Dir (globals (kern w1)) = EmptyString ->
   (exists dir rest,
       rcalls w1 (fst unset)
       = RkTempDir EmptyString "rkt" (Ok dir) :: RkNewStore dir :: rest /\
       globalFlags_Dir (globals (kern (fst unset))) = dir) \/
   (exists e,
       rcalls w1 (fst unset) = [RkTempDir EmptyString "rkt" (Failed e)] /\
       snd unset = Val 1%Z /\
       stderr (fst unset)
       = (stderr w1
          ++ ["dir unset - using temporary directory";
              ("error creating temporary directory: "
               ++ rkt_Error deps e ++ newline)%string])%list)).
Proof.
  assert (H1 : two <> []) by discriminate.
  split; [exact H1|]. split; [vm_compute; reflexivity|].
  exact (runRun_directory _ _ _ _ deps two w1 (fst unset) (snd unset)
           (surjective_pairing unset) H1).
Defined.

Local Abbreviation w2 := (world readonly EmptyString).
Local Abbreviation stuck := (runRun deps two w2).

Lemma runRun_gives_up_witness :
  let ev := RkTempDir EmptyString "rkt" (Failed (Errno 1)) in
  In ev (rcalls w2 (fst stuck)) /\ fatal ev = true /\
  snd stuck = Val 1%Z /\
  (forall ev', In ev' (rcalls w2 (fst stuck)) -> stage0_call ev' = false) /\
  exists lines msg,
    stderr (fst stuck) = (stderr w2 ++ lines ++ [(msg ++ newline)%string])%list.
Proof.
  intros ev.
  assert (H1 : In ev (rcalls w2 (fst stuck))) by in_calls.
  assert (H2 : fatal ev = true) by reflexivity.
  split; [exact H1|]. split; [exact H2|].
  exact (runRun_gives_up _ _ _ _ deps two w2 (fst stuck) (snd stuck) ev
           (surjective_pairing stuck) H1 H2).
Defined.

End RunWitnesses.
